(** * Phoebe.js: a shallow embedding of the reactive core

    The development follows the layout of [phoebe.js]: JavaScript values,
    the per-element registry, the expression evaluator [js], the reactive
    state wrapper [wrap], the renderer ([schedule], [buildScope],
    [processElement]) and the structural elements ([PhoebeFor],
    [PhoebeIf], [PhoebeWith]).  Stateful code is written in a small
    state-and-exception monad over the part of the page it touches. *)

From Stdlib Require Import ZArith Ascii String List Lia.
From stdpp Require Import base decidable option list gmap strings pretty fin_maps.

Local Open Scope Z_scope.
Local Open Scope nat_scope.

(** ** JavaScript values *)

(** DOM elements and heap objects are identified by natural numbers. *)
Abbreviation Elem := nat (only parsing).
Abbreviation Ref := nat (only parsing).

(** Numbers are integers plus [NaN]; objects are references into a heap,
    DOM elements are references into the document. *)
Inductive value :=
| VUndefined
| VNull
| VBool (b : bool)
| VNum (n : Z)
| VNaN
| VStr (s : string)
| VFun (f : nat)
| VElem (e : Elem)
| VRef (r : Ref).

#[global] Instance value_eq_dec : EqDecision value.
Proof. solve_decision. Defined.

(** [!!v] *)
Definition truthy (v : value) : bool :=
  match v with
  | VUndefined | VNull | VNaN => false
  | VBool b => b
  | VNum n => negb (Z.eqb n 0)
  | VStr s => negb (String.eqb s "")
  | VFun _ | VElem _ | VRef _ => true
  end.

(** [a === b]: [NaN] is not equal to itself, objects compare by reference. *)
Definition strict_eq (a b : value) : bool :=
  match a, b with
  | VNaN, _ | _, VNaN => false
  | _, _ => bool_decide (a = b)
  end.

(** [a !== b] *)
Definition strict_neq (a b : value) : bool := negb (strict_eq a b).

(** A scope object: variable name to value.  [{...a, ...b}] is [b ∪ a],
    since the union of finite maps prefers its left operand. *)
Abbreviation scope := (gmap string value) (only parsing).

Definition spread (a b : scope) : scope := b ∪ a.

(** What a [throw] carries. *)
Inductive exn :=
| Thrown (v : value)
| SyntaxError (msg : string)
| TypeError (msg : string)
| RangeError (msg : string)
| NotFoundError.

(** How a call ends: with a value, with an exception, or not within the
    number of loop iterations it was given. *)
Inductive result (A : Type) :=
| Ok (a : A)
| Throw (e : exn)
| OutOfFuel.
Arguments Ok {A} a.
Arguments Throw {A} e.
Arguments OutOfFuel {A}.

(** [el.getAttribute(name)] is [null] or a string; a string built from it
    spells [null] out. *)
Definition attr_str (a : option string) : string :=
  match a with Some s => s | None => "null" end.

(** Truthiness of an attribute value: [null] and the empty string are falsy. *)
Definition attr_truthy (a : option string) : bool :=
  match a with Some s => negb (String.eqb s "") | None => false end.

(** ** The registry: additional properties kept for DOM nodes *)

Inductive ctxAncestors :=
| CAUndefined
| CAFalse
| CAList (els : list Elem).

Record regEntry := mkReg {
  boundModel : bool;
  boundEvents : option (list string);
  originalStyle : option string;
  originalClass : option string;
  loopContextValue : option scope;
  withContextValue : option scope;
  contextAncestors : ctxAncestors
}.

(** [map.set(el, {})] *)
Definition emptyReg : regEntry :=
  mkReg false None None None None None CAUndefined.

(** [registry(el)]: the entry of [el], created empty on first use. *)
Definition registry (reg : gmap Elem regEntry) (el : Elem) : regEntry :=
  default emptyReg (reg !! el).

Definition set_loopContextValue (ctx : scope) (r : regEntry) : regEntry :=
  mkReg (boundModel r) (boundEvents r) (originalStyle r) (originalClass r)
        (Some ctx) (withContextValue r) (contextAncestors r).

Definition set_withContextValue (ctx : scope) (r : regEntry) : regEntry :=
  mkReg (boundModel r) (boundEvents r) (originalStyle r) (originalClass r)
        (loopContextValue r) (Some ctx) (contextAncestors r).

Definition set_contextAncestors (a : ctxAncestors) (r : regEntry) : regEntry :=
  mkReg (boundModel r) (boundEvents r) (originalStyle r) (originalClass r)
        (loopContextValue r) (withContextValue r) a.

Definition set_originalClass (c : string) (r : regEntry) : regEntry :=
  mkReg (boundModel r) (boundEvents r) (originalStyle r) (Some c)
        (loopContextValue r) (withContextValue r) (contextAncestors r).

Definition set_originalStyle (c : string) (r : regEntry) : regEntry :=
  mkReg (boundModel r) (boundEvents r) (Some c) (originalClass r)
        (loopContextValue r) (withContextValue r) (contextAncestors r).

Definition set_boundEvents (evs : list string) (r : regEntry) : regEntry :=
  mkReg (boundModel r) (Some evs) (originalStyle r) (originalClass r)
        (loopContextValue r) (withContextValue r) (contextAncestors r).

(** [registry(el).field = ...] *)
Definition reg_update (f : regEntry → regEntry) (el : Elem)
    (reg : gmap Elem regEntry) : gmap Elem regEntry :=
  <[el := f (registry reg el)]> reg.

(** ** The page state and its monad *)

Inductive logLevel := LError | LWarn | LDebug.

(** A console line: its level and its leading message. *)
Definition logEntry : Type := logLevel * string.

(** An attached event listener: element, event name, snippet to run. *)
Definition listener : Type := Elem * string * string.

Section Page.

(** Whatever a snippet of template code can read and write: the reactive
    state and the globals of the page. *)
Context {St : Type}.

(** A compiled [new Function("state", "scope", "value", body)], called as
    [f.call(_this, state, scope, value)]. *)
Definition compiled : Type := St → scope → value → Elem → St * result value.

Record Page := mkPage {
  ambient : St;
  jsCache : gmap string compiled;
  console : list logEntry;
  reg : gmap Elem regEntry;
  attributes : gmap Elem (list (string * string));
  listeners : list listener;
  nextElem : Elem;
  dispatched : list (Elem * string)
}.

Definition with_ambient (s : St) (w : Page) : Page :=
  mkPage s (jsCache w) (console w) (reg w) (attributes w) (listeners w)
         (nextElem w) (dispatched w).

Definition with_jsCache (c : gmap string compiled) (w : Page) : Page :=
  mkPage (ambient w) c (console w) (reg w) (attributes w) (listeners w)
         (nextElem w) (dispatched w).

Definition with_console (c : list logEntry) (w : Page) : Page :=
  mkPage (ambient w) (jsCache w) c (reg w) (attributes w) (listeners w)
         (nextElem w) (dispatched w).

Definition with_reg (r : gmap Elem regEntry) (w : Page) : Page :=
  mkPage (ambient w) (jsCache w) (console w) r (attributes w) (listeners w)
         (nextElem w) (dispatched w).

Definition with_attributes (a : gmap Elem (list (string * string))) (w : Page)
    : Page :=
  mkPage (ambient w) (jsCache w) (console w) (reg w) a (listeners w)
         (nextElem w) (dispatched w).

Definition with_listeners (l : list listener) (w : Page) : Page :=
  mkPage (ambient w) (jsCache w) (console w) (reg w) (attributes w) l
         (nextElem w) (dispatched w).

Definition with_nextElem (n : Elem) (w : Page) : Page :=
  mkPage (ambient w) (jsCache w) (console w) (reg w) (attributes w)
         (listeners w) n (dispatched w).

Definition with_dispatched (d : list (Elem * string)) (w : Page) : Page :=
  mkPage (ambient w) (jsCache w) (console w) (reg w) (attributes w)
         (listeners w) (nextElem w) d.

Definition M (A : Type) : Type := Page → Page * result A.

Definition ret {A} (a : A) : M A := fun w => (w, Ok a).

Definition throw {A} (e : exn) : M A := fun w => (w, Throw e).

Definition out_of_fuel {A} : M A := fun w => (w, OutOfFuel).

Definition bind {A B} (m : M A) (k : A → M B) : M B := fun w =>
  match m w with
  | (w', Ok a) => k a w'
  | (w', Throw e) => (w', Throw e)
  | (w', OutOfFuel) => (w', OutOfFuel)
  end.

(** [try { body } catch (e) { handler(e) }] *)
Definition try_catch {A} (body : M A) (handler : exn → M A) : M A := fun w =>
  match body w with
  | (w', Ok a) => (w', Ok a)
  | (w', Throw e) => handler e w'
  | (w', OutOfFuel) => (w', OutOfFuel)
  end.

(** [console.error], [console.warn], [console.debug] *)
Definition console_log (lvl : logLevel) (msg : string) : M unit := fun w =>
  (with_console (console w ++ [(lvl, msg)]) w, Ok tt).

(** The page after one more console line. *)
Definition logged (lvl : logLevel) (msg : string) (w : Page) : Page :=
  with_console (console w ++ [(lvl, msg)]) w.

Definition get_reg : M (gmap Elem regEntry) := fun w => (w, Ok (reg w)).

(** [registry(el).field = ...] as an action. *)
Definition modify_reg (f : regEntry → regEntry) (el : Elem) : M unit := fun w =>
  (with_reg (reg_update f el (reg w)) w, Ok tt).

(** [document.createElement] and [cloneNode]: a node that did not exist. *)
Definition fresh_elem : M Elem := fun w =>
  (with_nextElem (Datatypes.S (nextElem w)) w, Ok (nextElem w)).

(** [el.dispatchEvent(new CustomEvent(name))] *)
Definition dispatchEvent (el : Elem) (name : string) : M unit := fun w =>
  (with_dispatched (dispatched w ++ [(el, name)]) w, Ok tt).

End Page.

Arguments Page St : clear implicits.
Arguments M St A : clear implicits.

Notation "'let!' x ':=' m 'in' k" := (bind m (fun x => k))
  (at level 10, x pattern, m at level 100, k at level 200,
   format "'[v' 'let!'  x  ':='  m  'in' '/' k ']'").
Notation "m ';;;' k" := (bind m (fun _ => k))
  (at level 100, k at level 200, right associativity).

(** ** [js]: executing the snippets contained in phoebe strings *)

Section Js.

Context {St : Type}.

(** [new Function(...params, body)]: the host compiles the text or throws. *)
Variable newFunction : list string → string → result (@compiled St).

Definition cache_has (key : string) : M St bool := fun w =>
  (w, Ok (bool_decide (is_Some (jsCache w !! key)))).

Definition cache_set (key : string) (f : compiled) : M St unit := fun w =>
  (with_jsCache (<[key := f]> (jsCache w)) w, Ok tt).

(** [cache.get(key)]; calling what an absent key yields is a [TypeError]. *)
Definition cache_get (key : string) : M St compiled := fun w =>
  match jsCache w !! key with
  | Some f => (w, Ok f)
  | None => (w, Throw (TypeError "cache.get(...) is undefined"))
  end.

(** [new Function(...)] inside the monad. *)
Definition compile (params : list string) (body : string) : M St compiled :=
  fun w => (w, newFunction params body).

(** [f.call(_this, state, scope, value)] *)
Definition call (f : compiled) (scope : scope) (v : value) (_this : Elem)
    : M St value := fun w =>
  let '(s', r) := f (ambient w) scope v _this in (with_ambient s' w, r).

(** The body of the [try] block of [js.get]. *)
Definition get_body (expr : string) (scope : scope) (_this : Elem)
    : M St value :=
  let cache_key := "get:" +:+ expr in
  let! has := cache_has cache_key in
  (if has then ret tt
   else
     let! f := compile ["state"; "scope"]
                 ("with(state){ with(scope){ return (" +:+ expr +:+ ") } }") in
     cache_set cache_key f) ;;;
  let! f := cache_get cache_key in
  call f scope VUndefined _this.

(** [js.get(expr, scope, _this)]: get a value from a javascript expression. *)
Definition js_get (expr : string) (scope : scope) (_this : Elem) : M St value :=
  try_catch (get_body expr scope _this)
    (fun e =>
       console_log LError "Phoebe.js: error executing js.get()" ;;;
       throw e).

(** The body of the [try] block of [js.set]. *)
Definition set_body (expr : string) (v : value) (scope : scope) (_this : Elem)
    : M St unit :=
  let cache_key := "set:" +:+ expr in
  let! has := cache_has cache_key in
  (if has then ret tt
   else
     let! f := compile ["state"; "scope"; "value"]
                 ("with(state) { with(scope){ " +:+ expr +:+ " = value } }") in
     cache_set cache_key f) ;;;
  let! f := cache_get cache_key in
  call f scope v _this ;;;
  ret tt.

(** [js.set(expr, value, scope, _this)]: assign a javascript expression a
    value. *)
Definition js_set (expr : string) (v : value) (scope : scope) (_this : Elem)
    : M St unit :=
  try_catch (set_body expr v scope _this)
    (fun e => console_log LError "Phoebe.js: error executing js.set()").

(** The body of the [try] block of [js.exec]. *)
Definition exec_body (expr : string) (scope : scope) (_this : Elem)
    : M St unit :=
  let cache_key := "exec:" +:+ expr in
  let! has := cache_has cache_key in
  (if has then ret tt
   else
     let! f := compile ["state"; "scope"]
                 ("with(state){ with(scope){ " +:+ expr +:+ " } }") in
     cache_set cache_key f) ;;;
  let! f := cache_get cache_key in
  call f scope VUndefined _this ;;;
  ret tt.

(** [js.exec(expr, scope, _this)]: execute a javascript expression. *)
Definition js_exec (expr : string) (scope : scope) (_this : Elem) : M St unit :=
  try_catch (exec_body expr scope _this)
    (fun e => console_log LError "Phoebe.js: error executing js.exec()").

End Js.

(** ** The renderer: scope resolution *)

Section BuildScope.

Context {St : Type}.

(** The document as [buildScope] reads it: [parentElement] of each element
    that has one, and the root the instance was created with. *)
Variable parentElement : gmap Elem Elem.
Variable rootNode : Elem.

(** Does the element carry a loop or a with context? *)
Definition providesContext (rg : gmap Elem regEntry) (el : Elem) : bool :=
  bool_decide (is_Some (loopContextValue (registry rg el)))
  || bool_decide (is_Some (withContextValue (registry rg el))).

(** The [while (parent && parent !== rootNode)] loop of [buildScope]:
    the elements pushed onto [loopEls], one unit of fuel per iteration. *)
Fixpoint collectLoopEls (fuel : nat) (rg : gmap Elem regEntry)
    (parent : option Elem) : option (list Elem) :=
  match parent with
  | None => Some []
  | Some p =>
    if bool_decide (p = rootNode) then Some []
    else
      match fuel with
      | O => None
      | Datatypes.S fuel' =>
        match collectLoopEls fuel' rg (parentElement !! p) with
        | None => None
        | Some rest => Some (if providesContext rg p then p :: rest else rest)
        end
      end
  end.

(** One turn of [for (const anc of ancestors)]. *)
Definition mergeContext (rg : gmap Elem regEntry) (sc : scope) (anc : Elem)
    : scope :=
  let r := registry rg anc in
  let sc1 := match loopContextValue r with
             | Some c => spread sc c
             | None => sc
             end in
  match withContextValue r with
  | Some c => spread sc1 c
  | None => sc1
  end.

(** [buildScope(el)] *)
Definition buildScope (fuel : nat) (el : Elem) : M St scope :=
  let! rg := get_reg in
  (match contextAncestors (registry rg el) with
   | CAUndefined =>
     match collectLoopEls fuel rg (Some el) with
     | None => out_of_fuel
     | Some loopEls =>
       modify_reg (set_contextAncestors
                     (if bool_decide (0 < length loopEls)
                      then CAList loopEls else CAFalse)) el
     end
   | _ => ret tt
   end) ;;;
  let! rg := get_reg in
  ret (match contextAncestors (registry rg el) with
       | CAList ancestors => foldl (mergeContext rg) ∅ ancestors
       | _ => ∅
       end).

End BuildScope.

(** ** Reading the attributes of an element *)

Section Attributes.

Context {St : Type}.

Fixpoint assoc (name : string) (l : list (string * string)) : option string :=
  match l with
  | [] => None
  | (k, v) :: rest => if String.eqb k name then Some v else assoc name rest
  end.

(** [el.getAttribute(name)] *)
Definition getAttribute (el : Elem) (name : string) : M St (option string) :=
  fun w => (w, Ok (assoc name (default [] (attributes w !! el)))).

(** [el.hasAttribute(name)] *)
Definition hasAttribute (el : Elem) (name : string) : M St bool :=
  fun w => (w, Ok (bool_decide
                     (is_Some (assoc name (default [] (attributes w !! el)))))).

(** [el.getAttributeNames()]: the names in declaration order. *)
Definition getAttributeNames (el : Elem) : M St (list string) :=
  fun w => (w, Ok (map fst (default [] (attributes w !! el)))).

End Attributes.

(** ** [<phoebe-with>] *)

Module PhoebeWith.
Section PhoebeWith.

Context {St : Type}.
Variable newFunction : list string → string → result (@compiled St).

(** [render(scope)] *)
Definition render (this : Elem) (scope : scope) : M St unit :=
  let! varName := getAttribute this "var" in
  let! expr := getAttribute this "is" in
  if attr_truthy varName && attr_truthy expr then
    let! v := js_get newFunction (attr_str expr) scope this in
    modify_reg (set_withContextValue {[attr_str varName := v]}) this
  else
    console_log LWarn
      "Phoebe.js: <phoebe-with> attributes var and is are required:".

End PhoebeWith.
End PhoebeWith.

(** The elements the upward walk of [buildScope] visits from [parent]:
    nearest first, up to and without the root. *)
Inductive walk_up (parentElement : gmap Elem Elem) (rootNode : Elem)
    : option Elem → list Elem → Prop :=
| walk_null : walk_up parentElement rootNode None []
| walk_root : walk_up parentElement rootNode (Some rootNode) []
| walk_step p l :
    p ≠ rootNode →
    walk_up parentElement rootNode (parentElement !! p) l →
    walk_up parentElement rootNode (Some p) (p :: l).

(** What an element contributes to a scope by itself. *)
Definition ownContext (rg : gmap Elem regEntry) (el : Elem) : scope :=
  mergeContext rg ∅ el.

(** ** A small host for examples

    The theorems below hold for every [newFunction].  To run the code on
    concrete pages, this host compiles the three body shapes that [js]
    builds, for snippets that are dotted paths ([item.id]), assignments to
    a variable of the state, and [throw]. *)

Module Host.

Record state := mkState {
  globals : gmap string value;
  objects : gmap Ref (gmap string value);
  arrays : gmap Ref (list value)
}.

Fixpoint split_on (c : Ascii.ascii) (s : string) : list string :=
  match s with
  | EmptyString => [EmptyString]
  | String a rest =>
    let r := split_on c rest in
    if Ascii.eqb a c then EmptyString :: r
    else match r with
         | [] => [String a EmptyString]
         | h :: t => String a h :: t
         end
  end.

(** The text between [pre] and [suf], when [s] has that shape. *)
Definition between (pre suf s : string) : option string :=
  let n := String.length s in
  let a := String.length pre in
  let b := String.length suf in
  if bool_decide (a + b ≤ n)
     && String.eqb (String.substring 0 a s) pre
     && String.eqb (String.substring (n - b) b s) suf
  then Some (String.substring a (n - a - b) s)
  else None.

(** [with(state){ with(scope){ x } }]: the scope shadows the state. *)
Definition lookup_var (s : state) (sc : scope) (x : string) : result value :=
  match sc !! x with
  | Some v => Ok v
  | None =>
    match globals s !! x with
    | Some v => Ok v
    | None => Throw (Thrown (VStr ("ReferenceError: " +:+ x)))
    end
  end.

Definition get_field (s : state) (v : value) (f : string) : result value :=
  match v with
  | VUndefined | VNull => Throw (TypeError "Cannot read properties")
  | VRef r =>
    match objects s !! r with
    | Some o => Ok (default VUndefined (o !! f))
    | None => Ok VUndefined
    end
  | _ => Ok VUndefined
  end.

Fixpoint get_path (s : state) (v : value) (fs : list string) : result value :=
  match fs with
  | [] => Ok v
  | f :: rest =>
    match get_field s v f with
    | Ok v' => get_path s v' rest
    | r => r
    end
  end.

Definition eval_path (s : state) (sc : scope) (text : string) : result value :=
  match split_on "."%char text with
  | [] => Throw (SyntaxError "Unexpected token")
  | x :: fs =>
    if String.eqb x "" then Throw (SyntaxError "Unexpected token")
    else match lookup_var s sc x with
         | Ok v => get_path s v fs
         | r => r
         end
  end.

Definition assign (x : string) (v : value) (s : state) : state :=
  mkState (<[x := v]> (globals s)) (objects s) (arrays s).

Definition newFunction (params : list string) (body : string)
    : result (@compiled state) :=
  match between "with(state){ with(scope){ return (" ") } }" body with
  | Some e => Ok (fun s sc _ _ => (s, eval_path s sc e))
  | None =>
    match between "with(state) { with(scope){ " " = value } }" body with
    | Some x =>
      if String.eqb x "" then Throw (SyntaxError "Unexpected token")
      else Ok (fun s sc v _ => (assign x v s, Ok VUndefined))
    | None =>
      match between "with(state){ with(scope){ throw " " } }" body with
      | Some e =>
        Ok (fun s sc _ _ =>
              (s, match eval_path s sc e with
                  | Ok v => Throw (Thrown v)
                  | r => r
                  end))
      | None => Throw (SyntaxError "Unexpected token")
      end
    end
  end.

(** [for (const item of v)]: arrays of the state are iterable. *)
Definition iterate (s : state) (v : value) : option (list value) :=
  match v with
  | VRef r => arrays s !! r
  | _ => None
  end.

Definition emptyState : state := mkState ∅ ∅ ∅.

(** A page on which nothing has been rendered yet. *)
Definition emptyPage (s : state) : Page state :=
  mkPage s ∅ [] ∅ ∅ [] 0 [].

End Host.

(** ** The renderer: scheduling *)

(** The part of the page [schedule] works on: the set [rerenderEls] in
    insertion order, the [setTimeout] callbacks not yet run, and the calls
    of [renderTree] made so far.  The render pass itself is recorded here,
    not run. *)
Record Sched := mkSched {
  rerenderEls : list Elem;
  timers : nat;
  rendered : list Elem
}.

Definition idle : Sched := mkSched [] 0 [].

Section Schedule.

Variable parentElement : gmap Elem Elem.

(** [a.contains(el)]: is [a] the node [el] or one of its ancestors?  One
    unit of fuel per step up the tree. *)
Fixpoint contains (fuel : nat) (a : Elem) (el : option Elem) : option bool :=
  match el with
  | None => Some false
  | Some e =>
    if bool_decide (e = a) then Some true
    else match fuel with
         | O => None
         | Datatypes.S fuel' => contains fuel' a (parentElement !! e)
         end
  end.

(** [for (const rerenderEl of rerenderEls) if (rerenderEl.contains(el)) {
    shouldAdd = false; break }]: the value of [shouldAdd] after the loop. *)
Fixpoint shouldAdd (fuel : nat) (pending : list Elem) (el : Elem)
    : option bool :=
  match pending with
  | [] => Some true
  | rerenderEl :: rest =>
    match contains fuel rerenderEl (Some el) with
    | None => None
    | Some true => Some false
    | Some false => shouldAdd fuel rest el
    end
  end.

(** [rerenderEls.add(el)] *)
Definition set_add (el : Elem) (s : list Elem) : list Elem :=
  if bool_decide (el ∈ s) then s else s ++ [el].


(** [schedule(el)] *)
Definition schedule (fuel : nat) (el : Elem) (s : Sched) : option Sched :=
  if bool_decide (length (rerenderEls s) = 0) then
    Some (mkSched (set_add el (rerenderEls s)) (Datatypes.S (timers s))
                  (rendered s))
  else if negb (bool_decide (el ∈ rerenderEls s)) then
    match shouldAdd fuel (rerenderEls s) el with
    | None => None
    | Some true =>
      Some (mkSched (set_add el (rerenderEls s)) (timers s) (rendered s))
    | Some false => Some s
    end
  else Some s.



(** A sequence of [schedule] calls. *)
Fixpoint scheduleAll (fuel : nat) (els : list Elem) (s : Sched)
    : option Sched :=
  match els with
  | [] => Some s
  | el :: rest =>
    match schedule fuel el s with
    | None => None
    | Some s' => scheduleAll fuel rest s'
    end
  end.

End Schedule.

(** The nodes from [el] up to the top of its tree, nearest first. *)
Inductive path_up (parentElement : gmap Elem Elem)
    : option Elem → list Elem → Prop :=
| path_null : path_up parentElement None []
| path_step p l :
    path_up parentElement (parentElement !! p) l →
    path_up parentElement (Some p) (p :: l).

(** [a] is [d] or an ancestor of [d]. *)
Definition inclusiveAncestor (parentElement : gmap Elem Elem) (a d : Elem)
    : Prop :=
  ∃ l, path_up parentElement (Some d) l ∧ a ∈ l.





(** A page for examples: [0] is the root, [1] and [2] are its children,
    [3] is a child of [1] and [4] a child of [3]. *)
Definition exampleTree : gmap Elem Elem := {[ 1 := 0; 2 := 0; 3 := 1; 4 := 3 ]}.

(** ** Strings as the directives use them *)

(** [s.trim()], over the ASCII white space. *)
Fixpoint trimStart (s : string) : string :=
  match s with
  | EmptyString => EmptyString
  | String c rest => if Ascii.is_space c then trimStart rest else s
  end.

Definition trim (s : string) : string :=
  String.rev (trimStart (String.rev (trimStart s))).

(** [s.endsWith(";")] *)
Definition endsWithSemicolon (s : string) : bool :=
  match String.rev s with
  | String c _ => Ascii.eqb c ";"%char
  | EmptyString => false
  end.

(** The white space that separates the tokens of a [class] attribute. *)
Definition isTokenSeparator (c : ascii) : bool :=
  match c with
  | "009" | "010" | "012" | "013" | " " => true
  | _ => false
  end%char.

Fixpoint tokens_go (cur : string) (s : string) : list string :=
  match s with
  | EmptyString =>
    if String.eqb cur "" then [] else [String.rev cur]
  | String c rest =>
    if isTokenSeparator c then
      (if String.eqb cur "" then [] else [String.rev cur]) ++ tokens_go "" rest
    else tokens_go (String c cur) rest
  end.

(** The ordered set of tokens of a [class] attribute. *)
Fixpoint orderedSet (l : list string) : list string :=
  match l with
  | [] => []
  | x :: rest =>
    x :: List.filter (fun y => negb (String.eqb y x)) (orderedSet rest)
  end.

Definition classTokens (cls : string) : list string :=
  orderedSet (tokens_go "" cls).

(** The tokens joined by single spaces. *)
Fixpoint serializeTokens (l : list string) : string :=
  match l with
  | [] => ""
  | [x] => x
  | x :: rest => x +:+ " " +:+ serializeTokens rest
  end.

(** [String(v)] for a value that is neither [null] nor [undefined]; every
    object prints as a plain object does. *)
Definition toString (v : value) : string :=
  match v with
  | VUndefined => "undefined"
  | VNull => "null"
  | VBool true => "true"
  | VBool false => "false"
  | VNum n => pretty n
  | VNaN => "NaN"
  | VStr s => s
  | VFun _ => "function () { [native code] }"
  | VElem _ => "[object HTMLElement]"
  | VRef _ => "[object Object]"
  end.

(** [(v ?? "").toString()] *)
Definition toStringOrEmpty (v : value) : string :=
  match v with
  | VUndefined | VNull => ""
  | _ => toString v
  end.

(** ** Writing the attributes of an element *)

Section AttributeWrites.

Context {St : Type}.

Fixpoint assoc_set (name v : string) (l : list (string * string))
    : list (string * string) :=
  match l with
  | [] => [(name, v)]
  | (k, x) :: rest =>
    if String.eqb k name then (k, v) :: rest
    else (k, x) :: assoc_set name v rest
  end.

(** [el.setAttribute(name, v)] *)
Definition setAttribute (el : Elem) (name v : string) : M St unit := fun w =>
  (with_attributes
     (<[el := assoc_set name v (default [] (attributes w !! el))]>
        (attributes w)) w, Ok tt).

(** [el.removeAttribute(name)] *)
Definition removeAttribute (el : Elem) (name : string) : M St unit := fun w =>
  (with_attributes
     (<[el := List.filter (fun kv => negb (String.eqb (fst kv) name))
                          (default [] (attributes w !! el))]>
        (attributes w)) w, Ok tt).

(** [el.classList.toggle(token, force)] *)
Definition classList_toggle (el : Elem) (token : string) (force : bool)
    : M St bool :=
  if String.eqb token "" then
    throw (SyntaxError "The token provided must not be empty.")
  else
    let! cls := getAttribute el "class" in
    let set := classTokens (default "" cls) in
    if existsb (String.eqb token) set then
      if force then ret true
      else
        setAttribute el "class"
          (serializeTokens
             (List.filter (fun y => negb (String.eqb y token)) set)) ;;;
        ret false
    else
      if force then
        setAttribute el "class" (serializeTokens (set ++ [token])) ;;;
        ret true
      else ret false.

(** [el.addEventListener(eventName, () => ... expr ...)] *)
Definition addEventListener (el : Elem) (eventName expr : string)
    : M St unit := fun w =>
  (with_listeners (listeners w ++ [(el, eventName, expr)]) w, Ok tt).

End AttributeWrites.

(** ** Directive handlers *)

Section Directives.

Context {St : Type}.
Variable newFunction : list string → string → result (@compiled St).

(** [handleClass(el, className, expr, scope)] *)
Definition handleClass (el : Elem) (className expr : string) (scope : scope)
    : M St unit :=
  let! v := js_get newFunction expr scope el in
  classList_toggle el className (truthy v) ;;;
  ret tt.

(** [handleReference(el, expr, scope)] *)
Definition handleReference (el : Elem) (expr : string) (scope : scope)
    : M St unit :=
  js_set newFunction expr (VElem el) scope el.

(** [handleEvent(el, eventName, expr)] *)
Definition handleEvent (el : Elem) (eventName expr : string) : M St unit :=
  let! rg := get_reg in
  (match boundEvents (registry rg el) with
   | None => modify_reg (set_boundEvents []) el
   | Some _ => ret tt
   end) ;;;
  let! rg := get_reg in
  let bound := default [] (boundEvents (registry rg el)) in
  if existsb (String.eqb eventName) bound then ret tt
  else
    addEventListener el eventName expr ;;;
    modify_reg (set_boundEvents (bound ++ [eventName])) el.

(** [handleAttribute(el, attrName, expr, scope)] *)
Definition handleAttribute (el : Elem) (attrName expr : string)
    (scope : scope) : M St unit :=
  let! v := js_get newFunction expr scope el in
  if String.eqb attrName "style" then
    let! rg := get_reg in
    (match originalStyle (registry rg el) with
     | None =>
       let! a := getAttribute el "style" in
       modify_reg (set_originalStyle (trim (default "" a))) el
     | Some _ => ret tt
     end) ;;;
    let computedStyle := trim (toStringOrEmpty v) in
    let! rg := get_reg in
    let originalStyle := default "" (originalStyle (registry rg el)) in
    if (0 <? String.length computedStyle)
       || (0 <? String.length originalStyle) then
      let newStyle :=
        if (0 <? String.length originalStyle)
           && (0 <? String.length computedStyle)
           && negb (endsWithSemicolon originalStyle)
        then originalStyle +:+ ";" else originalStyle in
      setAttribute el "style" (newStyle +:+ computedStyle)
    else removeAttribute el "style"
  else if String.eqb attrName "class" then
    let! rg := get_reg in
    (match originalClass (registry rg el) with
     | None =>
       let! a := getAttribute el "class" in
       modify_reg (set_originalClass (trim (default "" a))) el
     | Some _ => ret tt
     end) ;;;
    let! rg := get_reg in
    setAttribute el attrName
      (trim (default "" (originalClass (registry rg el)) +:+ " "
             +:+ toStringOrEmpty v))
  else
    match v with
    | VUndefined | VNull | VBool false => removeAttribute el attrName
    | VBool true => setAttribute el attrName attrName
    | _ => setAttribute el attrName (toString v)
    end.

End Directives.

(** ** The renderer: applying the directives of an element *)

Section ProcessElement.

Context {St : Type}.
Variable newFunction : list string → string → result (@compiled St).
Variable parentElement : gmap Elem Elem.
Variable rootNode : Elem.

(** [handleBinding(el, expr, scope)] works on form controls, which this
    model of the page does not hold. *)
Variable handleBinding : Elem → option string → scope → M St unit.

(** The comparator handed to [phoebeAttrs.sort]. *)
Definition compareAttrs (a b : string) : Z :=
  (Z.b2z (String.eqb a "phoebe:class") - Z.b2z (String.eqb b "phoebe:class"))%Z.

(** [Array.prototype.sort] is a stable sort: [a] moves behind [b] only
    when the comparator is positive on [(a, b)]. *)
Fixpoint sortInsert (cmp : string → string → Z) (a : string)
    (sorted : list string) : list string :=
  match sorted with
  | [] => [a]
  | b :: rest =>
    if (0 <? cmp a b)%Z then b :: sortInsert cmp a rest else a :: sorted
  end.

Definition sort (cmp : string → string → Z) (l : list string) : list string :=
  foldr (sortInsert cmp) [] l.

(** [s.startsWith(pre)] *)
Definition startsWith (pre s : string) : bool := String.prefix pre s.

(** [s.substring(n)] *)
Definition substringFrom (n : nat) (s : string) : string :=
  String.substring n (String.length s - n) s.

(** The body of [phoebeAttrs.forEach(attrName => ...)]. *)
Definition applyDirective (el : Elem) (scope : scope) (attrName : string)
    : M St unit :=
  if String.eqb attrName "phoebe-bind" then
    let! a := getAttribute el attrName in handleBinding el a scope
  else if String.eqb attrName "phoebe-ref" then
    let! a := getAttribute el attrName in
    handleReference newFunction el (attr_str a) scope
  else if startsWith "phoebe-class:" attrName then
    let! a := getAttribute el attrName in
    handleClass newFunction el
      (substringFrom (String.length "phoebe-class:") attrName) (attr_str a) scope
  else if startsWith "phoebe:on" attrName
          && (String.length "phoebe:on" <? String.length attrName) then
    let! a := getAttribute el attrName in
    handleEvent el (substringFrom (String.length "phoebe:on") attrName)
      (attr_str a)
  else if startsWith "phoebe:" attrName
          && (String.length "phoebe:" <? String.length attrName) then
    let! a := getAttribute el attrName in
    handleAttribute newFunction el
      (substringFrom (String.length "phoebe:") attrName) (attr_str a) scope
  else
    console_log LWarn "Phoebe.js: Unknown attribute".

(** [arr.forEach(f)] *)
Fixpoint forEach {A} (f : A → M St unit) (l : list A) : M St unit :=
  match l with
  | [] => ret tt
  | x :: rest => f x ;;; forEach f rest
  end.

(** The directive attributes of an element in the order the render pass
    applies them. *)
Definition directiveOrder (names : list string) : list string :=
  sort compareAttrs (List.filter (startsWith "phoebe") names).

(** [processElement(el)].  [render] is the [render] method of [el] when
    [el instanceof PhoebeElement]. *)
Definition processElement (fuel : nat) (render : option (scope → M St unit))
    (el : Elem) : M St unit :=
  let! scope :=
    match render with
    | Some render =>
      let! scope := buildScope parentElement rootNode fuel el in
      render scope ;;;
      ret (Some scope)
    | None => ret None
    end in
  let! names := getAttributeNames el in
  let phoebeAttrs := List.filter (startsWith "phoebe") names in
  if 0 <? length phoebeAttrs then
    let! scope :=
      match scope with
      | Some scope => ret scope
      | None => buildScope parentElement rootNode fuel el
      end in
    forEach (applyDirective el scope) (sort compareAttrs phoebeAttrs)
  else ret tt.

End ProcessElement.

(** ** Example pages *)

(** [<body> <phoebe-for> <li> <phoebe-with> <span>]: elements [0] to [4],
    each the parent of the next; [0] is the root of the instance. *)
Definition nestedTree : gmap Elem Elem := {[ 1 := 0; 2 := 1; 3 := 2; 4 := 3 ]}.

(** The loop item [2] and the scoped variable [3] both define [item]. *)
Definition shadowingPage : Page Host.state :=
  with_reg
    {[ 2 := set_loopContextValue {[ "item" := VStr "loop" ]} emptyReg;
       3 := set_withContextValue {[ "item" := VStr "with" ]} emptyReg ]}
    (Host.emptyPage Host.emptyState).

(** [<phoebe-with var="x" is="n" phoebe:title="x">] as element [1] under the
    root [0], with [n] set to [7] in the state. *)
Definition withPage : Page Host.state :=
  with_attributes
    {[ 1 := [("var", "x"); ("is", "n"); ("phoebe:title", "x")] ]}
    (Host.emptyPage (Host.mkState {[ "n" := VNum 7 ]} ∅ ∅)).

(** [<span phoebe:class="cls" phoebe-class:red="on">] as element [1] under
    the root [0], with [cls] set to ["big"] in the state. *)
Definition classPage (on : bool) : Page Host.state :=
  with_attributes
    {[ 1 := [("phoebe:class", "cls"); ("phoebe-class:red", "on")] ]}
    (Host.emptyPage
       (Host.mkState {[ "cls" := VStr "big"; "on" := VBool on ]} ∅ ∅)).

(** No form control is bound on the example pages. *)
Definition noBinding {St : Type} (el : Elem) (expr : option string)
    (sc : scope) : M St unit := ret tt.

(** The [class] attribute of an element of a page. *)
Definition classOf {St : Type} (el : Elem) (w : Page St) : option string :=
  assoc "class" (default [] (attributes w !! el)).

(** ** The reactive state *)

(** What [instanceof] tells apart. *)
Inductive objClass := CObject | CArray | CDate | CRegExp.

(** A heap object: an ordinary object with its own data properties
    (prototypes and accessors are not modelled), or a
    [new Proxy(target, handler)] with the handler of [wrap]. *)
Inductive object :=
| Ordinary (cls : objClass) (props : gmap string value)
| ProxyOf (target : Ref).

Record Reactive := mkReactive {
  heap : gmap Ref object;
  proxies : gmap Ref Ref;
  nextRef : Ref;
  sched : Sched
}.

Definition with_sched (s : Sched) (st : Reactive) : Reactive :=
  mkReactive (heap st) (proxies st) (nextRef st) s.

Definition with_heap (h : gmap Ref object) (st : Reactive) : Reactive :=
  mkReactive h (proxies st) (nextRef st) (sched st).

Definition lookupObj (h : gmap Ref object) (r : Ref) : object :=
  default (Ordinary CObject ∅) (h !! r).

Section ReactiveState.

Variable parentElement : gmap Elem Elem.
Variable rootNode : Elem.

(** The class [instanceof] finds for an object; a proxy without a
    [getPrototypeOf] trap shows the prototype of its target. *)
Fixpoint instanceClass (fuel : nat) (h : gmap Ref object) (r : Ref)
    : option objClass :=
  match lookupObj h r with
  | Ordinary c _ => Some c
  | ProxyOf t =>
    match fuel with
    | O => None
    | Datatypes.S fuel' => instanceClass fuel' h t
    end
  end.

(** [wrap(target)]: make state reactive.  Everything but a reference to a
    heap object is falsy, not of type ["object"] or an [Element], and is
    returned as it is. *)
Definition wrap (fuel : nat) (target : value) (st : Reactive)
    : option (Reactive * value) :=
  match target with
  | VRef r =>
    match instanceClass fuel (heap st) r with
    | None => None
    | Some CDate | Some CRegExp => Some (st, target)
    | Some _ =>
      match proxies st !! r with
      | Some proxy => Some (st, VRef proxy)
      | None =>
        let proxy := nextRef st in
        Some (mkReactive (<[proxy := ProxyOf r]> (heap st))
                         (<[r := proxy]> (proxies st))
                         (Datatypes.S proxy) (sched st),
              VRef proxy)
      end
    end
  | _ => Some (st, target)
  end.

(** [r[key]].  On a proxy this is the [get] trap:
    [const value = Reflect.get(target, key, receiver); return wrap(value)]. *)
Fixpoint obj_get (fuel : nat) (st : Reactive) (r : Ref) (key : string)
    : option (Reactive * value) :=
  match lookupObj (heap st) r with
  | Ordinary _ props => Some (st, default VUndefined (props !! key))
  | ProxyOf target =>
    match fuel with
    | O => None
    | Datatypes.S fuel' =>
      match obj_get fuel' st target key with
      | None => None
      | Some (st1, v) => wrap fuel' v st1
      end
    end
  end.

(** [key in r]; the proxy has no [has] trap. *)
Fixpoint obj_has (fuel : nat) (st : Reactive) (r : Ref) (key : string)
    : option bool :=
  match lookupObj (heap st) r with
  | Ordinary _ props => Some (bool_decide (is_Some (props !! key)))
  | ProxyOf target =>
    match fuel with
    | O => None
    | Datatypes.S fuel' => obj_has fuel' st target key
    end
  end.

(** [renderer.schedule(rootNode)] on the scheduler of the state. *)
Definition scheduleRoot (fuel : nat) (st : Reactive) : option Reactive :=
  match schedule parentElement fuel rootNode (sched st) with
  | None => None
  | Some s => Some (with_sched s st)
  end.

(** [r[key] = v].  On a proxy this is the [set] trap:
    [const old = target[key]; if (old !== value) renderer.schedule(rootNode);
     return Reflect.set(target, key, value, receiver)]. *)
Fixpoint obj_set (fuel : nat) (st : Reactive) (r : Ref) (key : string)
    (v : value) : option Reactive :=
  match lookupObj (heap st) r with
  | Ordinary c props =>
    Some (with_heap (<[r := Ordinary c (<[key := v]> props)]> (heap st)) st)
  | ProxyOf target =>
    match fuel with
    | O => None
    | Datatypes.S fuel' =>
      match obj_get fuel' st target key with
      | None => None
      | Some (st1, old) =>
        match (if strict_neq old v then scheduleRoot fuel' st1
               else Some st1) with
        | None => None
        | Some st2 => obj_set fuel' st2 target key v
        end
      end
    end
  end.

(** [delete r[key]].  On a proxy this is the [deleteProperty] trap:
    [const hadKey = key in target; if (hadKey) renderer.schedule(rootNode);
     return Reflect.deleteProperty(target, key)]. *)
Fixpoint obj_delete (fuel : nat) (st : Reactive) (r : Ref) (key : string)
    : option Reactive :=
  match lookupObj (heap st) r with
  | Ordinary c props =>
    Some (with_heap (<[r := Ordinary c (delete key props)]> (heap st)) st)
  | ProxyOf target =>
    match fuel with
    | O => None
    | Datatypes.S fuel' =>
      match obj_has fuel' st target key with
      | None => None
      | Some hadKey =>
        match (if hadKey then scheduleRoot fuel' st else Some st) with
        | None => None
        | Some st1 => obj_delete fuel' st1 target key
        end
      end
    end
  end.

(** Reading a path [v.k1.k2...] property by property; reading a property
    of something that is not an object ends the walk with [undefined]. *)
Fixpoint readPath (fuel : nat) (st : Reactive) (v : value)
    (keys : list string) : option (Reactive * value) :=
  match keys with
  | [] => Some (st, v)
  | key :: rest =>
    match v with
    | VRef r =>
      match obj_get fuel st r key with
      | None => None
      | Some (st1, v1) => readPath fuel st1 v1 rest
      end
    | _ => Some (st, VUndefined)
    end
  end.

End ReactiveState.

(** The state is well formed when references are allocated below
    [nextRef], a proxy is younger than its target, and the cache maps a
    target to a proxy of that target. *)
Record wellFormed (st : Reactive) : Prop := mkWellFormed {
  wf_fresh : ∀ r, nextRef st ≤ r → heap st !! r = None;
  wf_props : ∀ r c props k r',
      heap st !! r = Some (Ordinary c props) →
      props !! k = Some (VRef r') → r' < nextRef st;
  wf_target : ∀ p t, heap st !! p = Some (ProxyOf t) → t < p;
  wf_cache : ∀ t p, proxies st !! t = Some p →
                    heap st !! p = Some (ProxyOf t)
}.

(** [st2] is [st1] after allocations only. *)
Definition extends (st1 st2 : Reactive) : Prop :=
  nextRef st1 ≤ nextRef st2
  ∧ (∀ r, r < nextRef st1 → heap st2 !! r = heap st1 !! r)
  ∧ (∀ t p, proxies st1 !! t = Some p → proxies st2 !! t = Some p)
  ∧ sched st2 = sched st1.

(** A value that refers to nothing beyond the allocated objects. *)
Definition validValue (st : Reactive) (v : value) : Prop :=
  match v with VRef r => r < nextRef st | _ => True end.


(** Reading the same path [n] times in a row. *)
Fixpoint readTimes (n : nat) (fuel : nat) (st : Reactive) (v : value)
    (keys : list string) : option (Reactive * list value) :=
  match n with
  | O => Some (st, [])
  | Datatypes.S n' =>
    match readPath fuel st v keys with
    | None => None
    | Some (st1, w) =>
      match readTimes n' fuel st1 v keys with
      | None => None
      | Some (st2, ws) => Some (st2, w :: ws)
      end
    end
  end.

(** [wellFormed] as a check over the finite maps of a state. *)
Definition validValueCheck (n : Ref) (v : value) : Prop :=
  match v with VRef r' => r' < n | _ => True end.

Definition objectCheck (n : Ref) (r : Ref) (o : object) : Prop :=
  r < n
  ∧ match o with
    | Ordinary _ props => map_Forall (fun _ v => validValueCheck n v) props
    | ProxyOf t => t < r
    end.

Definition wellFormedCheck (st : Reactive) : Prop :=
  map_Forall (objectCheck (nextRef st)) (heap st)
  ∧ map_Forall (fun t p => heap st !! p = Some (ProxyOf t)) (proxies st).

#[global] Instance objClass_eq_dec : EqDecision objClass.
Proof. solve_decision. Defined.

#[global] Instance object_eq_dec : EqDecision object.
Proof. solve_decision. Defined.

#[global] Instance validValueCheck_dec n v : Decision (validValueCheck n v).
Proof. destruct v; simpl; apply _. Defined.

#[global] Instance objectCheck_dec n r o : Decision (objectCheck n r o).
Proof. unfold objectCheck. destruct o; apply _. Defined.

#[global] Instance wellFormedCheck_dec st : Decision (wellFormedCheck st).
Proof. unfold wellFormedCheck. apply _. Defined.

(** An initial state [{ a: { b: [] }, n: 5, d: new Date() }] at reference
    [0], before [wrap(initialValues)]. *)
Definition exampleValues : Reactive :=
  mkReactive
    {[ 0 := Ordinary CObject {[ "a" := VRef 1; "n" := VNum 5; "d" := VRef 2 ]};
       1 := Ordinary CObject {[ "b" := VRef 3 ]};
       2 := Ordinary CDate ∅;
       3 := Ordinary CArray ∅ ]}
    ∅ 4 idle.

(** The same state once [Phoebe] has wrapped it: [4] is the state proxy. *)
Definition exampleState : Reactive :=
  mkReactive (<[4 := ProxyOf 0]> (heap exampleValues)) {[ 0 := 4 ]} 5 idle.

(** ** Structural elements: their children *)

(** A child node.  What lies below a child is not part of the model. *)
Inductive node :=
| Element (e : Elem)
| Text (s : string)
| Comment.

#[global] Instance node_eq_dec : EqDecision node.
Proof. solve_decision. Defined.

(** The children of a structural element, and for the [<template>]
    elements among them the [data-phoebe-role] and the nodes of the
    content fragment. *)
Record Children := mkChildren {
  childNodes : list node;
  templates : gmap Elem (string * list node)
}.

(** [this.firstChild?.dataset?.phoebeRole] *)
Definition firstChildRole (c : Children) : option string :=
  match childNodes c with
  | Element t :: _ => fst <$> templates c !! t
  | _ => None
  end.

(** [this.firstChild], which the [render] methods take for the template. *)
Definition firstChildTemplate (c : Children) : option (Elem * list node) :=
  match childNodes c with
  | Element t :: _ =>
    Some (t, match templates c !! t with
             | Some (_, content) => content
             | None => []
             end)
  | _ => None
  end.

(** [fragment.firstElementChild] *)
Fixpoint firstElementChild (l : list node) : option Elem :=
  match l with
  | [] => None
  | Element e :: _ => Some e
  | _ :: rest => firstElementChild rest
  end.

(** [e.nextElementSibling] among the children [l]. *)
Fixpoint nextElementSibling (e : Elem) (l : list node) : option Elem :=
  match l with
  | [] => None
  | n :: rest =>
    if bool_decide (n = Element e) then firstElementChild rest
    else nextElementSibling e rest
  end.

(** [e.remove()] *)
Definition removeChild (e : Elem) (l : list node) : list node :=
  List.filter (fun n => negb (bool_decide (n = Element e))) l.

Fixpoint insertAt (newNode ref : Elem) (l : list node) : list node :=
  match l with
  | [] => []
  | n :: rest =>
    if bool_decide (n = Element ref) then Element newNode :: n :: rest
    else n :: insertAt newNode ref rest
  end.

(** [this.insertBefore(newNode, ref)] on the children [l] of [this]: a
    reference that is not a child is a [NotFoundError]; the node is taken
    out of its old place first; inserting a node before itself leaves it
    where it is. *)
Definition insertBefore (newNode : Elem) (ref : option Elem) (l : list node)
    : result (list node) :=
  match ref with
  | None => Ok (removeChild newNode l ++ [Element newNode])
  | Some r =>
    if negb (bool_decide (Element r ∈ l)) then Throw NotFoundError
    else if bool_decide (r = newNode) then Ok l
    else Ok (insertAt newNode r (removeChild newNode l))
  end.

(** ** [<phoebe-for>] *)

Module PhoebeFor.

(** [this.childNodes] with the templates, and the private [#keyElements]. *)
Record ForEl := mkForEl {
  children : Children;
  keyElements : option (list (value * option Elem))
}.

(** [Map.prototype.get], [has], [set] and [delete] on the entries in
    insertion order. *)
Fixpoint map_get (key : value) (m : list (value * option Elem))
    : option (option Elem) :=
  match m with
  | [] => None
  | (k, el) :: rest => if bool_decide (k = key) then Some el else map_get key rest
  end.

Fixpoint map_set (key : value) (el : option Elem)
    (m : list (value * option Elem)) : list (value * option Elem) :=
  match m with
  | [] => [(key, el)]
  | (k, x) :: rest =>
    if bool_decide (k = key) then (k, el) :: rest
    else (k, x) :: map_set key el rest
  end.

Definition map_delete (key : value) (m : list (value * option Elem))
    : list (value * option Elem) :=
  List.filter (fun kv => negb (bool_decide (fst kv = key))) m.

(** [visitedKeys.add(key)] *)
Definition set_add_value (key : value) (s : list value) : list value :=
  if bool_decide (key ∈ s) then s else s ++ [key].

(** [visitedKeys.has(key)] *)
Definition set_has (key : value) (s : list value) : bool :=
  bool_decide (key ∈ s).

(** The getter [hasExactlyOneChild]. *)
Fixpoint hasExactlyOneChild_from (foundOne : bool) (nodes : list node) : bool :=
  match nodes with
  | [] => foundOne
  | n :: rest =>
    if match n with
       | Element _ => true
       | Text s => negb (String.eqb s "") && negb (String.eqb (trim s) "")
       | Comment => false
       end
    then (if foundOne then false else hasExactlyOneChild_from true rest)
    else hasExactlyOneChild_from foundOne rest
  end.

Definition hasExactlyOneChild (c : Children) : bool :=
  hasExactlyOneChild_from false (childNodes c).

(** The getter [isInitDone]. *)
Definition isInitDone (c : Children) : bool :=
  bool_decide (firstChildRole c = Some "for").

(** [const ctx = {}; if (varName) ctx[varName] = item;
     if (indexName) ctx[indexName] = index] *)
Definition loopContext (varName indexName : option string) (item : value)
    (index : nat) : scope :=
  let ctx : scope := ∅ in
  let ctx := if attr_truthy varName then <[attr_str varName := item]> ctx
             else ctx in
  if attr_truthy indexName
  then <[attr_str indexName := VNum (Z.of_nat index)]> ctx
  else ctx.

(** The local variables of the keyed loop. *)
Record keyedLoop := mkKeyed {
  k_nodes : list node;
  k_keyElements : list (value * option Elem);
  k_visitedKeys : list value;
  k_currentEl : option Elem
}.

(** The local variables of the loop without keys. *)
Record plainLoop := mkPlain {
  p_nodes : list node;
  p_currentEl : option Elem
}.

Section Render.

Context {St : Type}.
Variable newFunction : list string → string → result (@compiled St).

(** [for (const item of v)]: the items an iterable yields, or nothing when
    [typeof v[Symbol.iterator] !== 'function']. *)
Variable iterate : St → value → option (list value).

Definition lift {A} (r : result A) : M St A := fun w => (w, r).

(** [template.content.cloneNode(true)].firstElementChild: a fresh element
    when the content has an element child. *)
Definition cloneFirstElement (content : list node) : M St (option Elem) :=
  match firstElementChild content with
  | Some _ => let! e := fresh_elem in ret (Some e)
  | None => ret None
  end.

(** [this.insertBefore(el, ref)], where [el] may be [null]. *)
Definition insertBeforeOrNull (el : option Elem) (ref : option Elem)
    (l : list node) : M St (list node) :=
  match el with
  | None => throw (TypeError "parameter 1 is not of type 'Node'")
  | Some e => lift (insertBefore e ref l)
  end.

(** The first part of [render]: capturing the children in a template.
    The [<div>] that wraps several children counts as one new element; the
    inline [display] style is not part of the model. *)
Definition init (this : Elem) (c : Children) : M St Children :=
  if isInitDone c then ret c
  else
    let! template := fresh_elem in
    let! nodes :=
      if negb (hasExactlyOneChild c) then
        console_log LDebug
          "Phoebe.js: <phoebe-for> should have exactly one child element." ;;;
        let! div := fresh_elem in
        ret [Element div]
      else ret (childNodes c) in
    ret (mkChildren [Element template]
                    (<[template := ("for", nodes)]> (templates c))).

(** Making [iterObj] iterable. *)
Definition ensureIterable (iterObj : value) : M St (list value) :=
  match iterObj with
  | VNum n =>
    if (0 <=? n)%Z then
      if (n <=? 4294967295)%Z then
        ret (map (fun i => VNum (Z.of_nat i)) (seq 0 (Z.to_nat n)))
      else throw (RangeError "Invalid array length")
    else
      console_log LWarn
        "Phoebe.js: <phoebe-for> attribute in cannot be a negative number:" ;;;
      ret []
  | VNaN =>
    console_log LWarn
      "Phoebe.js: <phoebe-for> attribute in cannot be a negative number:" ;;;
    ret []
  | _ =>
    fun w =>
      match (match iterObj with
             | VNull | VUndefined => None
             | _ => iterate (ambient w) iterObj
             end) with
      | Some items => (w, Ok items)
      | None =>
        (console_log LWarn
           "Phoebe.js: <phoebe-for> attribute in expects an iterable" ;;;
         ret []) w
      end
  end.

(** The warnings about a key. *)
Definition checkKey (key : value) (visitedKeys : list value) : M St unit :=
  if match key with VStr _ | VNum _ => false | _ => true end then
    console_log LWarn
      "Phoebe.js: the key for a <phoebe-for> loop should be a unique string or number."
  else if set_has key visitedKeys then
    console_log LWarn "Phoebe.js: found duplicated key"
  else ret tt.

(** The body of [for (const item of iterObj)] in the keyed loop. *)
Definition keyedStep (this : Elem) (varName indexName keyExpr : option string)
    (scope : scope) (content : list node) (item : value) (index : nat)
    (s : keyedLoop) : M St keyedLoop :=
  let ctx := loopContext varName indexName item index in
  let! key := js_get newFunction (attr_str keyExpr) (spread scope ctx) this in
  checkKey key (k_visitedKeys s) ;;;
  let visitedKeys := set_add_value key (k_visitedKeys s) in
  let ref := match k_currentEl s with
             | Some cur => nextElementSibling cur (k_nodes s)
             | None => None
             end in
  match map_get key (k_keyElements s) with
  | Some keyEl =>
    let! nodes :=
      if negb (bool_decide (is_Some (k_currentEl s)))
         || negb (bool_decide (keyEl = k_currentEl s))
      then insertBeforeOrNull keyEl ref (k_nodes s)
      else ret (k_nodes s) in
    match keyEl with
    | None => throw (TypeError "Invalid value used as weak map key")
    | Some el =>
      modify_reg (set_loopContextValue ctx) el ;;;
      ret (mkKeyed nodes (k_keyElements s) visitedKeys
                   (nextElementSibling el nodes))
    end
  | None =>
    let! newEl := cloneFirstElement content in
    let keyEls := map_set key newEl (k_keyElements s) in
    let! nodes := insertBeforeOrNull newEl ref (k_nodes s) in
    match newEl with
    | None => throw (TypeError "Invalid value used as weak map key")
    | Some el =>
      modify_reg (set_loopContextValue ctx) el ;;;
      ret (mkKeyed nodes keyEls visitedKeys (nextElementSibling el nodes))
    end
  end.

(** [for (const item of iterObj) { ...; index++ }] in the keyed loop, over
    the items that are left. *)
Fixpoint keyedItems (this : Elem) (varName indexName keyExpr : option string)
    (scope : scope) (content : list node) (items : list value) (index : nat)
    (s : keyedLoop) : M St keyedLoop :=
  match items with
  | [] => ret s
  | item :: rest =>
    let! s' := keyedStep this varName indexName keyExpr scope content item
                 index s in
    keyedItems this varName indexName keyExpr scope content rest
      (Datatypes.S index) s'
  end.

(** [for (const [key, el] of this.#keyElements)
       if (!visitedKeys.has(key)) { el.remove(); this.#keyElements.delete(key) }]
    over the entries that are left. *)
Fixpoint pruneKeyed (entries : list (value * option Elem))
    (visitedKeys : list value) (nodes : list node)
    (keyEls : list (value * option Elem))
    : M St (list node * list (value * option Elem)) :=
  match entries with
  | [] => ret (nodes, keyEls)
  | (key, el) :: rest =>
    if negb (set_has key visitedKeys) then
      match el with
      | None => throw (TypeError "Cannot read properties of null")
      | Some e =>
        pruneKeyed rest visitedKeys (removeChild e nodes)
                   (map_delete key keyEls)
      end
    else pruneKeyed rest visitedKeys nodes keyEls
  end.

(** The body of [for (const item of iterObj)] in the loop without keys. *)
Fixpoint plainItems (this : Elem) (varName indexName : option string)
    (content : list node) (items : list value) (index : nat) (s : plainLoop)
    : M St plainLoop :=
  match items with
  | [] => ret s
  | item :: rest =>
    let ctx := loopContext varName indexName item index in
    let! s' :=
      match p_currentEl s with
      | None =>
        let! newEl := cloneFirstElement content in
        let! nodes := insertBeforeOrNull newEl None (p_nodes s) in
        match newEl with
        | None => throw (TypeError "Invalid value used as weak map key")
        | Some el =>
          modify_reg (set_loopContextValue ctx) el ;;;
          ret (mkPlain nodes None)
        end
      | Some existingEl =>
        modify_reg (set_loopContextValue ctx) existingEl ;;;
        ret (mkPlain (p_nodes s) (nextElementSibling existingEl (p_nodes s)))
      end in
    plainItems this varName indexName content rest (Datatypes.S index) s'
  end.

(** [while (currentEl) { const nextEl = currentEl.nextElementSibling;
      currentEl.remove(); currentEl = nextEl }], at most [n] turns. *)
Fixpoint prunePlain (n : nat) (currentEl : option Elem) (nodes : list node)
    : M St (list node) :=
  match currentEl with
  | None => ret nodes
  | Some cur =>
    match n with
    | O => out_of_fuel
    | Datatypes.S n' =>
      prunePlain n' (nextElementSibling cur nodes) (removeChild cur nodes)
    end
  end.

(** [render(scope)].  The children and the key index of [this] go in and
    come out; a pass that throws is not followed further. *)
Definition render (this : Elem) (scope : scope) (el : ForEl) : M St ForEl :=
  let! c := init this (children el) in
  match firstChildTemplate c with
  | None => throw (TypeError "Cannot read properties of null")
  | Some (template, content) =>
    let! varName := getAttribute this "var" in
    let! iterExpr := getAttribute this "in" in
    let! indexName := getAttribute this "index" in
    let! isKeyedLoop := hasAttribute this "key" in
    let! iterObj := js_get newFunction (attr_str iterExpr) scope this in
    let! items := ensureIterable iterObj in
    if isKeyedLoop then
      let keyEls := default [] (keyElements el) in
      let! keyExpr := getAttribute this "key" in
      let! s := keyedItems this varName indexName keyExpr scope content items 0
                  (mkKeyed (childNodes c) keyEls []
                           (nextElementSibling template (childNodes c))) in
      let! (nodes, keyEls') :=
        pruneKeyed (k_keyElements s) (k_visitedKeys s) (k_nodes s)
                   (k_keyElements s) in
      ret (mkForEl (mkChildren nodes (templates c)) (Some keyEls'))
    else
      let! s := plainItems this varName indexName content items 0
                  (mkPlain (childNodes c)
                           (nextElementSibling template (childNodes c))) in
      let! nodes := prunePlain (Datatypes.S (length (p_nodes s)))
                      (p_currentEl s) (p_nodes s) in
      ret (mkForEl (mkChildren nodes (templates c)) (keyElements el))
  end.

End Render.

End PhoebeFor.

(** ** Example loops *)

(** [<phoebe-for var="x" in="xs" index="i"> <li>...</li> </phoebe-for>] as
    element [1]; new elements are numbered from [100]. *)
Definition loopPage (xs : list value) : Page Host.state :=
  with_nextElem 100
    (with_attributes {[ 1 := [("var", "x"); ("in", "xs"); ("index", "i")] ]}
       (Host.emptyPage
          (Host.mkState {[ "xs" := VRef 0 ]} ∅ {[ 0 := xs ]}))).

Definition loopEl : PhoebeFor.ForEl :=
  PhoebeFor.mkForEl
    (mkChildren [Text " "; Element 50; Text " "] ∅) None.

(** The items [{id:1,v:'a'}], [{id:2,v:'b'}] and [{id:2,v:'c'}] as objects
    [1], [2] and [3] of the state, and the array [items] as object [0]. *)
Definition keyedState (items : list value) : Host.state :=
  Host.mkState {[ "items" := VRef 0 ]}
    {[ 1 := {[ "id" := VNum 1; "v" := VStr "a" ]};
       2 := {[ "id" := VNum 2; "v" := VStr "b" ]};
       3 := {[ "id" := VNum 2; "v" := VStr "c" ]} ]}
    {[ 0 := items ]}.

(** [<phoebe-for var="item" in="items" key="item.id">] as element [1]. *)
Definition keyedPage (items : list value) : Page Host.state :=
  with_nextElem 100
    (with_attributes
       {[ 1 := [("var", "item"); ("in", "items"); ("key", "item.id")] ]}
       (Host.emptyPage (keyedState items))).

(** Rendering the loop [1] of a page, then again after the state changed
    to [s2]. *)
Definition renderTwice (w : Page Host.state) (s2 : Host.state)
    (el : PhoebeFor.ForEl)
    : (Page Host.state * result PhoebeFor.ForEl)
      * (Page Host.state * result PhoebeFor.ForEl) :=
  let r1 := PhoebeFor.render Host.newFunction Host.iterate 1 ∅ el w in
  (r1,
   match snd r1 with
   | Ok el1 =>
     PhoebeFor.render Host.newFunction Host.iterate 1 ∅ el1
       (with_ambient s2 (fst r1))
   | _ => r1
   end).

(** ** [<phoebe-if>] *)

Module PhoebeIf.
Section Render.

Context {St : Type}.
Variable newFunction : list string → string → result (@compiled St).

(** [while (template.nextSibling)
      template.content.appendChild(template.nextSibling)], over the
    siblings that are left. *)
Fixpoint moveSiblings (siblings content : list node) : list node :=
  match siblings with
  | [] => content
  | n :: rest => moveSiblings rest (content ++ [n])
  end.

(** [render(scope)]; the inline [display] style set by the first render is
    not part of the model. *)
Definition render (this : Elem) (scope : scope) (c : Children)
    : M St Children :=
  let! (isInitRender, c) :=
    if negb (bool_decide (firstChildRole c = Some "if")) then
      let! template := fresh_elem in
      ret (true, mkChildren [Element template]
                            (<[template := ("if", childNodes c)]> (templates c)))
    else ret (false, c) in
  match firstChildTemplate c with
  | None => throw (TypeError "Cannot read properties of null")
  | Some (template, content) =>
    let! guard := getAttribute this "if" in
    let! v := js_get newFunction (attr_str guard) scope this in
    let shouldShow := truthy v in
    let isShowing := length content =? 0 in
    if shouldShow && negb isShowing then
      let c' := mkChildren (Element template :: content)
                           (<[template := ("if", [])]> (templates c)) in
      (if negb isInitRender then dispatchEvent this "true" else ret tt) ;;;
      ret c'
    else if negb shouldShow && isShowing then
      let c' := mkChildren [Element template]
                  (<[template := ("if", moveSiblings (tail (childNodes c))
                                                     content)]>
                     (templates c)) in
      (if negb isInitRender then dispatchEvent this "false" else ret tt) ;;;
      ret c'
    else ret c
  end.

End Render.



End PhoebeIf.



(** The action [m] runs past the update [f] of the page: it does the same
    before and after it. *)
Definition runsPast {St A} (f : Page St → Page St) (m : M St A) : Prop :=
  ∀ w, m (f w) = (f (fst (m w)), snd (m w)).






(** The registry after [registry(el).loopContextValue = ctx] for the
    elements [els] and the contexts of [items], counted from [index]. *)
Fixpoint assignContexts (varName indexName : option string)
    (els : list Elem) (items : list value) (index : nat)
    (rg : gmap Elem regEntry) : gmap Elem regEntry :=
  match els, items with
  | e :: els', item :: items' =>
    assignContexts varName indexName els' items' (Datatypes.S index)
      (reg_update
         (set_loopContextValue
            (PhoebeFor.loopContext varName indexName item index)) e rg)
  | _, _ => rg
  end.


(** The example state with [NaN] stored under [n]. *)
Definition nanState : Reactive :=
  mkReactive
    (<[0 := Ordinary CObject {[ "a" := VRef 1; "n" := VNaN ]}]>
       (heap exampleState))
    (proxies exampleState) (nextRef exampleState) idle.

(** [<phoebe-for var="item" in="items">] as element [1] under the root [0];
    inside each item the template holds
    [<phoebe-with var="item" is="label"> <span> </span> </phoebe-with>].
    With one item the loop renders the item element [101]; [3] and [4] are
    the [<phoebe-with>] and the [<span>] inside it. *)
Definition renderedTree : gmap Elem Elem :=
  {[ 1 := 0; 101 := 1; 3 := 101; 4 := 3 ]}.

Definition renderedPage : Page Host.state :=
  with_nextElem 100
    (with_attributes
       {[ 1 := [("var", "item"); ("in", "items")];
          3 := [("var", "item"); ("is", "label")] ]}
       (Host.emptyPage
          (Host.mkState {[ "items" := VRef 0; "label" := VStr "with" ]} ∅
                        {[ 0 := [VStr "loop"] ]}))).

(** The render pass over the loop [1] and the scoped variable [3]. *)
Definition renderedPass : M Host.state unit :=
  processElement Host.newFunction renderedTree 0 noBinding 8
    (Some (fun sc =>
             PhoebeFor.render Host.newFunction Host.iterate 1 sc loopEl ;;;
             ret tt)) 1 ;;;
  processElement Host.newFunction renderedTree 0 noBinding 8
    (Some (PhoebeWith.render Host.newFunction 3)) 3.

(** An element [1] under the root [0] with the given directives, and
    [t] set to ["hi"] in the state. *)
Definition directivePage (attrs : list (string * string)) : Page Host.state :=
  with_attributes {[ 1 := attrs ]}
    (Host.emptyPage (Host.mkState {[ "t" := VStr "hi" ]} ∅ ∅)).

(** The listeners attached to [el] for the event [ev]. *)
Definition listenersFor {St : Type} (el : Elem) (ev : string) (w : Page St)
    : list listener :=
  List.filter (fun l : listener =>
                 bool_decide (fst (fst l) = el) && String.eqb (snd (fst l)) ev)
              (listeners w).

(** [registry(el).boundEvents?.has(ev)] *)
Definition isBound {St : Type} (el : Elem) (ev : string) (w : Page St) : bool :=
  existsb (String.eqb ev) (default [] (boundEvents (registry (reg w) el))).

(** Every listener was attached for an event recorded as bound, and every
    bound event has exactly one. *)
Definition oneListenerPerEvent {St : Type} (w : Page St) : Prop :=
  ∀ el ev, length (listenersFor el ev w) = if isBound el ev w then 1 else 0.

(** [phoebe:on...] directives applied one after the other, as the renders
    of a page apply them. *)
Definition handleEvents {St : Type} (calls : list (Elem * string * string))
    : M St unit :=
  forEach (fun c : Elem * string * string =>
             handleEvent (fst (fst c)) (snd (fst c)) (snd c)) calls.

(** The attribute [name] of the element [el] of a page. *)
Definition attributeOf {St : Type} (el : Elem) (name : string) (w : Page St)
    : option string :=
  assoc name (default [] (attributes w !! el)).

(** The [style] attribute that [handleAttribute] builds from the style it
    recorded and the computed one; [None] when it removes the attribute. *)
Definition composedStyle (original computed : string) : option string :=
  if (0 <? String.length computed) || (0 <? String.length original) then
    Some ((if (0 <? String.length original) && (0 <? String.length computed)
              && negb (endsWithSemicolon original)
           then original +:+ ";" else original) +:+ computed)
  else None.

(** The [class] attribute that [handleAttribute] builds from the class it
    recorded and the value of the snippet. *)
Definition composedClass (original : string) (v : value) : string :=
  trim (original +:+ " " +:+ toStringOrEmpty v).

(** The test of the getter [hasExactlyOneChild] on one child node: an
    element, or a text node that is not blank. *)
Definition significant (n : node) : bool :=
  match n with
  | Element _ => true
  | Text s => negb (String.eqb s "") && negb (String.eqb (trim s) "")
  | Comment => false
  end.

(** ** The renderer: walking the tree *)

Section TraverseDom.

(** The document, as a render pass reads and changes it. *)
Context {D : Type}.

(** [el.children]: the element children of [el] in document order, from
    which [lastElementChild] and [previousElementSibling] read. *)
Variable elementChildren : D → Elem → list Elem.

(** [el.isConnected] *)
Variable isConnected : D → Elem → bool.

Variable callback : Elem → D → D * result unit.

(** [let child = el.lastElementChild;
     while (child instanceof Element) {
       stack.push(child); child = child.previousElementSibling }]:
    the stack after the loop, its top first. *)
Definition pushChildren (d : D) (el : Elem) (stack : list Elem) : list Elem :=
  foldl (fun stack child => child :: stack) stack (rev (elementChildren d el)).

(** [while (stack.length > 0) { const el = stack.pop(); callback(el); ... }],
    one unit of fuel per turn.  The stack is held top first; it holds
    elements only, so the [instanceof Element] test never skips one. *)
Fixpoint traverseLoop (fuel : nat) (stack : list Elem) (d : D)
    : D * result unit :=
  match stack with
  | [] => (d, Ok tt)
  | el :: stack' =>
    match fuel with
    | O => (d, OutOfFuel)
    | Datatypes.S fuel' =>
      match callback el d with
      | (d1, Ok _) => traverseLoop fuel' (pushChildren d1 el stack') d1
      | (d1, Throw e) => (d1, Throw e)
      | (d1, OutOfFuel) => (d1, OutOfFuel)
      end
    end
  end.

(** [traverseDom(root, callback)] *)
Definition traverseDom (fuel : nat) (root : option Elem) (d : D)
    : D * result unit :=
  match root with
  | None => (d, Ok tt)
  | Some r => traverseLoop fuel [r] d
  end.

(** [renderTree(el)], with [processElement] as the callback. *)
Definition renderTree (fuel : nat) (el : Elem) (d : D) : D * result unit :=
  if isConnected d el then traverseDom fuel (Some el) d else (d, Ok tt).

(** The callback on the elements of a list, one after the other, up to
    the first that does not return. *)
Fixpoint visitAll (els : list Elem) (d : D) : D * result unit :=
  match els with
  | [] => (d, Ok tt)
  | el :: rest =>
    match callback el d with
    | (d1, Ok _) => visitAll rest d1
    | r => r
    end
  end.

End TraverseDom.

(** A tree of elements. *)
#[warnings="-register-all"]
Inductive dom := Node (el : Elem) (kids : list dom).

Definition rootOf (t : dom) : Elem := match t with Node el _ => el end.

(** The elements of a tree in document order. *)
Fixpoint preorder (t : dom) : list Elem :=
  match t with Node el kids => el :: flat_map preorder kids end.

(** The number of elements of a tree. *)
Fixpoint elementCount (t : dom) : nat :=
  match t with Node _ kids => Datatypes.S (list_sum (map elementCount kids)) end.

(** The tree is what the children of the elements show below its root. *)
Fixpoint describes (children : Elem → list Elem) (t : dom) : Prop :=
  match t with
  | Node el kids =>
    children el = map rootOf kids
    ∧ fold_right (fun k rest => describes children k ∧ rest) True kids
  end.

(** A document for examples: the element children of each element, and
    the elements visited so far. *)
Record Visits := mkVisits {
  kidsOf : gmap Elem (list Elem);
  visited : list Elem
}.

(** A callback that records its element; it throws on the element
    [bad]. *)
Definition recordVisit (bad : option Elem) (el : Elem) (d : Visits)
    : Visits * result unit :=
  if bool_decide (bad = Some el) then (d, Throw (Thrown (VElem el)))
  else (mkVisits (kidsOf d) (visited d ++ [el]), Ok tt).

(** The example tree as a document: [0] is the root, [1] and [2] are its
    children, [3] is a child of [1] and [4] a child of [3]. *)
Definition exampleDocument : Visits :=
  mkVisits {[ 0 := [1; 2]; 1 := [3]; 3 := [4] ]} [].

Definition exampleDom : dom :=
  Node 0 [Node 1 [Node 3 [Node 4 []]]; Node 2 []].

(** ** [<phoebe-text>] *)

Module PhoebeText.

(** What [render] reads and writes of the element besides its
    attributes: [this.textContent] and [this.childElementCount]. *)
Record TextEl := mkTextEl {
  textContent : string;
  childElementCount : nat
}.

(** [s.includes('`')] *)
Fixpoint includesBacktick (s : string) : bool :=
  match s with
  | EmptyString => false
  | String c rest => Ascii.eqb c "`"%char || includesBacktick rest
  end.

(** [s.replace(/`/g, '')] *)
Fixpoint removeBackticks (s : string) : string :=
  match s with
  | EmptyString => EmptyString
  | String c rest =>
    if Ascii.eqb c "`"%char then removeBackticks rest
    else String c (removeBackticks rest)
  end.

Section Render.

Context {St : Type}.
Variable newFunction : list string → string → result (@compiled St).

(** The first part of [render]: [this.dataset.textTemplate], which is the
    attribute [data-text-template], is set from the text of the element.
    Setting [textContent] removes the children; the inline [display]
    style is not part of the model. *)
Definition init (this : Elem) (el : TextEl) : M St TextEl :=
  (if 0 <? childElementCount el then
     console_log LWarn
       "Phoebe.js: <phoebe-text> should only contain text, not other elements"
   else ret tt) ;;;
  let templateExpr := trim (textContent el) in
  let! templateExpr :=
    if includesBacktick templateExpr then
      console_log LWarn "Phoebe.js: <phoebe-text> may not include backticks:" ;;;
      ret (removeBackticks templateExpr)
    else ret templateExpr in
  setAttribute this "data-text-template" ("`" +:+ templateExpr +:+ "`") ;;;
  ret (mkTextEl "" 0).

(** [render(scope)] *)
Definition render (this : Elem) (scope : scope) (el : TextEl) : M St TextEl :=
  let! textTemplate := getAttribute this "data-text-template" in
  let! el :=
    match textTemplate with
    | None => init this el
    | Some _ => ret el
    end in
  let! textTemplate := getAttribute this "data-text-template" in
  let! v := js_get newFunction (attr_str textTemplate) scope this in
  ret (mkTextEl (toStringOrEmpty v) 0).

End Render.

End PhoebeText.

(** ** [<phoebe-timer>] *)

(** [s.endsWith(suf)] *)
Definition endsWith (suf s : string) : bool :=
  (String.length suf <=? String.length s)
  && String.eqb (String.substring (String.length s - String.length suf)
                                  (String.length suf) s) suf.

Module PhoebeTimer.

Section Timer.

(** Numbers as [parseFloat] returns them, with [NaN], and the product
    [interval * 1000]: the host's. *)
Variable num : Type.
Variable zero : num.
Variable parseFloat : string → num.
Variable isNaN : num → bool.
Variable times1000 : num → num.

(** The private fields [#handle], [#shouldRun], [#scope], [#expr] and
    [#interval]. *)
Record TimerEl := mkTimer {
  handle : option nat;
  shouldRun : bool;
  timerScope : scope;
  timerExpr : string;
  interval : num
}.

(** A new [<phoebe-timer>]. *)
Definition newTimer : TimerEl := mkTimer None false ∅ "" zero.

(** The intervals of the window: the id that [setInterval] hands out
    next, and the intervals that run, each with its delay. *)
Record Window := mkWindow {
  nextId : nat;
  running : list (nat * num)
}.

(** The element, the window, and the set of the renderer. *)
Record State := mkState {
  timer : TimerEl;
  window : Window;
  queue : Sched
}.

(** [window.setInterval(callback, delay)] *)
Definition setInterval (delay : num) (win : Window) : nat * Window :=
  (nextId win, mkWindow (Datatypes.S (nextId win))
                        (running win ++ [(nextId win, delay)])).

(** [window.clearInterval(handle)]; [undefined] clears nothing. *)
Definition clearInterval (h : option nat) (win : Window) : Window :=
  match h with
  | None => win
  | Some id =>
    mkWindow (nextId win)
             (List.filter (fun r => negb (bool_decide (fst r = id)))
                          (running win))
  end.

Context {St : Type}.
Variable newFunction : list string → string → result (@compiled St).
Variable parentElement : gmap Elem Elem.

(** [connectedCallback()] *)
Definition connectedCallback (fuel : nat) (this : Elem) (s : State)
    : M St State :=
  let! expr := getAttribute this "do" in
  let! every := getAttribute this "every" in
  let intervalStr := trim (default "" every) in
  let interval := parseFloat intervalStr in
  if attr_truthy expr && negb (isNaN interval)
     && (endsWith "ms" intervalStr || endsWith "s" intervalStr) then
    let isSeconds := negb (endsWith "ms" intervalStr) in
    let el := mkTimer (handle (timer s)) true (timerScope (timer s))
                      (attr_str expr)
                      (if isSeconds then times1000 interval else interval) in
    match schedule parentElement fuel this (queue s) with
    | None => out_of_fuel
    | Some q => ret (mkState el (window s) q)
    end
  else
    console_log LWarn
      "Phoebe.js: <phoebe-timer> attributes do and every are required" ;;;
    ret s.

(** [disconnectedCallback()] *)
Definition disconnectedCallback (s : State) : State :=
  mkState (mkTimer None false (timerScope (timer s)) (timerExpr (timer s))
                   (interval (timer s)))
          (clearInterval (handle (timer s)) (window s))
          (queue s).

(** [render(scope)] *)
Definition render (scope : scope) (s : State) : State :=
  let el := mkTimer (handle (timer s)) (shouldRun (timer s)) scope
                    (timerExpr (timer s)) (interval (timer s)) in
  if shouldRun el && negb (bool_decide (is_Some (handle el))) then
    let '(id, win) := setInterval (interval el) (window s) in
    mkState (mkTimer (Some id) false scope (timerExpr el) (interval el))
            win (queue s)
  else mkState el (window s) (queue s).

(** The callback of the interval: [js.exec(this.#expr, this.#scope, this)]. *)
Definition tick (this : Elem) (s : State) : M St unit :=
  js_exec newFunction (timerExpr (timer s)) (timerScope (timer s)) this.

(** What happens to the element. *)
Inductive event :=
| Connect
| Disconnect
| Render (scope : scope).

Definition step (fuel : nat) (this : Elem) (e : event) (s : State)
    : M St State :=
  match e with
  | Connect => connectedCallback fuel this s
  | Disconnect => ret (disconnectedCallback s)
  | Render scope => ret (render scope s)
  end.

Fixpoint run (fuel : nat) (this : Elem) (events : list event) (s : State)
    : M St State :=
  match events with
  | [] => ret s
  | e :: rest => let! s' := step fuel this e s in run fuel this rest s'
  end.

(** What the element keeps true of the window [win0] it started in: the
    intervals of [win0] run on, and besides them runs at most the one
    interval whose id the element holds. *)
Definition ownsAtMostOne (win0 : Window) (s : State) : Prop :=
  nextId win0 ≤ nextId (window s)
  ∧ match handle (timer s) with
    | Some id =>
      nextId win0 ≤ id < nextId (window s)
      ∧ ∃ delay, running (window s) = running win0 ++ [(id, delay)]
    | None => running (window s) = running win0
    end.

End Timer.

End PhoebeTimer.

(** Numbers for examples: integers, or [None] for [NaN]; a [parseFloat]
    that reads the delays [2s] and [500ms]. *)
Definition exampleParseFloat (s : string) : option Z :=
  if String.prefix "2" s then Some 2%Z
  else if String.prefix "500" s then Some 500%Z
  else None.

(** [<phoebe-timer do="tick" every="2s">] as element [1] under the root
    [0]. *)
Definition timerPage : Page Host.state :=
  with_attributes {[ 1 := [("do", "tick"); ("every", "2s")] ]}
    (Host.emptyPage Host.emptyState).

(** ** [<phoebe-for>]: leaving and entering the document *)

Module PhoebeForCleanup.

(** The timeouts of the window: the id that [setTimeout] hands out next,
    and the ids of the callbacks that wait. *)
Record Timeouts := mkTimeouts {
  nextTimeout : nat;
  waiting : list nat
}.

(** The loop element: its children and key index, the private
    [#cleanupTimeoutHandle], and [this.isConnected]. *)
Record Life := mkLife {
  forEl : PhoebeFor.ForEl;
  cleanupTimeoutHandle : option nat;
  isConnected : bool;
  timeouts : Timeouts
}.

(** [clearTimeout(id)] *)
Definition clearTimeout (id : nat) (t : Timeouts) : Timeouts :=
  mkTimeouts (nextTimeout t)
             (List.filter (fun i => negb (i =? id)) (waiting t)).

(** [setTimeout(callback, 0)] *)
Definition setTimeout (t : Timeouts) : nat * Timeouts :=
  (nextTimeout t,
   mkTimeouts (Datatypes.S (nextTimeout t)) (waiting t ++ [nextTimeout t])).

(** [connectedCallback()]; [if (this.#cleanupTimeoutHandle)] is false for
    [null] and for the number [0]. *)
Definition connectedCallback (s : Life) : Life :=
  match cleanupTimeoutHandle s with
  | Some id =>
    if negb (id =? 0) then
      mkLife (forEl s) None (isConnected s) (clearTimeout id (timeouts s))
    else s
  | None => s
  end.

(** [disconnectedCallback()] *)
Definition disconnectedCallback (s : Life) : Life :=
  let '(id, t) := setTimeout (timeouts s) in
  mkLife (forEl s) (Some id) (isConnected s) t.

(** The callback handed to [setTimeout]:
    [if (!this.isConnected && this.isInitDone) {
       this.replaceChildren(this.firstChild); this.#keyElements = undefined }] *)
Definition cleanup (s : Life) : Life :=
  if negb (isConnected s)
     && PhoebeFor.isInitDone (PhoebeFor.children (forEl s)) then
    mkLife (PhoebeFor.mkForEl
              (mkChildren (take 1 (childNodes (PhoebeFor.children (forEl s))))
                          (templates (PhoebeFor.children (forEl s))))
              None)
           (cleanupTimeoutHandle s) (isConnected s) (timeouts s)
  else s.

(** The element enters the document. *)
Definition connect (s : Life) : Life :=
  connectedCallback
    (mkLife (forEl s) (cleanupTimeoutHandle s) true (timeouts s)).

(** The element leaves the document. *)
Definition disconnect (s : Life) : Life :=
  disconnectedCallback
    (mkLife (forEl s) (cleanupTimeoutHandle s) false (timeouts s)).

(** The timeout [id] fires, if it still waits. *)
Definition fireTimeout (id : nat) (s : Life) : Life :=
  if bool_decide (id ∈ waiting (timeouts s)) then
    cleanup (mkLife (forEl s) (cleanupTimeoutHandle s) (isConnected s)
                    (clearTimeout id (timeouts s)))
  else s.

End PhoebeForCleanup.

(** A rendered keyed loop in the document: the template [100] and the
    item elements [101] and [102]. *)
Definition renderedLoop : PhoebeForCleanup.Life :=
  PhoebeForCleanup.mkLife
    (PhoebeFor.mkForEl
       (mkChildren [Element 100; Element 101; Element 102]
          {[ 100 := ("for", [Text " "; Element 50; Text " "]) ]})
       (Some [(VNum 1, Some 101); (VNum 2, Some 102)]))
    None true (PhoebeForCleanup.mkTimeouts 1 []).

(** Where the keyed loop stands between two items: the children are the
    template [t] and the elements [X ++ R]; the elements [P] of the items
    seen so far lie in [X], in the order of their items; the current
    element is the first of [R]. *)
Definition keyedPosition (t : Elem) (P X R : list Elem) (nodes : list node)
    (currentEl : option Elem) : Prop :=
  nodes = Element t :: map Element (X ++ R)
  ∧ currentEl = head R
  ∧ NoDup (t :: X ++ R)
  ∧ P `sublist_of` X.

(** The key index holds one entry for each of the elements [L]: no key
    twice, no element twice, and no entry without an element. *)
Definition indexes (keyEls : list (value * option Elem)) (L : list Elem)
    : Prop :=
  NoDup (map fst keyEls) ∧ map snd keyEls ≡ₚ map Some L.

Section KeyedInvariant.

Context {St : Type}.

(** The key snippet compiled, the state it runs on, and the key it gives
    for the item at each index. *)
Variable f : @compiled St.
Variable a : St.
Variable keyExpr : option string.
Variable keyOf : nat → value.

(** The template, the loop variables and the items of the pass, and the
    key index and the element counter it started with. *)
Variable t : Elem.
Variable var idx : option string.
Variable items : list value.
Variable keyEls0 : list (value * option Elem).
Variable next0 : Elem.

(** What holds between two turns of the keyed loop, after the items
    before the index [i], whose elements are [P]. *)
Record keyedInvariant (i : nat) (P : list Elem) (s : PhoebeFor.keyedLoop)
    (w : Page St) : Prop := mkKeyedInvariant {
  ki_position :
    ∃ X R,
      keyedPosition t P X R (PhoebeFor.k_nodes s) (PhoebeFor.k_currentEl s)
      ∧ indexes (PhoebeFor.k_keyElements s) (X ++ R)
      ∧ ∀ e, e ∈ t :: X ++ R → e < nextElem w;
  ki_length : length P = i;
  ki_visited :
    ∀ key, key ∈ PhoebeFor.k_visitedKeys s ↔ ∃ j, j < i ∧ key = keyOf j;
  ki_index :
    ∀ j e, P !! j = Some e →
           PhoebeFor.map_get (keyOf j) (PhoebeFor.k_keyElements s)
           = Some (Some e);
  ki_context :
    ∀ j e item, P !! j = Some e → items !! j = Some item →
                loopContextValue (registry (reg w) e)
                = Some (PhoebeFor.loopContext var idx item j);
  ki_page :
    ambient w = a
    ∧ (jsCache w !! ("get:" +:+ attr_str keyExpr) = None
       ∨ jsCache w !! ("get:" +:+ attr_str keyExpr) = Some f);
  ki_old :
    ∀ key v, PhoebeFor.map_get key keyEls0 = Some v →
             PhoebeFor.map_get key (PhoebeFor.k_keyElements s) = Some v;
  ki_new :
    ∀ key e, PhoebeFor.map_get key (PhoebeFor.k_keyElements s) = Some (Some e) →
             PhoebeFor.map_get key keyEls0 = None → next0 ≤ e;
  ki_next : next0 ≤ nextElem w
}.

End KeyedInvariant.

(** * Theorems *)

Section JsFacts.

Context {St : Type}.
Variable newFunction : list string → string → result (@compiled St).

Lemma js_get_unfold expr sc this (w : Page St) :
  js_get newFunction expr sc this w =
  match get_body newFunction expr sc this w with
  | (w1, Throw e) =>
      (logged LError "Phoebe.js: error executing js.get()" w1, Throw e)
  | r => r
  end.
Proof.
  unfold js_get, try_catch.
  destruct (get_body newFunction expr sc this w) as [w1 [a|e|]]; reflexivity.
Qed.

Lemma js_set_unfold expr v sc this (w : Page St) :
  js_set newFunction expr v sc this w =
  match set_body newFunction expr v sc this w with
  | (w1, Throw e) =>
      (logged LError "Phoebe.js: error executing js.set()" w1, Ok tt)
  | r => r
  end.
Proof.
  unfold js_set, try_catch.
  destruct (set_body newFunction expr v sc this w) as [w1 [a|e|]]; reflexivity.
Qed.

Lemma js_exec_unfold expr sc this (w : Page St) :
  js_exec newFunction expr sc this w =
  match exec_body newFunction expr sc this w with
  | (w1, Throw e) =>
      (logged LError "Phoebe.js: error executing js.exec()" w1, Ok tt)
  | r => r
  end.
Proof.
  unfold js_exec, try_catch.
  destruct (exec_body newFunction expr sc this w) as [w1 [a|e|]]; reflexivity.
Qed.

(** C8. Expression-evaluation error semantics: an exception raised while
    [js.get] evaluates is logged on the console and thrown on to the caller,
    whose continuation does not run; an exception raised while [js.set] or
    [js.exec] evaluates is logged and swallowed, and the caller's
    continuation runs on the page the failed evaluation left. *)
Theorem js_error_semantics expr v sc this (w w1 : Page St) (e : exn) :
  (get_body newFunction expr sc this w = (w1, Throw e) →
   js_get newFunction expr sc this w
     = (logged LError "Phoebe.js: error executing js.get()" w1, Throw e)
   ∧ ∀ B (k : value → M St B),
       bind (js_get newFunction expr sc this) k w
       = (logged LError "Phoebe.js: error executing js.get()" w1, Throw e))
  ∧ (set_body newFunction expr v sc this w = (w1, Throw e) →
     js_set newFunction expr v sc this w
       = (logged LError "Phoebe.js: error executing js.set()" w1, Ok tt)
     ∧ ∀ B (k : unit → M St B),
         bind (js_set newFunction expr v sc this) k w
         = k tt (logged LError "Phoebe.js: error executing js.set()" w1))
  ∧ (exec_body newFunction expr sc this w = (w1, Throw e) →
     js_exec newFunction expr sc this w
       = (logged LError "Phoebe.js: error executing js.exec()" w1, Ok tt)
     ∧ ∀ B (k : unit → M St B),
         bind (js_exec newFunction expr sc this) k w
         = k tt (logged LError "Phoebe.js: error executing js.exec()" w1)).
Proof.
  split; [|split]; intros Hbody.
  - assert (Hget : js_get newFunction expr sc this w
                   = (logged LError "Phoebe.js: error executing js.get()" w1,
                      Throw e))
      by (rewrite js_get_unfold, Hbody; reflexivity).
    split; [exact Hget|]. intros B k. unfold bind at 1. rewrite Hget. reflexivity.
  - assert (Hset : js_set newFunction expr v sc this w
                   = (logged LError "Phoebe.js: error executing js.set()" w1,
                      Ok tt))
      by (rewrite js_set_unfold, Hbody; reflexivity).
    split; [exact Hset|]. intros B k. unfold bind at 1. rewrite Hset. reflexivity.
  - assert (Hexec : js_exec newFunction expr sc this w
                    = (logged LError "Phoebe.js: error executing js.exec()" w1,
                       Ok tt))
      by (rewrite js_exec_unfold, Hbody; reflexivity).
    split; [exact Hexec|]. intros B k. unfold bind at 1. rewrite Hexec.
    reflexivity.
Qed.

End JsFacts.

(** On the example host: reading an unbound variable, assigning to an
    empty target, and a snippet that throws. *)
Lemma js_error_semantics_witness :
  let w := Host.emptyPage Host.emptyState in
  (snd (js_get Host.newFunction "nope" ∅ 0 w)
     = Throw (Thrown (VStr "ReferenceError: nope"))
   ∧ console (fst (js_get Host.newFunction "nope" ∅ 0 w))
     = [(LError, "Phoebe.js: error executing js.get()")])
  ∧ (snd (js_set Host.newFunction "" (VNum 1) ∅ 0 w) = Ok tt
     ∧ console (fst (js_set Host.newFunction "" (VNum 1) ∅ 0 w))
       = [(LError, "Phoebe.js: error executing js.set()")])
  ∧ (snd (js_exec Host.newFunction "throw nope" ∅ 0 w) = Ok tt
     ∧ console (fst (js_exec Host.newFunction "throw nope" ∅ 0 w))
       = [(LError, "Phoebe.js: error executing js.exec()")]).
Proof.
  intros w.
  pose proof (js_error_semantics Host.newFunction "nope" VUndefined ∅ 0 w
                (fst (get_body Host.newFunction "nope" ∅ 0 w))
                (Thrown (VStr "ReferenceError: nope"))) as [Hg _].
  pose proof (js_error_semantics Host.newFunction "" (VNum 1) ∅ 0 w
                (fst (set_body Host.newFunction "" (VNum 1) ∅ 0 w))
                (SyntaxError "Unexpected token")) as [_ [Hs _]].
  pose proof (js_error_semantics Host.newFunction "throw nope" VUndefined ∅ 0 w
                (fst (exec_body Host.newFunction "throw nope" ∅ 0 w))
                (Thrown (VStr "ReferenceError: nope"))) as [_ [_ He]].
  destruct (Hg eq_refl) as [Hg1 _].
  destruct (Hs eq_refl) as [Hs1 _].
  destruct (He eq_refl) as [He1 _].
  rewrite Hg1, Hs1, He1. repeat split; reflexivity.
Defined.

(** A directive whose assignment fails does not stop the directives after
    it; a directive whose read fails stops the render of the element. *)
Example failing_directives :
  let set_fails := directivePage [("phoebe-ref", ""); ("phoebe:title", "t")] in
  let get_fails := directivePage [("phoebe:lang", "nope");
                                  ("phoebe:title", "t")] in
  let pass := processElement Host.newFunction nestedTree 0 noBinding 4 None 1 in
  snd (pass set_fails) = Ok tt
  ∧ assoc "title" (default [] (attributes (fst (pass set_fails)) !! 1))
    = Some "hi"
  ∧ console (fst (pass set_fails))
    = [(LError, "Phoebe.js: error executing js.set()")]
  ∧ snd (pass get_fails) = Throw (Thrown (VStr "ReferenceError: nope"))
  ∧ assoc "title" (default [] (attributes (fst (pass get_fails)) !! 1)) = None
  ∧ console (fst (pass get_fails))
    = [(LError, "Phoebe.js: error executing js.get()")].
Proof. vm_compute. repeat split; reflexivity. Qed.

Section BuildScopeFacts.

Context {St : Type}.
Variable parentElement : gmap Elem Elem.
Variable rootNode : Elem.

Lemma spread_lookup (a b : scope) (x : string) :
  spread a b !! x = match b !! x with Some v => Some v | None => a !! x end.
Proof.
  unfold spread. destruct (b !! x) as [v|] eqn:Hb.
  - apply lookup_union_Some_l. exact Hb.
  - apply lookup_union_r. exact Hb.
Qed.

(** A context provider overrides what the scope held before it. *)
Lemma mergeContext_lookup (rg : gmap Elem regEntry) (sc : scope) anc x :
  mergeContext rg sc anc !! x
  = match ownContext rg anc !! x with Some v => Some v | None => sc !! x end.
Proof.
  unfold ownContext, mergeContext.
  destruct (loopContextValue (registry rg anc)) as [lc|];
    destruct (withContextValue (registry rg anc)) as [wc|];
    rewrite ?spread_lookup, ?lookup_empty;
    repeat match goal with
           | |- context [match ?m !! x with _ => _ end] => destruct (m !! x)
           end; reflexivity.
Qed.

(** [for (const anc of ancestors)] leaves, for each name, the value of the
    last provider in the list that binds it. *)
Lemma foldl_mergeContext_last (rg : gmap Elem regEntry) l1 a l2 x v :
  ownContext rg a !! x = Some v →
  (∀ b, b ∈ l2 → ownContext rg b !! x = None) →
  ∀ sc : scope, foldl (mergeContext rg) sc (l1 ++ a :: l2) !! x = Some v.
Proof.
  intros Ha Hl2 sc. rewrite foldl_app. simpl.
  assert (Hstep : mergeContext rg (foldl (mergeContext rg) sc l1) a !! x
                  = Some v) by (rewrite mergeContext_lookup, Ha; reflexivity).
  revert Hstep. generalize (mergeContext rg (foldl (mergeContext rg) sc l1) a).
  induction l2 as [|b l2 IH]; intros sc' Hsc'; simpl; [exact Hsc'|].
  apply IH.
  - intros c Hc. apply Hl2. right. exact Hc.
  - rewrite mergeContext_lookup, (Hl2 b) by left. exact Hsc'.
Qed.

Lemma walk_up_collect (rg : gmap Elem regEntry) parent l :
  walk_up parentElement rootNode parent l →
  ∀ fuel, length l ≤ fuel →
  collectLoopEls parentElement rootNode fuel rg parent
  = Some (List.filter (providesContext rg) l).
Proof.
  induction 1 as [| |p l Hne Hw IH]; intros fuel Hfuel.
  - destruct fuel; reflexivity.
  - destruct fuel; simpl; rewrite bool_decide_eq_true_2; reflexivity.
  - destruct fuel as [|fuel]; simpl in Hfuel; [lia|].
    simpl. rewrite bool_decide_eq_false_2 by exact Hne.
    rewrite IH by lia. destruct (providesContext rg p); reflexivity.
Qed.

Lemma registry_update_eq f el (rg : gmap Elem regEntry) :
  registry (reg_update f el rg) el = f (registry rg el).
Proof. unfold registry, reg_update. rewrite lookup_insert_eq. reflexivity. Qed.

Lemma registry_update_ne f el el' (rg : gmap Elem regEntry) :
  el ≠ el' → registry (reg_update f el rg) el' = registry rg el'.
Proof.
  intros Hne. unfold registry, reg_update.
  rewrite lookup_insert_ne by exact Hne. reflexivity.
Qed.

(** Memoizing the ancestor list changes no context value. *)
Lemma mergeContext_memo a el (rg : gmap Elem regEntry) (sc : scope) anc :
  mergeContext (reg_update (set_contextAncestors a) el rg) sc anc
  = mergeContext rg sc anc.
Proof.
  unfold mergeContext. destruct (decide (el = anc)) as [->|Hne].
  - rewrite registry_update_eq. reflexivity.
  - rewrite registry_update_ne by exact Hne. reflexivity.
Qed.

Lemma foldl_mergeContext_memo a el (rg : gmap Elem regEntry) l :
  ∀ sc : scope,
  foldl (mergeContext (reg_update (set_contextAncestors a) el rg)) sc l
  = foldl (mergeContext rg) sc l.
Proof.
  induction l as [|b l IH]; intros sc; simpl; [reflexivity|].
  rewrite mergeContext_memo. apply IH.
Qed.

(** The first [buildScope(el)]: the walk is memoized and the scope is the
    merge of the providers, nearest first. *)
Lemma buildScope_first fuel el (w : Page St) l :
  contextAncestors (registry (reg w) el) = CAUndefined →
  walk_up parentElement rootNode (Some el) l →
  length l ≤ fuel →
  let loopEls := List.filter (providesContext (reg w)) l in
  buildScope parentElement rootNode fuel el w
  = (with_reg (reg_update (set_contextAncestors
                             (if bool_decide (0 < length loopEls)
                              then CAList loopEls else CAFalse)) el (reg w)) w,
     Ok (foldl (mergeContext (reg w)) ∅ loopEls)).
Proof.
  intros Hundef Hwalk Hfuel loopEls.
  unfold buildScope, bind, get_reg, modify_reg, ret. simpl.
  rewrite Hundef, (walk_up_collect _ _ _ Hwalk) by exact Hfuel.
  fold loopEls. simpl. rewrite registry_update_eq. simpl.
  destruct loopEls as [|b rest] eqn:Hl; simpl; [reflexivity|].
  rewrite mergeContext_memo, foldl_mergeContext_memo. reflexivity.
Qed.

(** A later [buildScope(el)] reads the memoized list and the context values
    of the moment. *)
Lemma buildScope_memo fuel el (w : Page St) l :
  contextAncestors (registry (reg w) el) = CAList l →
  buildScope parentElement rootNode fuel el w
  = (w, Ok (foldl (mergeContext (reg w)) ∅ l)).
Proof.
  intros Hmemo. unfold buildScope, bind, get_reg, ret.
  rewrite Hmemo. simpl. rewrite Hmemo. reflexivity.
Qed.

(** What the merge order of [buildScope] amounts to: of the providers on
    the way up that bind a name, the one farthest from the element wins. *)
Lemma buildScope_farthest_wins fuel el (w : Page St) l1 far l2 x v :
  contextAncestors (registry (reg w) el) = CAUndefined →
  walk_up parentElement rootNode (Some el) (l1 ++ far :: l2) →
  length (l1 ++ far :: l2) ≤ fuel →
  ownContext (reg w) far !! x = Some v →
  (∀ b, b ∈ l2 → ownContext (reg w) b !! x = None) →
  ∃ w' sc, buildScope parentElement rootNode fuel el w = (w', Ok sc)
           ∧ sc !! x = Some v.
Proof.
  intros Hundef Hwalk Hfuel Hfar Hrest.
  eexists. eexists. split.
  - apply buildScope_first; eassumption.
  - rewrite List.filter_app. simpl.
    assert (Hp : providesContext (reg w) far = true).
    { unfold providesContext. unfold ownContext, mergeContext in Hfar.
      destruct (loopContextValue (registry (reg w) far));
        destruct (withContextValue (registry (reg w) far)); simpl;
        try reflexivity.
      rewrite lookup_empty in Hfar. discriminate. }
    rewrite Hp. apply foldl_mergeContext_last; [exact Hfar|].
    intros b Hb. apply Hrest. apply list_elem_of_In in Hb.
    apply List.filter_In in Hb as [Hb _]. apply list_elem_of_In. exact Hb.
Qed.

End BuildScopeFacts.

Section ScheduleFacts.

Variable parentElement : gmap Elem Elem.

Lemma path_up_functional parent l1 :
  path_up parentElement parent l1 →
  ∀ l2, path_up parentElement parent l2 → l1 = l2.
Proof.
  induction 1 as [|p l Hp IH]; intros l2 H2; inversion H2; subst.
  - reflexivity.
  - f_equal. apply IH. assumption.
Qed.

Lemma contains_path fuel a el l :
  path_up parentElement el l →
  length l ≤ fuel →
  contains parentElement fuel a el = Some (bool_decide (a ∈ l)).
Proof.
  intros Hpath. revert fuel.
  induction Hpath as [|p l Hp IH]; intros fuel Hfuel.
  - destruct fuel; reflexivity.
  - simpl in Hfuel. destruct (decide (p = a)) as [->|Hne].
    + destruct fuel; simpl; rewrite bool_decide_eq_true_2 by reflexivity;
        rewrite bool_decide_eq_true_2; auto; left.
    + destruct fuel as [|fuel]; [lia|]. simpl.
      rewrite bool_decide_eq_false_2 by exact Hne.
      rewrite IH by lia. apply f_equal, bool_decide_ext.
      rewrite elem_of_cons. intuition congruence.
Qed.

Lemma contains_inclusiveAncestor fuel a d l :
  path_up parentElement (Some d) l →
  length l ≤ fuel →
  (contains parentElement fuel a (Some d) = Some true
   ↔ inclusiveAncestor parentElement a d)
  ∧ (contains parentElement fuel a (Some d) = Some false
     ↔ ¬ inclusiveAncestor parentElement a d).
Proof.
  intros Hpath Hfuel. rewrite (contains_path _ _ _ _ Hpath Hfuel).
  assert (Hiff : inclusiveAncestor parentElement a d ↔ a ∈ l).
  { split.
    - intros (l' & Hl' & Hin).
      rewrite (path_up_functional _ _ Hpath _ Hl'). exact Hin.
    - intros Hin. exists l. split; assumption. }
  rewrite Hiff. destruct (decide (a ∈ l)) as [Hin|Hin].
  - rewrite bool_decide_eq_true_2 by exact Hin. intuition congruence.
  - rewrite bool_decide_eq_false_2 by exact Hin. intuition congruence.
Qed.


(** With enough fuel the containment loop answers, and it answers [true]
    exactly when no pending element contains [el]. *)
Lemma shouldAdd_spec fuel pending el l :
  path_up parentElement (Some el) l →
  length l ≤ fuel →
  ∃ b, shouldAdd parentElement fuel pending el = Some b
       ∧ (b = true → ∀ a, a ∈ pending → ¬ inclusiveAncestor parentElement a el)
       ∧ (b = false → ∃ a, a ∈ pending ∧ inclusiveAncestor parentElement a el).
Proof.
  intros Hpath Hfuel.
  induction pending as [|r rest IH]; simpl.
  - exists true. split; [reflexivity|]. split; [|discriminate].
    intros _ a Ha. apply elem_of_nil in Ha. destruct Ha.
  - destruct (contains_inclusiveAncestor fuel r el l Hpath Hfuel) as [Ht Hf].
    rewrite (contains_path _ _ _ _ Hpath Hfuel) in *.
    destruct (bool_decide (r ∈ l)).
    + exists false. split; [reflexivity|]. split; [discriminate|].
      intros _. exists r. split; [left|]. apply Ht. reflexivity.
    + destruct IH as (b & Hb & Htrue & Hfalse). exists b.
      split; [exact Hb|]. split.
      * intros Hbt a Ha. apply elem_of_cons in Ha as [->|Ha].
        -- apply Hf. reflexivity.
        -- apply Htrue; assumption.
      * intros Hbf. destruct (Hfalse Hbf) as (a & Ha & Hanc).
        exists a. split; [right; exact Ha|exact Hanc].
Qed.








End ScheduleFacts.




Example schedule_batch_example :
  scheduleAll exampleTree 4 [1; 3; 2; 1] idle = Some (mkSched [1; 2] 1 []).
Proof. vm_compute. reflexivity. Qed.


(** C1.  [buildScope] merges the context providers nearest first, so on a
    name collision the farthest one wins: for the [<span>] inside a
    [<phoebe-with>] inside a loop item, where loop and scoped variable both
    define [item], the scope holds the value of the loop although the
    nearer scoped variable binds [item] to another value. *)
Theorem buildScope_loop_value_shadows_nested_with :
  ownContext (reg shadowingPage) 3 !! "item" = Some (VStr "with")
  ∧ ownContext (reg shadowingPage) 2 !! "item" = Some (VStr "loop")
  ∧ walk_up nestedTree 0 (Some 4) [4; 3; 2; 1]
  ∧ snd (buildScope nestedTree 0 4 4 shadowingPage)
    = Ok {[ "item" := VStr "loop" ]}.
Proof.
  split; [vm_compute; reflexivity|]. split; [vm_compute; reflexivity|].
  split; [repeat constructor; discriminate|].
  vm_compute. reflexivity.
Qed.

(** The same on a page that reaches this registry by rendering: the loop
    gives its item element [101] the item ["loop"], the scoped variable [3]
    inside it binds [item] to ["with"], and the [<span>] [4] inside the
    scoped variable still sees ["loop"]. *)
Example shadowing_after_rendering :
  let w := fst (renderedPass renderedPage) in
  snd (renderedPass renderedPage) = Ok tt
  ∧ loopContextValue (registry (reg w) 101) = Some {[ "item" := VStr "loop" ]}
  ∧ withContextValue (registry (reg w) 3) = Some {[ "item" := VStr "with" ]}
  ∧ snd (buildScope renderedTree 0 8 4 w) = Ok {[ "item" := VStr "loop" ]}.
Proof. vm_compute. repeat split; reflexivity. Qed.

Section OwnContext.

Context {St : Type}.
Variable parentElement : gmap Elem Elem.
Variable rootNode : Elem.

Lemma ownContext_provides (rg : gmap Elem regEntry) el x v :
  ownContext rg el !! x = Some v → providesContext rg el = true.
Proof.
  unfold providesContext, ownContext, mergeContext. intros H.
  destruct (loopContextValue (registry rg el));
    destruct (withContextValue (registry rg el)); simpl; try reflexivity.
  rewrite lookup_empty in H. discriminate.
Qed.

(** C10, as the code has it.  The upward walk of [buildScope] starts at the
    element itself and stops before the root.  For an element other than
    the root whose ancestor list has not been computed yet and that
    carries a context value binding [x], [buildScope] returns a scope and
    memoizes the element as its own first context provider; the scope binds
    [x] to the element's own value whenever no context provider farther up
    binds [x] as well. *)
Theorem buildScope_includes_own_context fuel el (w : Page St) l x v :
  el ≠ rootNode →
  contextAncestors (registry (reg w) el) = CAUndefined →
  walk_up parentElement rootNode (parentElement !! el) l →
  length l < fuel →
  ownContext (reg w) el !! x = Some v →
  (∀ a, a ∈ l → ownContext (reg w) a !! x = None) →
  ∃ w' sc rest,
    buildScope parentElement rootNode fuel el w = (w', Ok sc)
    ∧ contextAncestors (registry (reg w') el) = CAList (el :: rest)
    ∧ sc !! x = Some v.
Proof.
  intros Hroot Hundef Hwalk Hfuel Hown Hfar.
  assert (Hwalk' : walk_up parentElement rootNode (Some el) (el :: l))
    by (constructor; assumption).
  pose proof (buildScope_first parentElement rootNode fuel el w (el :: l)
                Hundef Hwalk') as Hb.
  simpl in Hb. specialize (Hb ltac:(lia)).
  rewrite (ownContext_provides _ _ _ _ Hown) in Hb. simpl in Hb.
  eexists. eexists. exists (List.filter (providesContext (reg w)) l).
  split; [exact Hb|]. split.
  - simpl. rewrite registry_update_eq. reflexivity.
  - change (foldl (mergeContext (reg w)) (mergeContext (reg w) ∅ el)
              (List.filter (providesContext (reg w)) l) !! x = Some v).
    apply (foldl_mergeContext_last (reg w) [] el _ x v Hown).
    intros b Hb'. apply Hfar. apply list_elem_of_In in Hb'.
    apply List.filter_In in Hb' as [Hb' _]. apply list_elem_of_In. exact Hb'.
Qed.

End OwnContext.

(** The loop item [2] of the example page sees its own [item]. *)
Lemma buildScope_includes_own_context_witness :
  ∃ w' sc rest,
    buildScope nestedTree 0 4 2 shadowingPage = (w', Ok sc)
    ∧ contextAncestors (registry (reg w') 2) = CAList (2 :: rest)
    ∧ sc !! "item" = Some (VStr "loop").
Proof.
  apply (buildScope_includes_own_context nestedTree 0 4 2 shadowingPage [1]).
  - discriminate.
  - reflexivity.
  - repeat constructor. discriminate.
  - simpl. lia.
  - vm_compute. reflexivity.
  - intros a Ha. apply list_elem_of_singleton in Ha. subst a.
    vm_compute. reflexivity.
Defined.

(** C10, as stated, fails for a [<phoebe-with>] element: [processElement]
    asks for its scope before its first [render], so the memoized ancestor
    list never holds the element; after the render pass it carries the
    binding of [x], yet [buildScope] returns the empty scope and the
    directive [phoebe:title="x"] on it fails on the unbound [x]. *)
Lemma with_element_misses_own_binding :
  let pass :=
    processElement Host.newFunction nestedTree 0 noBinding 4
      (Some (PhoebeWith.render Host.newFunction 1)) 1 in
  let w1 := fst (pass withPage) in
  withContextValue (registry (reg w1) 1) = Some {[ "x" := VNum 7 ]}
  ∧ ownContext (reg w1) 1 !! "x" = Some (VNum 7)
  ∧ snd (buildScope nestedTree 0 4 1 w1) = Ok ∅
  ∧ snd (pass withPage) = Throw (Thrown (VStr "ReferenceError: x"))
  ∧ snd (pass w1) = Throw (Thrown (VStr "ReferenceError: x")).
Proof. vm_compute. repeat split; reflexivity. Qed.

Section SortFacts.

Lemma compareAttrs_other a b :
  String.eqb a "phoebe:class" = false → (0 <? compareAttrs a b)%Z = false.
Proof.
  intros Ha. unfold compareAttrs. rewrite Ha.
  destruct (String.eqb b "phoebe:class"); reflexivity.
Qed.

Lemma sortInsert_other a sorted :
  String.eqb a "phoebe:class" = false →
  sortInsert compareAttrs a sorted = a :: sorted.
Proof.
  intros Ha. destruct sorted as [|b rest]; [reflexivity|].
  simpl. rewrite compareAttrs_other by exact Ha. reflexivity.
Qed.

Lemma sortInsert_class others bulk :
  Forall (fun b => String.eqb b "phoebe:class" = false) others →
  Forall (fun b => String.eqb b "phoebe:class" = true) bulk →
  sortInsert compareAttrs "phoebe:class" (others ++ bulk)
  = others ++ "phoebe:class" :: bulk.
Proof.
  intros Ho Hb. induction Ho as [|b others Hb' Ho IH]; simpl.
  - destruct Hb as [|b bulk Hb1 Hb]; [reflexivity|].
    simpl. unfold compareAttrs. rewrite Hb1. reflexivity.
  - unfold compareAttrs at 1. rewrite Hb'. simpl. rewrite IH. reflexivity.
Qed.

(** The stable sort with [compareAttrs] keeps the declaration order of all
    other names and moves ["phoebe:class"] behind them. *)
Lemma sort_compareAttrs (l : list string) :
  sort compareAttrs l
  = List.filter (fun a => negb (String.eqb a "phoebe:class")) l
    ++ List.filter (fun a => String.eqb a "phoebe:class") l.
Proof.
  induction l as [|a l IH]; [reflexivity|].
  unfold sort in *. simpl. rewrite IH.
  destruct (String.eqb a "phoebe:class") eqn:Ha; simpl.
  - apply String.eqb_eq in Ha. subst a. apply sortInsert_class.
    + apply Forall_forall. intros b Hb. apply list_elem_of_In in Hb.
      apply List.filter_In in Hb as [_ Hb]. apply negb_true_iff. exact Hb.
    + apply Forall_forall. intros b Hb. apply list_elem_of_In in Hb.
      apply List.filter_In in Hb as [_ Hb]. exact Hb.
  - apply sortInsert_other. exact Ha.
Qed.

(** On every element the bulk class directive is applied after all other
    directives, the individual class toggles among them. *)
Lemma directiveOrder_class_last (names : list string) :
  directiveOrder names
  = List.filter (fun a => negb (String.eqb a "phoebe:class"))
      (List.filter (startsWith "phoebe") names)
    ++ List.filter (fun a => String.eqb a "phoebe:class")
         (List.filter (startsWith "phoebe") names).
Proof. apply sort_compareAttrs. Qed.

End SortFacts.

(** C2.  On [<span phoebe:class="cls" phoebe-class:red="on">] the render
    pass applies the toggle of [red] first and the bulk class directive
    last.  Rendered while [on] is false and again after [on] became true,
    the element ends with the class ["big"] alone: the bulk rewrite has
    overwritten the toggle that had just added [red].  In the order the
    comment in the source announces, the class would be ["big red"]. *)
Theorem processElement_bulk_class_overwrites_toggle :
  let pass :=
    processElement Host.newFunction nestedTree 0 noBinding 4 None 1 in
  let w1 := fst (pass (classPage false)) in
  let w2 := fst (pass (with_ambient (ambient (classPage true)) w1)) in
  directiveOrder ["phoebe:class"; "phoebe-class:red"]
    = ["phoebe-class:red"; "phoebe:class"]
  ∧ snd (pass (classPage false)) = Ok tt
  ∧ classOf 1 w1 = Some "big"
  ∧ snd (pass (with_ambient (ambient (classPage true)) w1)) = Ok tt
  ∧ classOf 1 w2 = Some "big"
  ∧ classOf 1
      (fst (forEach (applyDirective Host.newFunction noBinding 1 ∅)
              ["phoebe:class"; "phoebe-class:red"]
              (with_ambient (ambient (classPage true)) w1)))
    = Some "big red".
Proof. vm_compute. repeat split; reflexivity. Qed.

Section ReactiveFacts.

Variable parentElement : gmap Elem Elem.
Variable rootNode : Elem.

Lemma lookupObj_Some h r o : h !! r = Some o → lookupObj h r = o.
Proof. intros H. unfold lookupObj. rewrite H. reflexivity. Qed.

Lemma lookupObj_proxy h r t :
  lookupObj h r = ProxyOf t → h !! r = Some (ProxyOf t).
Proof.
  unfold lookupObj. destruct (h !! r) as [o|]; simpl; [congruence|discriminate].
Qed.

Lemma allocated_below st r o :
  wellFormed st → heap st !! r = Some o → r < nextRef st.
Proof.
  intros Hwf Hr. destruct (decide (r < nextRef st)) as [|Hge]; [assumption|].
  rewrite (wf_fresh st Hwf r) in Hr by lia. discriminate.
Qed.

Lemma extends_refl st : extends st st.
Proof. unfold extends. auto. Qed.

Lemma extends_trans st1 st2 st3 :
  extends st1 st2 → extends st2 st3 → extends st1 st3.
Proof.
  intros (Hn1 & Hh1 & Hp1 & Hs1) (Hn2 & Hh2 & Hp2 & Hs2).
  split; [lia|]. split.
  - intros r Hr. rewrite Hh2 by lia. apply Hh1. exact Hr.
  - split; [auto|congruence].
Qed.

Lemma extends_lookupObj st1 st2 r :
  extends st1 st2 → r < nextRef st1 →
  lookupObj (heap st2) r = lookupObj (heap st1) r.
Proof.
  intros (_ & Hh & _) Hr. unfold lookupObj. rewrite Hh by exact Hr.
  reflexivity.
Qed.

Lemma instanceClass_extends fuel st1 st2 :
  wellFormed st1 → extends st1 st2 →
  ∀ r, r < nextRef st1 →
  instanceClass fuel (heap st2) r = instanceClass fuel (heap st1) r.
Proof.
  intros Hwf Hext. induction fuel as [|fuel IH]; intros r Hr; simpl;
    rewrite (extends_lookupObj _ _ _ Hext Hr);
    destruct (lookupObj (heap st1) r) as [c props|t] eqn:Hobj;
    try reflexivity.
  apply IH. apply lookupObj_proxy in Hobj.
  pose proof (wf_target st1 Hwf r t Hobj). lia.
Qed.

Lemma instanceClass_total fuel st :
  wellFormed st →
  ∀ r, r ≤ fuel → ∃ c, instanceClass fuel (heap st) r = Some c.
Proof.
  intros Hwf. induction fuel as [|fuel IH]; intros r Hr; simpl;
    destruct (lookupObj (heap st) r) as [c props|t] eqn:Hobj; eauto.
  - apply lookupObj_proxy in Hobj.
    pose proof (wf_target st Hwf r t Hobj). lia.
  - apply IH. apply lookupObj_proxy in Hobj.
    pose proof (wf_target st Hwf r t Hobj). lia.
Qed.

(** A new proxy for [r] keeps the state well formed. *)
Lemma wellFormed_alloc st r :
  wellFormed st → r < nextRef st → proxies st !! r = None →
  wellFormed (mkReactive (<[nextRef st := ProxyOf r]> (heap st))
                         (<[r := nextRef st]> (proxies st))
                         (Datatypes.S (nextRef st)) (sched st)).
Proof.
  intros Hwf Hr Hnone. constructor; simpl.
  - intros r' Hr'. rewrite lookup_insert_ne by lia.
    apply (wf_fresh st Hwf). lia.
  - intros r0 c props k r' Hr0 Hk.
    destruct (decide (nextRef st = r0)) as [<-|Hne].
    + rewrite lookup_insert_eq in Hr0. discriminate.
    + rewrite lookup_insert_ne in Hr0 by exact Hne.
      pose proof (wf_props st Hwf r0 c props k r' Hr0 Hk). lia.
  - intros p t Hp. destruct (decide (nextRef st = p)) as [<-|Hne].
    + rewrite lookup_insert_eq in Hp. injection Hp as <-. exact Hr.
    + rewrite lookup_insert_ne in Hp by exact Hne.
      apply (wf_target st Hwf). exact Hp.
  - intros t p Ht. destruct (decide (r = t)) as [<-|Hne].
    + rewrite lookup_insert_eq in Ht. injection Ht as <-.
      apply lookup_insert_eq.
    + rewrite lookup_insert_ne in Ht by exact Hne.
      pose proof (wf_cache st Hwf t p Ht) as Hp.
      pose proof (allocated_below st p _ Hwf Hp).
      rewrite lookup_insert_ne by lia. exact Hp.
Qed.

Lemma extends_alloc st r :
  wellFormed st → proxies st !! r = None →
  extends st (mkReactive (<[nextRef st := ProxyOf r]> (heap st))
                         (<[r := nextRef st]> (proxies st))
                         (Datatypes.S (nextRef st)) (sched st)).
Proof.
  intros Hwf Hnone. unfold extends. simpl. split; [lia|]. split.
  - intros r' Hr'. apply lookup_insert_ne. lia.
  - split; [|reflexivity]. intros t p Ht.
    rewrite lookup_insert_ne; [exact Ht|]. intros ->. congruence.
Qed.

(** [wrap] on a well-formed state: the result is well formed, only
    allocation happened, and wrapping the same value again, now or after
    further allocations, returns the same result and changes nothing. *)
Lemma wrap_spec fuel st v st' v' :
  wellFormed st → validValue st v →
  wrap fuel v st = Some (st', v') →
  wellFormed st' ∧ extends st st' ∧ validValue st' v'
  ∧ nextRef st' ≤ Datatypes.S (nextRef st)
  ∧ ∀ st2, extends st' st2 → wrap fuel v st2 = Some (st2, v').
Proof.
  intros Hwf Hvalid Hwrap.
  destruct v as [| | | | | | | |r];
    try (simpl in Hwrap; injection Hwrap as <- <-;
         split; [exact Hwf|]; split; [apply extends_refl|];
         split; [exact I|]; split; [lia|]; intros st2 _; reflexivity).
  simpl in Hwrap, Hvalid.
  destruct (instanceClass fuel (heap st) r) as [c|] eqn:Hcls; [|discriminate].
  assert (Hstable : ∀ st1 st2, wellFormed st1 → extends st st1 →
                               extends st1 st2 →
                    instanceClass fuel (heap st2) r = Some c).
  { intros st1 st2 Hwf1 He1 He2.
    rewrite (instanceClass_extends fuel st1 st2 Hwf1 He2)
      by (destruct He1; lia).
    rewrite (instanceClass_extends fuel st st1 Hwf He1) by exact Hvalid.
    exact Hcls. }
  assert (Hraw : ∀ st2, extends st st2 →
                 (c = CDate ∨ c = CRegExp) →
                 wrap fuel (VRef r) st2 = Some (st2, VRef r)).
  { intros st2 He Hc. simpl.
    rewrite (Hstable st st2 Hwf (extends_refl st) He).
    destruct Hc as [-> | ->]; reflexivity. }
  assert (Hhit : ∀ st2 p, extends st st2 → proxies st2 !! r = Some p →
                 c = CObject ∨ c = CArray →
                 wrap fuel (VRef r) st2 = Some (st2, VRef p)).
  { intros st2 p He Hp Hc. simpl.
    rewrite (Hstable st st2 Hwf (extends_refl st) He), Hp.
    destruct Hc as [-> | ->]; reflexivity. }
  assert (Hcases : (c = CDate ∨ c = CRegExp) ∨ (c = CObject ∨ c = CArray))
    by (destruct c; auto).
  destruct Hcases as [Hc|Hc].
  - assert (Some (st, VRef r) = Some (st', v')) as Heq
        by (destruct Hc as [-> | ->]; exact Hwrap).
    injection Heq as <- <-.
    split; [exact Hwf|]. split; [apply extends_refl|].
    split; [exact Hvalid|]. split; [lia|].
    intros st2 He. apply Hraw; assumption.
  - destruct (proxies st !! r) as [p|] eqn:Hp.
    + assert (Some (st, VRef p) = Some (st', v')) as Heq
          by (destruct Hc as [-> | ->]; exact Hwrap).
      injection Heq as <- <-.
      split; [exact Hwf|]. split; [apply extends_refl|]. split.
      { simpl. eapply allocated_below; [exact Hwf|].
        apply (wf_cache st Hwf). exact Hp. }
      split; [lia|]. intros st2 He. apply Hhit; auto.
      destruct He as (_ & _ & Hpr & _). auto.
    + assert (Some (mkReactive (<[nextRef st := ProxyOf r]> (heap st))
                       (<[r := nextRef st]> (proxies st))
                       (Datatypes.S (nextRef st)) (sched st),
                    VRef (nextRef st)) = Some (st', v')) as Heq
          by (destruct Hc as [-> | ->]; exact Hwrap).
      injection Heq as <- <-.
      pose proof (extends_alloc st r Hwf Hp) as He.
      split; [apply wellFormed_alloc; assumption|]. split; [exact He|].
      split; [simpl; lia|]. split; [simpl; lia|].
      intros st2 He2. apply Hhit; auto.
      * eapply extends_trans; eassumption.
      * destruct He2 as (_ & _ & Hpr & _). apply Hpr. simpl.
        apply lookup_insert_eq.
Qed.

Lemma ordinary_prop_valid st r c props key :
  wellFormed st → lookupObj (heap st) r = Ordinary c props →
  validValue st (default VUndefined (props !! key)).
Proof.
  intros Hwf Hobj.
  destruct (props !! key) as [v|] eqn:Hk; simpl; [|exact I].
  destruct v as [| | | | | | | |r']; simpl; try exact I.
  unfold lookupObj in Hobj.
  destruct (heap st !! r) as [o|] eqn:Hheap; simpl in Hobj.
  - subst o. eapply (wf_props st Hwf); eassumption.
  - injection Hobj as <- <-. rewrite lookup_empty in Hk. discriminate.
Qed.

Lemma obj_get_ordinary fuel st r key c props :
  lookupObj (heap st) r = Ordinary c props →
  obj_get fuel st r key = Some (st, default VUndefined (props !! key)).
Proof. intros Hobj. destruct fuel; simpl; rewrite Hobj; reflexivity. Qed.

(** [r[key]] on a well-formed state, as [wrap_spec]. *)
Lemma obj_get_spec fuel :
  ∀ st r key st' v,
  wellFormed st → r < nextRef st →
  obj_get fuel st r key = Some (st', v) →
  wellFormed st' ∧ extends st st' ∧ validValue st' v
  ∧ nextRef st' ≤ nextRef st + r
  ∧ ∀ st2, extends st' st2 → obj_get fuel st2 r key = Some (st2, v).
Proof.
  assert (Hord : ∀ fuel st r key st' v c props,
             wellFormed st → r < nextRef st →
             lookupObj (heap st) r = Ordinary c props →
             obj_get fuel st r key = Some (st', v) →
             wellFormed st' ∧ extends st st' ∧ validValue st' v
             ∧ nextRef st' ≤ nextRef st + r
             ∧ ∀ st2, extends st' st2 → obj_get fuel st2 r key = Some (st2, v)).
  { intros fuel' st r key st' v c props Hwf Hr Hobj Hget.
    rewrite (obj_get_ordinary _ _ _ _ _ _ Hobj) in Hget.
    injection Hget as <- <-.
    split; [exact Hwf|]. split; [apply extends_refl|].
    split; [eapply ordinary_prop_valid; eassumption|]. split; [lia|].
    intros st2 He. apply (obj_get_ordinary _ _ _ _ c props).
    rewrite (extends_lookupObj _ _ _ He Hr). exact Hobj. }
  induction fuel as [|fuel IH]; intros st r key st' v Hwf Hr Hget;
    destruct (lookupObj (heap st) r) as [c props|t] eqn:Hobj;
    try (eapply Hord; eassumption);
    simpl in Hget; rewrite Hobj in Hget; [discriminate|].
  destruct (obj_get fuel st t key) as [[st1 v1]|] eqn:Hinner; [|discriminate].
  apply lookupObj_proxy in Hobj as Hheap.
  pose proof (wf_target st Hwf r t Hheap) as Ht.
  destruct (IH st t key st1 v1 Hwf ltac:(lia) Hinner)
    as (Hwf1 & He1 & Hv1 & Hn1 & Hst1).
  destruct (wrap_spec fuel st1 v1 st' v Hwf1 Hv1 Hget)
    as (Hwf' & He' & Hv' & Hn' & Hst').
  split; [exact Hwf'|]. split; [eapply extends_trans; eassumption|].
  split; [exact Hv'|]. split; [lia|].
  intros st2 He2. simpl.
  assert (He12 : extends st1 st2) by (eapply extends_trans; eassumption).
  assert (He02 : extends st st2) by (eapply extends_trans; eassumption).
  rewrite (extends_lookupObj st st2 r He02 Hr), Hobj, (Hst1 st2 He12).
  apply Hst'. exact He2.
Qed.

(** With fuel beyond the references in play, [r[key]] returns. *)
Lemma obj_get_total fuel :
  ∀ st r key,
  wellFormed st → r < nextRef st → nextRef st + r < fuel →
  ∃ st' v, obj_get fuel st r key = Some (st', v).
Proof.
  induction fuel as [|fuel IH]; intros st r key Hwf Hr Hfuel; [lia|].
  simpl. destruct (lookupObj (heap st) r) as [c props|t] eqn:Hobj; [eauto|].
  apply lookupObj_proxy in Hobj as Hheap.
  pose proof (wf_target st Hwf r t Hheap) as Ht.
  destruct (IH st t key Hwf ltac:(lia) ltac:(lia)) as (st1 & v1 & Hinner).
  rewrite Hinner.
  destruct (obj_get_spec fuel st t key st1 v1 Hwf ltac:(lia) Hinner)
    as (Hwf1 & He1 & Hv1 & Hn1 & _).
  destruct v1 as [| | | | | | | |r1]; simpl; eauto.
  simpl in Hv1.
  destruct (instanceClass_total fuel st1 Hwf1 r1 ltac:(lia)) as (c & Hc).
  rewrite Hc. destruct c; eauto; destruct (proxies st1 !! r1); eauto.
Qed.

End ReactiveFacts.

Lemma wellFormedCheck_sound st : wellFormedCheck st → wellFormed st.
Proof.
  intros [Hheap Hcache]. constructor.
  - intros r Hr. destruct (heap st !! r) as [o|] eqn:Ho; [|reflexivity].
    destruct (Hheap r o Ho) as [Hlt _]. lia.
  - intros r c props k r' Hr Hk.
    destruct (Hheap r _ Hr) as [_ Hprops]. exact (Hprops k _ Hk).
  - intros p t Hp. destruct (Hheap p _ Hp) as [_ Ht]. exact Ht.
  - intros t p Ht. exact (Hcache t p Ht).
Qed.

Lemma exampleState_wellFormed : wellFormed exampleState.
Proof.
  apply wellFormedCheck_sound.
  apply (bool_decide_unpack (wellFormedCheck exampleState)).
  vm_compute. reflexivity.
Qed.

Example wrap_exampleValues :
  wrap 1 (VRef 0) exampleValues = Some (exampleState, VRef 4).
Proof. vm_compute. reflexivity. Qed.

Section ReactiveClaims.

Variable parentElement : gmap Elem Elem.
Variable rootNode : Elem.

Lemma schedule_total fuel el s l :
  path_up parentElement (Some el) l → length l ≤ fuel →
  ∃ s', schedule parentElement fuel el s = Some s'.
Proof.
  intros Hpath Hfuel. unfold schedule.
  destruct (bool_decide (length (rerenderEls s) = 0)); [eauto|].
  destruct (negb (bool_decide (el ∈ rerenderEls s))); [|eauto].
  destruct (shouldAdd_spec parentElement fuel (rerenderEls s) el l Hpath Hfuel)
    as (b & Hb & _).
  rewrite Hb. destruct b; eauto.
Qed.

Lemma obj_set_ordinary fuel st r key v c props :
  lookupObj (heap st) r = Ordinary c props →
  obj_set parentElement rootNode fuel st r key v
  = Some (with_heap (<[r := Ordinary c (<[key := v]> props)]> (heap st)) st).
Proof. intros Hobj. destruct fuel; simpl; rewrite Hobj; reflexivity. Qed.

Lemma obj_delete_ordinary fuel st r key c props :
  lookupObj (heap st) r = Ordinary c props →
  obj_delete parentElement rootNode fuel st r key
  = Some (with_heap (<[r := Ordinary c (delete key props)]> (heap st)) st).
Proof. intros Hobj. destruct fuel; simpl; rewrite Hobj; reflexivity. Qed.

Lemma obj_has_ordinary fuel st r key c props :
  lookupObj (heap st) r = Ordinary c props →
  obj_has fuel st r key = Some (bool_decide (is_Some (props !! key))).
Proof. intros Hobj. destruct fuel; simpl; rewrite Hobj; reflexivity. Qed.

(** C4, as the code has it.  For a wrapper [p] of an object [t]: writing
    [p[key] = v] stores the value and leaves the scheduler as
    [schedule(rootNode)] leaves it exactly when [old !== v] for the value
    [old] that [t] holds, and untouched otherwise; [delete p[key]] removes
    the key and calls [schedule(rootNode)] exactly when the key was there.
    With no render pending before, the root is pending afterwards if and
    only if the written value is not strictly equal to the one [t] held,
    respectively the deleted key existed. *)
Theorem proxy_write_gating fuel st p t c props key v l :
  heap st !! p = Some (ProxyOf t) →
  heap st !! t = Some (Ordinary c props) →
  path_up parentElement (Some rootNode) l →
  length l < fuel →
  let old := default VUndefined (props !! key) in
  ∃ afterSchedule stSet stDel,
    schedule parentElement (pred fuel) rootNode (sched st) = Some afterSchedule
    ∧ obj_set parentElement rootNode fuel st p key v = Some stSet
    ∧ heap stSet = <[t := Ordinary c (<[key := v]> props)]> (heap st)
    ∧ sched stSet = (if strict_neq old v then afterSchedule else sched st)
    ∧ obj_delete parentElement rootNode fuel st p key = Some stDel
    ∧ heap stDel = <[t := Ordinary c (delete key props)]> (heap st)
    ∧ sched stDel = (if bool_decide (is_Some (props !! key))
                     then afterSchedule else sched st)
    ∧ (rerenderEls (sched st) = [] →
       afterSchedule = mkSched [rootNode] (Datatypes.S (timers (sched st)))
                               (rendered (sched st))
       ∧ (rootNode ∈ rerenderEls (sched stSet) ↔ strict_neq old v = true)
       ∧ (rootNode ∈ rerenderEls (sched stDel) ↔ is_Some (props !! key))).
Proof.
  intros Hp Ht Hpath Hfuel old.
  destruct fuel as [|fuel]; [lia|]. simpl pred.
  destruct (schedule_total fuel rootNode (sched st) l Hpath ltac:(lia))
    as (s1 & Hs1).
  assert (Hobj : lookupObj (heap st) t = Ordinary c props)
    by (apply lookupObj_Some; exact Ht).
  assert (Hset : obj_set parentElement rootNode (Datatypes.S fuel) st p key v
                 = Some (mkReactive
                           (<[t := Ordinary c (<[key := v]> props)]> (heap st))
                           (proxies st) (nextRef st)
                           (if strict_neq old v then s1 else sched st))).
  { simpl. rewrite (lookupObj_Some _ _ _ Hp).
    rewrite (obj_get_ordinary fuel st t key c props Hobj). fold old.
    unfold scheduleRoot. rewrite Hs1.
    destruct (strict_neq old v);
      rewrite (obj_set_ordinary fuel _ t key v c props) by exact Hobj;
      reflexivity. }
  assert (Hdel : obj_delete parentElement rootNode (Datatypes.S fuel) st p key
                 = Some (mkReactive
                           (<[t := Ordinary c (delete key props)]> (heap st))
                           (proxies st) (nextRef st)
                           (if bool_decide (is_Some (props !! key))
                            then s1 else sched st))).
  { simpl. rewrite (lookupObj_Some _ _ _ Hp).
    rewrite (obj_has_ordinary fuel st t key c props Hobj).
    unfold scheduleRoot. rewrite Hs1.
    destruct (bool_decide (is_Some (props !! key)));
      rewrite (obj_delete_ordinary fuel _ t key c props) by exact Hobj;
      reflexivity. }
  exists s1. eexists. eexists.
  split; [exact Hs1|]. split; [exact Hset|]. split; [reflexivity|].
  split; [reflexivity|]. split; [exact Hdel|]. split; [reflexivity|].
  split; [reflexivity|].
  intros Hidle. simpl.
  assert (Hs1eq : s1 = mkSched [rootNode] (Datatypes.S (timers (sched st)))
                               (rendered (sched st))).
  { unfold schedule in Hs1. rewrite Hidle in Hs1. simpl in Hs1.
    injection Hs1 as <-. reflexivity. }
  split; [exact Hs1eq|]. split.
  - destruct (strict_neq old v).
    + rewrite Hs1eq. simpl. split; [reflexivity|]. intros _. left.
    + rewrite Hidle. split; [|discriminate].
      intros Hin. apply elem_of_nil in Hin. destruct Hin.
  - destruct (decide (is_Some (props !! key))) as [Hsome|Hnone].
    + rewrite bool_decide_eq_true_2 by exact Hsome. rewrite Hs1eq. simpl.
      split; [intros _; exact Hsome|]. intros _. left.
    + rewrite bool_decide_eq_false_2 by exact Hnone. rewrite Hidle.
      split; [|contradiction].
      intros Hin. apply elem_of_nil in Hin. destruct Hin.
Qed.

End ReactiveClaims.

(** Writing [state.n = 6] over [5] and deleting [state.n] on the example
    state, with no render pending: both leave the root pending. *)
Lemma proxy_write_gating_witness :
  ∃ stSet stDel,
    obj_set exampleTree 0 2 exampleState 4 "n" (VNum 6) = Some stSet
    ∧ obj_delete exampleTree 0 2 exampleState 4 "n" = Some stDel
    ∧ 0 ∈ rerenderEls (sched stSet)
    ∧ 0 ∈ rerenderEls (sched stDel).
Proof.
  destruct (proxy_write_gating exampleTree 0 2 exampleState 4 0 CObject
              {[ "a" := VRef 1; "n" := VNum 5; "d" := VRef 2 ]} "n" (VNum 6)
              [0] eq_refl eq_refl
              (path_step exampleTree 0 [] (path_null exampleTree))
              (le_n 2))
    as (s1 & stSet & stDel & _ & Hset & _ & _ & Hdel & _ & _ & Hidle).
  destruct (Hidle eq_refl) as (_ & Hs & Hd).
  exists stSet, stDel. split; [exact Hset|]. split; [exact Hdel|].
  split; [apply Hs; reflexivity|]. apply Hd. eexists. reflexivity.
Defined.

Example write_same_value_schedules_nothing :
  (sched <$> obj_set exampleTree 0 2 exampleState 4 "n" (VNum 5)) = Some idle
  ∧ (sched <$> obj_set exampleTree 0 2 exampleState 4 "n" (VNum 6))
    = Some (mkSched [0] 1 [])
  ∧ (sched <$> obj_delete exampleTree 0 2 exampleState 4 "zz") = Some idle
  ∧ (sched <$> obj_delete exampleTree 0 2 exampleState 4 "n")
    = Some (mkSched [0] 1 []).
Proof. vm_compute. repeat split; reflexivity. Qed.

Section WrapperIdentity.

Lemma readPath_spec fuel keys :
  ∀ st v st1 w,
  wellFormed st → validValue st v →
  readPath fuel st v keys = Some (st1, w) →
  wellFormed st1 ∧ extends st st1 ∧ validValue st1 w
  ∧ ∀ st2, extends st1 st2 → readPath fuel st2 v keys = Some (st2, w).
Proof.
  induction keys as [|key rest IH]; intros st v st1 w Hwf Hv Hread.
  - simpl in Hread. injection Hread as <- <-.
    split; [exact Hwf|]. split; [apply extends_refl|]. split; [exact Hv|].
    intros st2 _. reflexivity.
  - destruct v as [| | | | | | | |r];
      try (simpl in Hread; injection Hread as <- <-;
           split; [exact Hwf|]; split; [apply extends_refl|];
           split; [exact I|]; intros st2 _; reflexivity).
    simpl in Hread, Hv.
    destruct (obj_get fuel st r key) as [[sta va]|] eqn:Hget; [|discriminate].
    destruct (obj_get_spec fuel st r key sta va Hwf Hv Hget)
      as (Hwfa & Hea & Hva & _ & Hsta).
    destruct (IH sta va st1 w Hwfa Hva Hread) as (Hwf1 & He1 & Hw & Hst1).
    split; [exact Hwf1|]. split; [eapply extends_trans; eassumption|].
    split; [exact Hw|]. intros st2 He2. simpl.
    rewrite (Hsta st2) by (eapply extends_trans; eassumption).
    apply Hst1. exact He2.
Qed.

Lemma readPath_total fuel keys :
  ∀ st v,
  wellFormed st → validValue st v →
  2 ^ length keys * (nextRef st + 1) ≤ fuel →
  ∃ st1 w, readPath fuel st v keys = Some (st1, w).
Proof.
  induction keys as [|key rest IH]; intros st v Hwf Hv Hfuel; simpl; [eauto|].
  destruct v as [| | | | | | | |r]; eauto.
  simpl in Hv, Hfuel.
  assert (Hpow : 1 ≤ 2 ^ length rest)
    by (pose proof (Nat.pow_nonzero 2 (length rest)); lia).
  destruct (obj_get_total fuel st r key Hwf Hv ltac:(nia)) as (sta & va & Hget).
  rewrite Hget.
  destruct (obj_get_spec fuel st r key sta va Hwf Hv Hget)
    as (Hwfa & _ & Hva & Hna & _).
  apply IH; [exact Hwfa|exact Hva|]. nia.
Qed.

Lemma readTimes_stable fuel st1 v keys w :
  (∀ st2, extends st1 st2 → readPath fuel st2 v keys = Some (st2, w)) →
  ∀ n, readTimes n fuel st1 v keys = Some (st1, replicate n w).
Proof.
  intros Hstable. induction n as [|n IH]; [reflexivity|].
  simpl. rewrite (Hstable st1 (extends_refl st1)), IH. reflexivity.
Qed.

(** C5. Wrapper idempotence and identity stability.  On a well-formed
    state and with fuel beyond the references in play, reading a path from
    any value returns; reading it again any number of times, also after
    other reads have allocated wrappers, returns the identical value and
    changes nothing.  Reading through a wrapper [p] of [t] a property that
    holds an object [r] returns a wrapper of [r], not [r]; a property that
    holds a primitive, a function, a DOM element, a [Date] or a [RegExp]
    is returned as it is. *)
Theorem wrapped_reads_are_identity_stable fuel st v keys :
  wellFormed st → validValue st v →
  2 ^ length keys * (nextRef st + 1) ≤ fuel →
  (∃ st1 w,
      readPath fuel st v keys = Some (st1, w)
      ∧ wellFormed st1
      ∧ (∀ n, readTimes (Datatypes.S n) fuel st v keys
              = Some (st1, replicate (Datatypes.S n) w))
      ∧ (∀ st2, extends st1 st2 → readPath fuel st2 v keys = Some (st2, w)))
  ∧ (∀ p t c props key,
        heap st !! p = Some (ProxyOf t) →
        heap st !! t = Some (Ordinary c props) →
        ∃ st' w',
          obj_get fuel st p key = Some (st', w')
          ∧ match default VUndefined (props !! key) with
            | VRef r =>
              match instanceClass (pred fuel) (heap st) r with
              | Some CDate | Some CRegExp => w' = VRef r ∧ st' = st
              | _ => ∃ p', w' = VRef p' ∧ p' ≠ r
                           ∧ heap st' !! p' = Some (ProxyOf r)
              end
            | raw => w' = raw ∧ st' = st
            end).
Proof.
  intros Hwf Hv Hfuel. split.
  - destruct (readPath_total fuel keys st v Hwf Hv Hfuel) as (st1 & w & Hread).
    destruct (readPath_spec fuel keys st v st1 w Hwf Hv Hread)
      as (Hwf1 & _ & _ & Hstable).
    exists st1, w. split; [exact Hread|]. split; [exact Hwf1|].
    split; [|exact Hstable].
    intros n. change (readTimes (Datatypes.S n) fuel st v keys)
      with (match readPath fuel st v keys with
            | None => None
            | Some (st1, w) =>
              match readTimes n fuel st1 v keys with
              | None => None
              | Some (st2, ws) => Some (st2, w :: ws)
              end
            end).
    rewrite Hread, (readTimes_stable fuel st1 v keys w Hstable n). reflexivity.
  - intros p t c props key Hp Ht.
    assert (Hpow : 1 ≤ 2 ^ length keys)
      by (pose proof (Nat.pow_nonzero 2 (length keys)); lia).
    destruct fuel as [|fuel]; [nia|]. simpl pred.
    assert (Hobj : lookupObj (heap st) t = Ordinary c props)
      by (apply lookupObj_Some; exact Ht).
    simpl. rewrite (lookupObj_Some _ _ _ Hp).
    rewrite (obj_get_ordinary fuel st t key c props Hobj).
    pose proof (ordinary_prop_valid st t c props key Hwf Hobj) as Hvalid.
    destruct (default VUndefined (props !! key)) as [| | | | | | | |r];
      try (eexists; eexists; split; [reflexivity|split; reflexivity]).
    simpl in Hvalid. simpl.
    destruct (instanceClass_total fuel st Hwf r ltac:(nia)) as (cls & Hcls).
    rewrite Hcls.
    assert (Hwrapper : ∃ st' w',
               match proxies st !! r with
               | Some proxy => Some (st, VRef proxy)
               | None =>
                 Some (mkReactive (<[nextRef st := ProxyOf r]> (heap st))
                                  (<[r := nextRef st]> (proxies st))
                                  (Datatypes.S (nextRef st)) (sched st),
                       VRef (nextRef st))
               end = Some (st', w')
               ∧ ∃ p', w' = VRef p' ∧ p' ≠ r
                       ∧ heap st' !! p' = Some (ProxyOf r)).
    { destruct (proxies st !! r) as [p'|] eqn:Hcache.
      - exists st, (VRef p'). split; [reflexivity|]. exists p'.
        pose proof (wf_cache st Hwf r p' Hcache) as Hp'.
        pose proof (wf_target st Hwf p' r Hp').
        split; [reflexivity|]. split; [lia|exact Hp'].
      - eexists. eexists. split; [reflexivity|]. exists (nextRef st).
        split; [reflexivity|]. split; [lia|]. simpl. apply lookup_insert_eq. }
    destruct cls; try exact Hwrapper;
      (eexists; eexists; split; [reflexivity|split; reflexivity]).
Qed.

End WrapperIdentity.

(** On the example state, [state.a.b] read through the state proxy [4]. *)
Lemma wrapped_reads_are_identity_stable_witness :
  (∃ st1 w,
      readPath 24 exampleState (VRef 4) ["a"; "b"] = Some (st1, w)
      ∧ wellFormed st1
      ∧ (∀ n, readTimes (Datatypes.S n) 24 exampleState (VRef 4) ["a"; "b"]
              = Some (st1, replicate (Datatypes.S n) w))
      ∧ (∀ st2, extends st1 st2 →
                readPath 24 st2 (VRef 4) ["a"; "b"] = Some (st2, w)))
  ∧ (∀ p t c props key,
        heap exampleState !! p = Some (ProxyOf t) →
        heap exampleState !! t = Some (Ordinary c props) →
        ∃ st' w',
          obj_get 24 exampleState p key = Some (st', w')
          ∧ match default VUndefined (props !! key) with
            | VRef r =>
              match instanceClass (pred 24) (heap exampleState) r with
              | Some CDate | Some CRegExp => w' = VRef r ∧ st' = exampleState
              | _ => ∃ p', w' = VRef p' ∧ p' ≠ r
                           ∧ heap st' !! p' = Some (ProxyOf r)
              end
            | raw => w' = raw ∧ st' = exampleState
            end).
Proof.
  apply (wrapped_reads_are_identity_stable 24 exampleState (VRef 4) ["a"; "b"]).
  - exact exampleState_wellFormed.
  - simpl. lia.
  - simpl. lia.
Defined.

Example read_example_path :
  readPath 24 exampleState (VRef 4) ["a"; "b"]
  = Some (mkReactive
            (<[6 := ProxyOf 3]> (<[5 := ProxyOf 1]> (heap exampleState)))
            {[ 0 := 4; 1 := 5; 3 := 6 ]} 7 idle,
          VRef 6)
  ∧ (snd <$> readTimes 3 24 exampleState (VRef 4) ["a"; "b"])
    = Some [VRef 6; VRef 6; VRef 6]
  ∧ (snd <$> readPath 24 exampleState (VRef 4) ["d"]) = Some (VRef 2)
  ∧ (snd <$> readPath 24 exampleState (VRef 4) ["n"]) = Some (VNum 5).
Proof. vm_compute. repeat split; reflexivity. Qed.

(** ** Evaluation and the document

    [js] touches the state of the page, its own cache and the console; it
    neither reads nor writes the registry, the attributes, the listeners,
    the element counter or the dispatched events. *)

Section JsFrame.

Context {St : Type}.
Variable newFunction : list string → string → result (@compiled St).

(** An update of the document side of the page. *)
Variable f : Page St → Page St.
Hypothesis f_ambient : ∀ w, ambient (f w) = ambient w.
Hypothesis f_jsCache : ∀ w, jsCache (f w) = jsCache w.
Hypothesis f_console : ∀ w, console (f w) = console w.
Hypothesis f_with_ambient : ∀ a w, f (with_ambient a w) = with_ambient a (f w).
Hypothesis f_with_jsCache : ∀ c w, f (with_jsCache c w) = with_jsCache c (f w).
Hypothesis f_with_console : ∀ l w, f (with_console l w) = with_console l (f w).

Local Abbreviation framed := (runsPast f).












End JsFrame.

Section JsPreserves.

Context {St : Type}.
Variable newFunction : list string → string → result (@compiled St).


Lemma js_get_preserves expr sc this (w : Page St) :
  let w1 := fst (js_get newFunction expr sc this w) in
  reg w1 = reg w ∧ attributes w1 = attributes w ∧ listeners w1 = listeners w
  ∧ nextElem w1 = nextElem w ∧ dispatched w1 = dispatched w.
Proof.
  unfold js_get, try_catch, get_body, bind, cache_has, cache_set, cache_get,
    compile, call, console_log, ret, throw. simpl.
  repeat (case_match; simplify_eq/=; auto).
Qed.

End JsPreserves.

Section IfFacts.

Context {St : Type}.
Variable newFunction : list string → string → result (@compiled St).




End IfFacts.



(** ** Child lists *)

Section ChildLists.

Lemma firstElementChild_elements (l : list Elem) :
  firstElementChild (map Element l) = head l.
Proof. destruct l; reflexivity. Qed.

Lemma nextElementSibling_found e (pre post : list node) :
  Element e ∉ pre →
  nextElementSibling e (pre ++ Element e :: post) = firstElementChild post.
Proof.
  induction pre as [|n pre IH]; intros Hnin; simpl.
  - rewrite bool_decide_eq_true_2 by reflexivity. reflexivity.
  - apply not_elem_of_cons in Hnin as [Hne Hnin].
    rewrite bool_decide_eq_false_2 by congruence. apply IH. exact Hnin.
Qed.

Lemma removeChild_absent e (l : list node) :
  Element e ∉ l → removeChild e l = l.
Proof.
  unfold removeChild. induction l as [|n l IH]; intros Hnin; [reflexivity|].
  apply not_elem_of_cons in Hnin as [Hne Hnin]. simpl.
  rewrite bool_decide_eq_false_2 by congruence. simpl. f_equal. auto.
Qed.

Lemma removeChild_app e (l1 l2 : list node) :
  removeChild e (l1 ++ l2) = removeChild e l1 ++ removeChild e l2.
Proof. unfold removeChild. apply List.filter_app. Qed.



Lemma elem_of_map_Element e (l : list Elem) :
  Element e ∈ map Element l ↔ e ∈ l.
Proof.
  split.
  - intros Hin. apply list_elem_of_In, List.in_map_iff in Hin
      as (x & Hx & Hin). injection Hx as ->. apply list_elem_of_In. exact Hin.
  - intros Hin. apply list_elem_of_In, List.in_map, list_elem_of_In. exact Hin.
Qed.

End ChildLists.

(** ** The loop without keys *)

Section UnkeyedFacts.

Context {St : Type}.

Lemma page_eta (w : Page St) :
  w = mkPage (ambient w) (jsCache w) (console w) (reg w) (attributes w)
             (listeners w) (nextElem w) (dispatched w).
Proof. destruct w. reflexivity. Qed.

(** Items beyond the rendered ones: each gets a clone of the template,
    appended behind the children. *)
Lemma plainItems_append this var idx content proto :
  firstElementChild content = Some proto →
  ∀ items index nodes (w : Page St),
    (∀ e, Element e ∈ nodes → e < nextElem w) →
    let fresh := seq (nextElem w) (length items) in
    PhoebeFor.plainItems this var idx content items index
      (PhoebeFor.mkPlain nodes None) w
    = (with_nextElem (nextElem w + length items)
         (with_reg (assignContexts var idx fresh items index (reg w)) w),
       Ok (PhoebeFor.mkPlain (nodes ++ map Element fresh) None)).
Proof.
  intros Hproto. induction items as [|item rest IH];
    intros index nodes w Hbound; simpl.
  - unfold ret. rewrite app_nil_r, Nat.add_0_r. f_equal.
    rewrite (page_eta w) at 1. reflexivity.
  - unfold PhoebeFor.cloneFirstElement. rewrite Hproto.
    unfold bind at 1. unfold bind at 1. unfold bind at 1. simpl.
    rewrite removeChild_absent
      by (intros Hin; specialize (Hbound _ Hin); lia).
    rewrite IH.
    + simpl. f_equal.
      * unfold with_nextElem, with_reg. simpl. f_equal. lia.
      * rewrite <- app_assoc. reflexivity.
    + simpl. intros e He. apply elem_of_app in He as [He|He].
      * specialize (Hbound _ He). lia.
      * apply list_elem_of_singleton in He. injection He as ->. lia.
Qed.

(** The loop over the items, from the rendered item elements [rem] that
    are still ahead: they are overwritten in order, further items are
    appended as clones, and the current element ends at the first
    rendered element without an item. *)
Lemma plainItems_spec this var idx content proto :
  firstElementChild content = Some proto →
  ∀ items index rem pre (w : Page St),
    NoDup rem →
    (∀ e, e ∈ rem → Element e ∉ pre) →
    (∀ e, Element e ∈ pre ++ map Element rem → e < nextElem w) →
    let m := length items in
    let fresh := seq (nextElem w) (m - length rem) in
    PhoebeFor.plainItems this var idx content items index
      (PhoebeFor.mkPlain (pre ++ map Element rem) (head rem)) w
    = (with_nextElem (nextElem w + (m - length rem))
         (with_reg (assignContexts var idx (take m rem ++ fresh) items index
                      (reg w)) w),
       Ok (PhoebeFor.mkPlain
             (pre ++ map Element (take m rem ++ fresh)
                  ++ map Element (drop m rem))
             (head (drop m rem)))).
Proof.
  intros Hproto. induction items as [|item rest IH];
    intros index rem pre w Hnd Hpre Hbound.
  - simpl. unfold ret. rewrite Nat.add_0_r. f_equal. exact (page_eta w).
  - destruct rem as [|e rem].
    + pose proof (plainItems_append this var idx content proto Hproto
                    (item :: rest) index (pre ++ map Element []) w Hbound)
        as Happ.
      simpl in Happ. simpl. rewrite Happ. simpl.
      rewrite !app_nil_r. reflexivity.
    + simpl. unfold bind at 1. unfold bind at 1. simpl.
      apply NoDup_cons in Hnd as [Hnin Hnd].
      rewrite nextElementSibling_found by (apply Hpre; left).
      rewrite firstElementChild_elements.
      replace (pre ++ Element e :: map Element rem)
        with ((pre ++ [Element e]) ++ map Element rem)
        by (rewrite <- app_assoc; reflexivity).
      rewrite IH.
      * simpl. f_equal. rewrite <- !app_assoc. reflexivity.
      * exact Hnd.
      * intros e' He' Hin. apply elem_of_app in Hin as [Hin|Hin].
        -- apply (Hpre e'); [right; exact He'|exact Hin].
        -- apply list_elem_of_singleton in Hin. injection Hin as ->.
           contradiction.
      * simpl. intros e' He'. apply Hbound.
        rewrite <- app_assoc in He'. exact He'.
Qed.

(** The pruning loop removes the rendered elements that are left. *)
Lemma prunePlain_spec (rem : list Elem) :
  ∀ n pre (w : Page St),
    NoDup rem →
    (∀ e, e ∈ rem → Element e ∉ pre) →
    length rem ≤ n →
    PhoebeFor.prunePlain n (head rem) (pre ++ map Element rem) w = (w, Ok pre).
Proof.
  induction rem as [|e rem IH]; intros n pre w Hnd Hpre Hn.
  - destruct n; simpl; rewrite app_nil_r; reflexivity.
  - destruct n as [|n]; [simpl in Hn; lia|]. simpl.
    apply NoDup_cons in Hnd as [Hnin Hnd].
    rewrite nextElementSibling_found by (apply Hpre; left).
    rewrite firstElementChild_elements.
    rewrite removeChild_app. simpl.
    rewrite bool_decide_eq_true_2 by reflexivity. simpl.
    rewrite (removeChild_absent e pre) by (apply Hpre; left).
    fold (removeChild e (map Element rem)).
    rewrite (removeChild_absent e (map Element rem))
      by (rewrite elem_of_map_Element; exact Hnin).
    apply IH; [exact Hnd| |simpl in Hn; lia].
    intros e' He'. apply Hpre. right. exact He'.
Qed.

Lemma assignContexts_other var idx e :
  ∀ els items index (rg : gmap Elem regEntry),
    e ∉ els →
    registry (assignContexts var idx els items index rg) e = registry rg e.
Proof.
  induction els as [|e' els IH]; intros items index rg Hnin; [reflexivity|].
  destruct items as [|item items]; [reflexivity|]. simpl.
  apply not_elem_of_cons in Hnin as [Hne Hnin].
  rewrite IH by exact Hnin. apply registry_update_ne. congruence.
Qed.

(** After the loop the [i]-th item element carries the context of the
    [i]-th item. *)
Lemma assignContexts_lookup var idx :
  ∀ els items index (rg : gmap Elem regEntry) i e item,
    NoDup els →
    els !! i = Some e → items !! i = Some item →
    loopContextValue (registry (assignContexts var idx els items index rg) e)
    = Some (PhoebeFor.loopContext var idx item (index + i)).
Proof.
  induction els as [|e' els IH]; intros items index rg i e item Hnd He Hitem.
  - rewrite lookup_nil in He. discriminate.
  - destruct items as [|item' items]; [rewrite lookup_nil in Hitem; discriminate|].
    apply NoDup_cons in Hnd as [Hnin Hnd]. simpl.
    destruct i as [|i]; simpl in He, Hitem.
    + injection He as ->. injection Hitem as ->.
      rewrite assignContexts_other by exact Hnin.
      rewrite registry_update_eq, Nat.add_0_r. reflexivity.
    + rewrite (IH items (Datatypes.S index) _ i e item Hnd He Hitem).
      f_equal. f_equal. lia.
Qed.

Lemma loopContext_index var name item i :
  name ≠ "" →
  PhoebeFor.loopContext var (Some name) item i !! name
  = Some (VNum (Z.of_nat i)).
Proof.
  intros Hname. unfold PhoebeFor.loopContext. simpl.
  assert (Hne : negb (String.eqb name "") = true).
  { apply negb_true_iff, String.eqb_neq. exact Hname. }
  rewrite Hne. apply lookup_insert_eq.
Qed.

End UnkeyedFacts.

Section UnkeyedClaim.

Context {St : Type}.
Variable newFunction : list string → string → result (@compiled St).
Variable iterate : St → value → option (list value).

Lemma ensureIterable_preserves v (w : Page St) :
  let w1 := fst (PhoebeFor.ensureIterable iterate v w) in
  reg w1 = reg w ∧ attributes w1 = attributes w ∧ nextElem w1 = nextElem w.
Proof.
  unfold PhoebeFor.ensureIterable, bind, console_log, ret, throw.
  repeat (case_match; simplify_eq/=; auto).
Qed.

Lemma bind_ok {A B} (m : M St A) (k : A → M St B) w w1 a :
  m w = (w1, Ok a) → bind m k w = k a w1.
Proof. intros H. unfold bind. rewrite H. reflexivity. Qed.

Lemma bind_getAttribute {B} this name (k : option string → M St B) w :
  bind (getAttribute this name) k w
  = k (assoc name (default [] (attributes w !! this))) w.
Proof. reflexivity. Qed.

Lemma bind_hasAttribute {B} this name (k : bool → M St B) w :
  bind (hasAttribute this name) k w
  = k (bool_decide (is_Some (assoc name (default [] (attributes w !! this)))))
      w.
Proof. reflexivity. Qed.

Lemma init_done this (c : Children) (w : Page St) t rest content :
  childNodes c = Element t :: rest →
  templates c !! t = Some ("for", content) →
  PhoebeFor.init this c w = (w, Ok c).
Proof.
  intros Hkids Htmpl.
  unfold PhoebeFor.init, PhoebeFor.isInitDone, firstChildRole.
  rewrite Hkids, Htmpl. reflexivity.
Qed.

(** C7. Unkeyed-loop reconciliation.  For an initialized loop without a
    [key] attribute whose rendered item elements are [es], and an iterable
    that yields [items]: [render] overwrites the context of the rendered
    elements in DOM order, appends a clone of the template for every item
    beyond them, removes the rendered elements beyond the items, and
    leaves exactly one element per item, the [i]-th carrying the context of
    the [i]-th item, whose index entry is [i]. *)
Theorem unkeyed_reconciliation this sc (c : Children) kEls t content proto es
    (w w1 w2 : Page St) iterObj items :
  childNodes c = Element t :: map Element es →
  templates c !! t = Some ("for", content) →
  firstElementChild content = Some proto →
  NoDup (t :: es) →
  (∀ e, e ∈ t :: es → e < nextElem w) →
  assoc "key" (default [] (attributes w !! this)) = None →
  js_get newFunction
    (attr_str (assoc "in" (default [] (attributes w !! this)))) sc this w
  = (w1, Ok iterObj) →
  PhoebeFor.ensureIterable iterate iterObj w1 = (w2, Ok items) →
  let var := assoc "var" (default [] (attributes w !! this)) in
  let idx := assoc "index" (default [] (attributes w !! this)) in
  let m := length items in
  let itemEls := take m es ++ seq (nextElem w) (m - length es) in
  ∃ w',
    PhoebeFor.render newFunction iterate this sc (PhoebeFor.mkForEl c kEls) w
    = (w', Ok (PhoebeFor.mkForEl
                 (mkChildren (Element t :: map Element itemEls) (templates c))
                 kEls))
    ∧ length itemEls = m
    ∧ nextElem w' = nextElem w + (m - length es)
    ∧ ∀ i item e,
        items !! i = Some item → itemEls !! i = Some e →
        loopContextValue (registry (reg w') e)
        = Some (PhoebeFor.loopContext var idx item i)
        ∧ ∀ name, idx = Some name → name ≠ "" →
                  PhoebeFor.loopContext var idx item i !! name
                  = Some (VNum (Z.of_nat i)).
Proof.
  intros Hkids Htmpl Hproto Hnd Hbound Hkey Hget Hiter var idx m itemEls.
  pose proof (js_get_preserves newFunction
                (attr_str (assoc "in" (default [] (attributes w !! this))))
                sc this w) as Hp1.
  rewrite Hget in Hp1. simpl in Hp1.
  destruct Hp1 as (Hreg1 & Hattr1 & _ & Hnext1 & _).
  pose proof (ensureIterable_preserves iterObj w1) as Hp2.
  rewrite Hiter in Hp2. simpl in Hp2. destruct Hp2 as (Hreg2 & Hattr2 & Hnext2).
  apply NoDup_cons in Hnd as [Ht Hnd].
  assert (Hpre : ∀ e, e ∈ es → Element e ∉ [Element t]).
  { intros e He Hin. apply list_elem_of_singleton in Hin.
    injection Hin as ->. contradiction. }
  assert (Hbound2 : ∀ e, Element e ∈ [Element t] ++ map Element es →
                         e < nextElem w2).
  { intros e He. rewrite Hnext2, Hnext1. apply Hbound. simpl in He.
    apply elem_of_cons in He as [He|He].
    - injection He as ->. left.
    - right. apply elem_of_map_Element. exact He. }
  pose proof (plainItems_spec this var idx content proto Hproto
                items 0 es [Element t] w2 Hnd Hpre Hbound2) as Hloop.
  cbv zeta in Hloop. rewrite Hnext2, Hnext1, Hreg2, Hreg1 in Hloop.
  fold m in Hloop. fold itemEls in Hloop.
  assert (Htd : NoDup (take m es) ∧ (∀ x, x ∈ take m es → x ∉ drop m es)
                ∧ NoDup (drop m es))
    by (apply NoDup_app; rewrite take_drop; exact Hnd).
  destruct Htd as (Hndt & Hdis & Hndd).
  pose proof (subseteq_drop m es) as Hdropin.
  pose proof (subseteq_take m es) as Htakein.
  assert (Hprune : ∀ w' : Page St, PhoebeFor.prunePlain
                       (Datatypes.S (length ([Element t] ++ map Element itemEls
                                               ++ map Element (drop m es))))
                       (head (drop m es))
                       (([Element t] ++ map Element itemEls)
                          ++ map Element (drop m es)) w'
                     = (w', Ok ([Element t] ++ map Element itemEls))).
  { intros w'. apply prunePlain_spec.
    - exact Hndd.
    - intros e He Hin. simpl in Hin. apply elem_of_cons in Hin as [Hin|Hin].
      + injection Hin as ->. apply Ht, Hdropin. exact He.
      + apply elem_of_map_Element in Hin.
        unfold itemEls in Hin. apply elem_of_app in Hin as [Hin|Hin].
        * exact (Hdis e Hin He).
        * apply elem_of_seq in Hin.
          assert (e < nextElem w) by (apply Hbound; right; apply Hdropin, He).
          lia.
    - rewrite !length_app, !length_map. lia. }
  eexists. split; [|split; [|split]].
  - unfold PhoebeFor.render.
    rewrite (bind_ok _ _ _ _ _ (init_done this c w _ _ _ Hkids Htmpl)).
    unfold firstChildTemplate. rewrite Hkids, Htmpl.
    rewrite !bind_getAttribute, bind_hasAttribute, Hkey.
    rewrite (bind_ok _ _ _ _ _ Hget), (bind_ok _ _ _ _ _ Hiter).
    cbn [bool_decide decide_rel is_Some_dec option_eq_None_dec].
    fold var. fold idx.
    replace (nextElementSibling t (Element t :: map Element es))
      with (head es)
      by (simpl; rewrite bool_decide_eq_true_2 by reflexivity;
          symmetry; apply firstElementChild_elements).
    change (Element t :: map Element es) with ([Element t] ++ map Element es).
    rewrite (bind_ok _ _ _ _ _ Hloop).
    cbn [PhoebeFor.p_nodes PhoebeFor.p_currentEl].
    rewrite (app_assoc [Element t]).
    rewrite (bind_ok _ _ _ _ _ (Hprune _)).
    reflexivity.
  - unfold itemEls. rewrite length_app, length_take, length_seq. lia.
  - simpl. reflexivity.
  - intros i item e Hitem He. split.
    + simpl.
      apply (assignContexts_lookup var idx itemEls items 0 (reg w) i e item);
        [|exact He|exact Hitem].
      unfold itemEls. apply NoDup_app. split; [exact Hndt|].
      split; [|apply NoDup_seq].
      intros x Hx Hseq. apply elem_of_seq in Hseq.
      assert (x < nextElem w) by (apply Hbound; right; apply Htakein, Hx).
      lia.
    + intros name Hname Hne. rewrite Hname. apply loopContext_index. exact Hne.
Qed.

End UnkeyedClaim.

(** The loop of the example page rendered with [[1, 2, 3]] and then with
    [[1, 2]]: two item elements are left, with the indices [0] and [1]. *)
Lemma unkeyed_reconciliation_witness :
  let r := renderTwice (loopPage [VNum 1; VNum 2; VNum 3])
                       (ambient (loopPage [VNum 1; VNum 2])) loopEl in
  (childNodes ∘ PhoebeFor.children <$>
     match snd (fst r) with Ok el => Some el | _ => None end)
  = Some [Element 100; Element 101; Element 102; Element 103]
  ∧ ∃ w' : Page Host.state,
      snd r = (w', Ok (PhoebeFor.mkForEl
                         (mkChildren [Element 100; Element 101; Element 102]
                            {[ 100 := ("for",
                                       [Text " "; Element 50; Text " "]) ]})
                         None))
      ∧ nextElem w' = 104
      ∧ loopContextValue (registry (reg w') 101)
        = Some {[ "x" := VNum 1; "i" := VNum 0 ]}
      ∧ loopContextValue (registry (reg w') 102)
        = Some {[ "x" := VNum 2; "i" := VNum 1 ]}.
Proof.
  intros r. split; [vm_compute; reflexivity|].
  set (w := with_ambient (ambient (loopPage [VNum 1; VNum 2]))
              (fst (fst r))).
  set (c := mkChildren [Element 100; Element 101; Element 102; Element 103]
              {[ 100 := ("for", [Text " "; Element 50; Text " "]) ]}).
  assert (Hr : snd r = PhoebeFor.render Host.newFunction Host.iterate 1 ∅
                         (PhoebeFor.mkForEl c None) w)
    by (vm_compute; reflexivity).
  destruct (unkeyed_reconciliation Host.newFunction Host.iterate 1 ∅ c None
              100 [Text " "; Element 50; Text " "] 50 [101; 102; 103]
              w (fst (js_get Host.newFunction "xs" ∅ 1 w))
              (fst (js_get Host.newFunction "xs" ∅ 1 w))
              (VRef 0) [VNum 1; VNum 2])
    as (w' & Hrender & _ & Hnext & Hctx).
  - reflexivity.
  - reflexivity.
  - reflexivity.
  - apply (@bool_decide_unpack (NoDup [100; 101; 102; 103]) _).
    vm_compute. reflexivity.
  - apply Forall_forall. vm_compute. repeat constructor.
  - vm_compute. reflexivity.
  - vm_compute. reflexivity.
  - vm_compute. reflexivity.
  - exists w'. split; [rewrite Hr; exact Hrender|]. split; [exact Hnext|].
    split.
    + destruct (Hctx 0 (VNum 1) 101 eq_refl eq_refl) as [H _]. exact H.
    + destruct (Hctx 1 (VNum 2) 102 eq_refl eq_refl) as [H _]. exact H.
Defined.

(** ** The keyed loop *)

Section KeyedFacts.

Context {St : Type}.
Variable newFunction : list string → string → result (@compiled St).
Variable iterate : St → value → option (list value).

Lemma bind_inv {A B} (m : M St A) (k : A → M St B) w w' b :
  bind m k w = (w', Ok b) →
  ∃ w1 a, m w = (w1, Ok a) ∧ k a w1 = (w', Ok b).
Proof.
  unfold bind. destruct (m w) as [w1 [a|e|]]; intros H; try discriminate.
  exists w1, a. split; [reflexivity|exact H].
Qed.



Lemma map_get_set_eq key el (m : list (value * option Elem)) :
  PhoebeFor.map_get key (PhoebeFor.map_set key el m) = Some el.
Proof.
  induction m as [|[k x] m IH]; simpl.
  - rewrite bool_decide_eq_true_2 by reflexivity. reflexivity.
  - destruct (decide (k = key)) as [->|Hne].
    + rewrite bool_decide_eq_true_2 by reflexivity. simpl.
      rewrite bool_decide_eq_true_2 by reflexivity. reflexivity.
    + rewrite bool_decide_eq_false_2 by exact Hne. simpl.
      rewrite bool_decide_eq_false_2 by exact Hne. exact IH.
Qed.

Lemma map_get_set_ne key key' el (m : list (value * option Elem)) :
  key ≠ key' →
  PhoebeFor.map_get key' (PhoebeFor.map_set key el m) = PhoebeFor.map_get key' m.
Proof.
  intros Hne. induction m as [|[k x] m IH]; simpl.
  - rewrite bool_decide_eq_false_2 by exact Hne. reflexivity.
  - destruct (decide (k = key)) as [->|Hk].
    + rewrite bool_decide_eq_true_2 by reflexivity. simpl.
      rewrite bool_decide_eq_false_2 by exact Hne. reflexivity.
    + rewrite bool_decide_eq_false_2 by exact Hk. simpl.
      destruct (bool_decide (k = key')); [reflexivity|exact IH].
Qed.

Lemma map_get_elem_of key el (m : list (value * option Elem)) :
  PhoebeFor.map_get key m = Some el → (key, el) ∈ m.
Proof.
  induction m as [|[k x] m IH]; simpl; [discriminate|].
  destruct (decide (k = key)) as [->|Hne].
  - rewrite bool_decide_eq_true_2 by reflexivity. intros [= ->]. left.
  - rewrite bool_decide_eq_false_2 by exact Hne. intros H. right. auto.
Qed.


Lemma set_add_value_elem key key' (s : list value) :
  key' ∈ PhoebeFor.set_add_value key s ↔ key' ∈ s ∨ key' = key.
Proof.
  unfold PhoebeFor.set_add_value. destruct (decide (key ∈ s)) as [Hin|Hnin].
  - rewrite bool_decide_eq_true_2 by exact Hin. split; [auto|].
    intros [H| ->]; assumption.
  - rewrite bool_decide_eq_false_2 by exact Hnin.
    rewrite elem_of_app, list_elem_of_singleton. reflexivity.
Qed.



End KeyedFacts.

Section KeyedClaim.

Context {St : Type}.
Variable newFunction : list string → string → result (@compiled St).
Variable iterate : St → value → option (list value).



End KeyedClaim.



(** C4, as stated, fails where the value written is the current one and
    yet not strictly equal to what the target holds.  Reading [state.a]
    returns the wrapper [5] of the object [1]; writing it back,
    [state.a = state.a], compares it with the raw object [1] and schedules
    a render.  Writing [NaN] over [NaN] schedules one as well. *)
Lemma writing_back_current_value_schedules :
  (∃ st1,
      obj_get 8 exampleState 4 "a" = Some (st1, VRef 5)
      ∧ sched st1 = idle
      ∧ (sched <$> obj_set exampleTree 0 8 st1 4 "a" (VRef 5))
        = Some (mkSched [0] 1 []))
  ∧ obj_get 8 nanState 4 "n" = Some (nanState, VNaN)
  ∧ (sched <$> obj_set exampleTree 0 8 nanState 4 "n" VNaN)
    = Some (mkSched [0] 1 []).
Proof.
  split; [eexists; split; [vm_compute; reflexivity|]|];
    vm_compute; repeat split; reflexivity.
Qed.

(** ** The cache of compiled snippets *)

Section JsCache.

Context {St : Type}.
Variable newFunction : list string → string → result (@compiled St).

Lemma call_jsCache (f : @compiled St) sc v this (w : Page St) :
  jsCache (fst (call f sc v this w)) = jsCache w.
Proof. unfold call. destruct (f (ambient w) sc v this). reflexivity. Qed.

(** On a cache hit nothing is compiled: the cached function is called. *)
Lemma get_body_hit expr sc this (w : Page St) f :
  jsCache w !! ("get:" +:+ expr) = Some f →
  get_body newFunction expr sc this w = call f sc VUndefined this w.
Proof.
  intros Hf. unfold get_body, bind, cache_has, cache_get, ret.
  rewrite Hf. rewrite bool_decide_eq_true_2 by (eexists; reflexivity).
  rewrite Hf. reflexivity.
Qed.

Lemma set_body_hit expr v sc this (w : Page St) f :
  jsCache w !! ("set:" +:+ expr) = Some f →
  set_body newFunction expr v sc this w
  = bind (call f sc v this) (fun _ => ret tt) w.
Proof.
  intros Hf. unfold set_body, bind, cache_has, cache_get, ret.
  rewrite Hf. rewrite bool_decide_eq_true_2 by (eexists; reflexivity).
  rewrite Hf. reflexivity.
Qed.

Lemma exec_body_hit expr sc this (w : Page St) f :
  jsCache w !! ("exec:" +:+ expr) = Some f →
  exec_body newFunction expr sc this w
  = bind (call f sc VUndefined this) (fun _ => ret tt) w.
Proof.
  intros Hf. unfold exec_body, bind, cache_has, cache_get, ret.
  rewrite Hf. rewrite bool_decide_eq_true_2 by (eexists; reflexivity).
  rewrite Hf. reflexivity.
Qed.

(** On a miss the snippet is compiled, stored, and then called; a snippet
    that does not compile leaves the cache as it was. *)
Lemma get_body_miss expr sc this (w : Page St) :
  jsCache w !! ("get:" +:+ expr) = None →
  get_body newFunction expr sc this w
  = match newFunction ["state"; "scope"]
            ("with(state){ with(scope){ return (" +:+ expr +:+ ") } }") with
    | Ok f => call f sc VUndefined this
                (with_jsCache (<["get:" +:+ expr := f]> (jsCache w)) w)
    | Throw e => (w, Throw e)
    | OutOfFuel => (w, OutOfFuel)
    end.
Proof.
  intros Hf. unfold get_body, bind, cache_has, cache_get, cache_set, compile, ret.
  rewrite Hf. rewrite bool_decide_eq_false_2 by (intros [? ?]; discriminate).
  destruct (newFunction _ _) as [f|e|]; try reflexivity.
  simpl. rewrite lookup_insert_eq. reflexivity.
Qed.

Lemma set_body_miss expr v sc this (w : Page St) :
  jsCache w !! ("set:" +:+ expr) = None →
  set_body newFunction expr v sc this w
  = match newFunction ["state"; "scope"; "value"]
            ("with(state) { with(scope){ " +:+ expr +:+ " = value } }") with
    | Ok f => bind (call f sc v this) (fun _ => ret tt)
                (with_jsCache (<["set:" +:+ expr := f]> (jsCache w)) w)
    | Throw e => (w, Throw e)
    | OutOfFuel => (w, OutOfFuel)
    end.
Proof.
  intros Hf. unfold set_body, bind, cache_has, cache_get, cache_set, compile, ret.
  rewrite Hf. rewrite bool_decide_eq_false_2 by (intros [? ?]; discriminate).
  destruct (newFunction _ _) as [f|e|]; try reflexivity.
  simpl. rewrite lookup_insert_eq. reflexivity.
Qed.

Lemma exec_body_miss expr sc this (w : Page St) :
  jsCache w !! ("exec:" +:+ expr) = None →
  exec_body newFunction expr sc this w
  = match newFunction ["state"; "scope"]
            ("with(state){ with(scope){ " +:+ expr +:+ " } }") with
    | Ok f => bind (call f sc VUndefined this) (fun _ => ret tt)
                (with_jsCache (<["exec:" +:+ expr := f]> (jsCache w)) w)
    | Throw e => (w, Throw e)
    | OutOfFuel => (w, OutOfFuel)
    end.
Proof.
  intros Hf. unfold exec_body, bind, cache_has, cache_get, cache_set, compile, ret.
  rewrite Hf. rewrite bool_decide_eq_false_2 by (intros [? ?]; discriminate).
  destruct (newFunction _ _) as [f|e|]; try reflexivity.
  simpl. rewrite lookup_insert_eq. reflexivity.
Qed.

(** The cache after one evaluation: as before on a hit or a failed
    compilation, with the compiled function added on a miss. *)
Lemma js_get_cache expr sc this (w : Page St) :
  jsCache (fst (js_get newFunction expr sc this w))
  = match jsCache w !! ("get:" +:+ expr),
          newFunction ["state"; "scope"]
            ("with(state){ with(scope){ return (" +:+ expr +:+ ") } }") with
    | None, Ok f => <["get:" +:+ expr := f]> (jsCache w)
    | _, _ => jsCache w
    end.
Proof.
  rewrite js_get_unfold.
  destruct (jsCache w !! ("get:" +:+ expr)) as [f|] eqn:Hf.
  - rewrite (get_body_hit _ _ _ _ _ Hf).
    pose proof (call_jsCache f sc VUndefined this w) as Hc.
    destruct (call f sc VUndefined this w) as [w1 [a|e|]]; exact Hc.
  - rewrite (get_body_miss _ _ _ _ Hf).
    destruct (newFunction _ _) as [f|e|]; try reflexivity.
    pose proof (call_jsCache f sc VUndefined this
                  (with_jsCache (<["get:" +:+ expr := f]> (jsCache w)) w)) as Hc.
    destruct (call f sc VUndefined this _) as [w1 [a|e|]]; exact Hc.
Qed.

Lemma js_set_cache expr v sc this (w : Page St) :
  jsCache (fst (js_set newFunction expr v sc this w))
  = match jsCache w !! ("set:" +:+ expr),
          newFunction ["state"; "scope"; "value"]
            ("with(state) { with(scope){ " +:+ expr +:+ " = value } }") with
    | None, Ok f => <["set:" +:+ expr := f]> (jsCache w)
    | _, _ => jsCache w
    end.
Proof.
  rewrite js_set_unfold.
  destruct (jsCache w !! ("set:" +:+ expr)) as [f|] eqn:Hf.
  - rewrite (set_body_hit _ _ _ _ _ _ Hf). unfold bind, ret.
    pose proof (call_jsCache f sc v this w) as Hc.
    destruct (call f sc v this w) as [w1 [a|e|]]; exact Hc.
  - rewrite (set_body_miss _ _ _ _ _ Hf).
    destruct (newFunction _ _) as [f|e|]; try reflexivity.
    unfold bind, ret.
    pose proof (call_jsCache f sc v this
                  (with_jsCache (<["set:" +:+ expr := f]> (jsCache w)) w)) as Hc.
    destruct (call f sc v this _) as [w1 [a|e|]]; exact Hc.
Qed.

Lemma js_exec_cache expr sc this (w : Page St) :
  jsCache (fst (js_exec newFunction expr sc this w))
  = match jsCache w !! ("exec:" +:+ expr),
          newFunction ["state"; "scope"]
            ("with(state){ with(scope){ " +:+ expr +:+ " } }") with
    | None, Ok f => <["exec:" +:+ expr := f]> (jsCache w)
    | _, _ => jsCache w
    end.
Proof.
  rewrite js_exec_unfold.
  destruct (jsCache w !! ("exec:" +:+ expr)) as [f|] eqn:Hf.
  - rewrite (exec_body_hit _ _ _ _ _ Hf). unfold bind, ret.
    pose proof (call_jsCache f sc VUndefined this w) as Hc.
    destruct (call f sc VUndefined this w) as [w1 [a|e|]]; exact Hc.
  - rewrite (exec_body_miss _ _ _ _ Hf).
    destruct (newFunction _ _) as [f|e|]; try reflexivity.
    unfold bind, ret.
    pose proof (call_jsCache f sc VUndefined this
                  (with_jsCache (<["exec:" +:+ expr := f]> (jsCache w)) w)) as Hc.
    destruct (call f sc VUndefined this _) as [w1 [a|e|]]; exact Hc.
Qed.

End JsCache.

Section JsCacheReuse.

Context {St : Type}.

(** With the snippet in the cache the compiler is not consulted. *)
Lemma js_get_hit_any (nf nf' : list string → string → result (@compiled St))
    expr sc this (w : Page St) :
  is_Some (jsCache w !! ("get:" +:+ expr)) →
  js_get nf' expr sc this w = js_get nf expr sc this w.
Proof.
  intros [f Hf]. rewrite !js_get_unfold, !(get_body_hit _ _ _ _ _ _ Hf).
  reflexivity.
Qed.

Lemma js_set_hit_any (nf nf' : list string → string → result (@compiled St))
    expr v sc this (w : Page St) :
  is_Some (jsCache w !! ("set:" +:+ expr)) →
  js_set nf' expr v sc this w = js_set nf expr v sc this w.
Proof.
  intros [f Hf]. rewrite !js_set_unfold, !(set_body_hit _ _ _ _ _ _ _ Hf).
  reflexivity.
Qed.

Lemma js_exec_hit_any (nf nf' : list string → string → result (@compiled St))
    expr sc this (w : Page St) :
  is_Some (jsCache w !! ("exec:" +:+ expr)) →
  js_exec nf' expr sc this w = js_exec nf expr sc this w.
Proof.
  intros [f Hf]. rewrite !js_exec_unfold, !(exec_body_hit _ _ _ _ _ _ Hf).
  reflexivity.
Qed.

(** X1. Each snippet is compiled at most once per kind of use.  Once
    [js.get], [js.set] or [js.exec] has evaluated a snippet that compiles,
    whatever the call itself did, the compiled function is in the cache:
    every later evaluation of the same snippet, under any scope and on any
    element, gives the same outcome whatever the compiler would now
    answer, and leaves the cache as it is. *)
Theorem js_compiles_each_snippet_once
    (nf nf' : list string → string → result (@compiled St))
    expr v sc this v' sc' this' (w : Page St) :
  (is_Some (jsCache w !! ("get:" +:+ expr))
   ∨ (∃ f, nf ["state"; "scope"]
             ("with(state){ with(scope){ return (" +:+ expr +:+ ") } }")
           = Ok f) →
   let w1 := fst (js_get nf expr sc this w) in
   is_Some (jsCache w1 !! ("get:" +:+ expr))
   ∧ js_get nf' expr sc' this' w1 = js_get nf expr sc' this' w1
   ∧ jsCache (fst (js_get nf' expr sc' this' w1)) = jsCache w1)
  ∧ (is_Some (jsCache w !! ("set:" +:+ expr))
     ∨ (∃ f, nf ["state"; "scope"; "value"]
               ("with(state) { with(scope){ " +:+ expr +:+ " = value } }")
             = Ok f) →
     let w1 := fst (js_set nf expr v sc this w) in
     is_Some (jsCache w1 !! ("set:" +:+ expr))
     ∧ js_set nf' expr v' sc' this' w1 = js_set nf expr v' sc' this' w1
     ∧ jsCache (fst (js_set nf' expr v' sc' this' w1)) = jsCache w1)
  ∧ (is_Some (jsCache w !! ("exec:" +:+ expr))
     ∨ (∃ f, nf ["state"; "scope"]
               ("with(state){ with(scope){ " +:+ expr +:+ " } }")
             = Ok f) →
     let w1 := fst (js_exec nf expr sc this w) in
     is_Some (jsCache w1 !! ("exec:" +:+ expr))
     ∧ js_exec nf' expr sc' this' w1 = js_exec nf expr sc' this' w1
     ∧ jsCache (fst (js_exec nf' expr sc' this' w1)) = jsCache w1).
Proof.
  split; [|split]; intros Hc w1.
  - assert (Hin : is_Some (jsCache w1 !! ("get:" +:+ expr))).
    { unfold w1. rewrite js_get_cache.
      destruct (jsCache w !! ("get:" +:+ expr)) as [f|] eqn:Hf;
        [rewrite Hf; eexists; reflexivity|].
      destruct Hc as [[? ?]|[f Hnf]]; [discriminate|].
      rewrite Hnf, lookup_insert_eq. eexists. reflexivity. }
    split; [exact Hin|]. split; [apply js_get_hit_any; exact Hin|].
    rewrite js_get_cache. destruct Hin as [f ->]. reflexivity.
  - assert (Hin : is_Some (jsCache w1 !! ("set:" +:+ expr))).
    { unfold w1. rewrite js_set_cache.
      destruct (jsCache w !! ("set:" +:+ expr)) as [f|] eqn:Hf;
        [rewrite Hf; eexists; reflexivity|].
      destruct Hc as [[? ?]|[f Hnf]]; [discriminate|].
      rewrite Hnf, lookup_insert_eq. eexists. reflexivity. }
    split; [exact Hin|]. split; [apply js_set_hit_any; exact Hin|].
    rewrite js_set_cache. destruct Hin as [f ->]. reflexivity.
  - assert (Hin : is_Some (jsCache w1 !! ("exec:" +:+ expr))).
    { unfold w1. rewrite js_exec_cache.
      destruct (jsCache w !! ("exec:" +:+ expr)) as [f|] eqn:Hf;
        [rewrite Hf; eexists; reflexivity|].
      destruct Hc as [[? ?]|[f Hnf]]; [discriminate|].
      rewrite Hnf, lookup_insert_eq. eexists. reflexivity. }
    split; [exact Hin|]. split; [apply js_exec_hit_any; exact Hin|].
    rewrite js_exec_cache. destruct Hin as [f ->]. reflexivity.
Qed.

End JsCacheReuse.

(** A snippet that is a variable of the state, evaluated once with the
    example host and then with a compiler that refuses everything. *)
Lemma js_compiles_each_snippet_once_witness :
  let refuse : list string → string → result (@compiled Host.state) :=
    fun _ _ => Throw (SyntaxError "refused") in
  let w := Host.emptyPage (Host.mkState {[ "n" := VNum 7 ]} ∅ ∅) in
  let w1 := fst (js_get Host.newFunction "n" ∅ 0 w) in
  is_Some (jsCache w1 !! "get:n")
  ∧ js_get refuse "n" ∅ 1 w1 = js_get Host.newFunction "n" ∅ 1 w1
  ∧ jsCache (fst (js_get refuse "n" ∅ 1 w1)) = jsCache w1.
Proof.
  intros refuse w w1.
  destruct (js_compiles_each_snippet_once Host.newFunction refuse "n"
              VUndefined ∅ 0 VUndefined ∅ 1 w) as [Hget _].
  apply Hget. right. eexists. vm_compute. reflexivity.
Defined.

Section JsCacheGrows.

Context {St : Type}.
Variable newFunction : list string → string → result (@compiled St).

Lemma prefixed_ne (p q a b : string) c d :
  c ≠ d → String c p +:+ a ≠ String d q +:+ b.
Proof. intros Hne H. injection H as H _. contradiction. Qed.

(** X2. The cache only grows, one kind of use at a time.  An evaluation
    by [js.get], [js.set] or [js.exec] never replaces or drops a compiled
    function; the only entry it can add is the one of its own kind for the
    snippet at hand, so an assignment to a snippet or its execution leaves
    every function compiled for reading untouched, and the other way
    round; and a snippet that does not compile adds nothing, so the next
    evaluation compiles it again. *)
Theorem js_cache_only_grows expr v sc this (w : Page St) :
  let wg := fst (js_get newFunction expr sc this w) in
  let ws := fst (js_set newFunction expr v sc this w) in
  let wx := fst (js_exec newFunction expr sc this w) in
  (∀ k f, jsCache w !! k = Some f →
          jsCache wg !! k = Some f ∧ jsCache ws !! k = Some f
          ∧ jsCache wx !! k = Some f)
  ∧ (∀ k, k ≠ "get:" +:+ expr → jsCache wg !! k = jsCache w !! k)
  ∧ (∀ k, k ≠ "set:" +:+ expr → jsCache ws !! k = jsCache w !! k)
  ∧ (∀ k, k ≠ "exec:" +:+ expr → jsCache wx !! k = jsCache w !! k)
  ∧ (∀ e, jsCache ws !! ("get:" +:+ e) = jsCache w !! ("get:" +:+ e)
          ∧ jsCache wx !! ("get:" +:+ e) = jsCache w !! ("get:" +:+ e)
          ∧ jsCache wg !! ("set:" +:+ e) = jsCache w !! ("set:" +:+ e)
          ∧ jsCache wx !! ("set:" +:+ e) = jsCache w !! ("set:" +:+ e)
          ∧ jsCache wg !! ("exec:" +:+ e) = jsCache w !! ("exec:" +:+ e)
          ∧ jsCache ws !! ("exec:" +:+ e) = jsCache w !! ("exec:" +:+ e))
  ∧ (∀ e, jsCache w !! ("get:" +:+ expr) = None →
          newFunction ["state"; "scope"]
            ("with(state){ with(scope){ return (" +:+ expr +:+ ") } }")
          = Throw e →
          js_get newFunction expr sc this w
          = (logged LError "Phoebe.js: error executing js.get()" w, Throw e)
          ∧ jsCache wg = jsCache w).
Proof.
  intros wg ws wx.
  assert (Hg : ∀ k, k ≠ "get:" +:+ expr → jsCache wg !! k = jsCache w !! k).
  { intros k Hk. unfold wg. rewrite js_get_cache.
    destruct (jsCache w !! ("get:" +:+ expr)); [reflexivity|].
    destruct (newFunction _ _); try reflexivity.
    apply lookup_insert_ne. congruence. }
  assert (Hs : ∀ k, k ≠ "set:" +:+ expr → jsCache ws !! k = jsCache w !! k).
  { intros k Hk. unfold ws. rewrite js_set_cache.
    destruct (jsCache w !! ("set:" +:+ expr)); [reflexivity|].
    destruct (newFunction _ _); try reflexivity.
    apply lookup_insert_ne. congruence. }
  assert (Hx : ∀ k, k ≠ "exec:" +:+ expr → jsCache wx !! k = jsCache w !! k).
  { intros k Hk. unfold wx. rewrite js_exec_cache.
    destruct (jsCache w !! ("exec:" +:+ expr)); [reflexivity|].
    destruct (newFunction _ _); try reflexivity.
    apply lookup_insert_ne. congruence. }
  split; [|split; [exact Hg|split; [exact Hs|split; [exact Hx|split]]]].
  - intros k f Hk. split; [|split].
    + destruct (decide (k = "get:" +:+ expr)) as [->|Hne];
        [|rewrite Hg by exact Hne; exact Hk].
      unfold wg. rewrite js_get_cache, Hk. exact Hk.
    + destruct (decide (k = "set:" +:+ expr)) as [->|Hne];
        [|rewrite Hs by exact Hne; exact Hk].
      unfold ws. rewrite js_set_cache, Hk. exact Hk.
    + destruct (decide (k = "exec:" +:+ expr)) as [->|Hne];
        [|rewrite Hx by exact Hne; exact Hk].
      unfold wx. rewrite js_exec_cache, Hk. exact Hk.
  - intros e. repeat split;
      first [apply Hg|apply Hs|apply Hx]; apply prefixed_ne; discriminate.
  - intros e Hnone Hnf. split.
    + rewrite js_get_unfold, (get_body_miss _ _ _ _ _ Hnone), Hnf. reflexivity.
    + unfold wg. rewrite js_get_cache, Hnone, Hnf. reflexivity.
Qed.

End JsCacheGrows.

(** A compiler that refuses the snippet, asked twice: two error lines,
    and nothing cached. *)
Lemma js_cache_only_grows_witness :
  let refuse : list string → string → result (@compiled Host.state) :=
    fun _ _ => Throw (SyntaxError "Unexpected token") in
  let w := Host.emptyPage Host.emptyState in
  let w1 := fst (js_get refuse "1 +" ∅ 0 w) in
  js_get refuse "1 +" ∅ 0 w
  = (logged LError "Phoebe.js: error executing js.get()" w,
     Throw (SyntaxError "Unexpected token"))
  ∧ jsCache w1 = jsCache w
  ∧ console (fst (js_get refuse "1 +" ∅ 0 w1))
    = [(LError, "Phoebe.js: error executing js.get()");
       (LError, "Phoebe.js: error executing js.get()")].
Proof.
  intros refuse w w1.
  destruct (js_cache_only_grows refuse "1 +" VUndefined ∅ 0 w)
    as (_ & _ & _ & _ & _ & Hfail).
  destruct (Hfail (SyntaxError "Unexpected token") eq_refl eq_refl)
    as [Hr Hc].
  split; [exact Hr|]. split; [exact Hc|]. vm_compute. reflexivity.
Defined.

(** ** Wrappers and the objects behind them *)

Section WrapperFacts.

Lemma instanceClass_mono h :
  ∀ fuel r c, instanceClass fuel h r = Some c →
              instanceClass (Datatypes.S fuel) h r = Some c.
Proof.
  induction fuel as [|fuel IH]; intros r c H.
  - simpl in *. destruct (lookupObj h r); [exact H|discriminate].
  - change (instanceClass (Datatypes.S (Datatypes.S fuel)) h r)
      with (match lookupObj h r with
            | Ordinary c _ => Some c
            | ProxyOf t => instanceClass (Datatypes.S fuel) h t
            end).
    simpl in H. destruct (lookupObj h r); [exact H|]. apply IH. exact H.
Qed.

(** A proxy shows the class of its target. *)
Lemma instanceClass_of_proxy h fuel p t c :
  lookupObj h p = ProxyOf t → instanceClass fuel h p = Some c →
  instanceClass fuel h t = Some c.
Proof.
  intros Hp H. destruct fuel as [|fuel]; simpl in H; rewrite Hp in H;
    [discriminate|].
  apply instanceClass_mono. exact H.
Qed.

(** What [wrap] returns for an object, case by case. *)
Lemma wrap_ref_inv fuel st r st' v' :
  wrap fuel (VRef r) st = Some (st', v') →
  ∃ c, instanceClass fuel (heap st) r = Some c
       ∧ (((c = CDate ∨ c = CRegExp) ∧ st' = st ∧ v' = VRef r)
          ∨ ((c = CObject ∨ c = CArray)
             ∧ ((∃ p, proxies st !! r = Some p ∧ st' = st ∧ v' = VRef p)
                ∨ (proxies st !! r = None
                   ∧ st' = mkReactive (<[nextRef st := ProxyOf r]> (heap st))
                                      (<[r := nextRef st]> (proxies st))
                                      (Datatypes.S (nextRef st)) (sched st)
                   ∧ v' = VRef (nextRef st))))).
Proof.
  simpl. destruct (instanceClass fuel (heap st) r) as [c|]; [|discriminate].
  intros H. exists c. split; [reflexivity|].
  destruct c; try (injection H as <- <-; left; auto; fail);
    right; (split; [auto|]);
    destruct (proxies st !! r) as [p|]; injection H as <- <-; eauto.
Qed.

(** If [wrap] returns the same result for two values, one after the
    other, the two values are the same. *)
Lemma wrap_same_result fuel st st1 st2 v1 v2 w :
  wellFormed st → validValue st v1 →
  wrap fuel v1 st = Some (st1, w) →
  wrap fuel v2 st1 = Some (st2, w) →
  v1 = v2.
Proof.
  intros Hwf Hv1 H1 H2.
  destruct (wrap_spec fuel st v1 st1 w Hwf Hv1 H1) as (Hwf1 & Hext & _ & _ & _).
  destruct v1 as [| | | | | | | |r].
  9: {
    apply wrap_ref_inv in H1 as (c & Hc & Hcases).
    simpl in Hv1.
    (* the wrapper [p] as the state [st1] has it *)
    assert (Hp : ∃ p, w = VRef p
              ∧ ((p = r ∧ st1 = st ∧ (c = CDate ∨ c = CRegExp))
                 ∨ (heap st1 !! p = Some (ProxyOf r) ∧ p < nextRef st1
                    ∧ (c = CObject ∨ c = CArray)))).
    { destruct Hcases as [(Hc' & -> & ->)|(Hc' & [(p & Hp & -> & ->)|(Hp & -> & ->)])].
      - exists r. split; [reflexivity|]. left. auto.
      - exists p. split; [reflexivity|]. right.
        pose proof (wf_cache st Hwf r p Hp) as Hheap.
        split; [exact Hheap|]. split; [|exact Hc'].
        eapply allocated_below; eassumption.
      - exists (nextRef st). split; [reflexivity|]. right. simpl.
        rewrite lookup_insert_eq. split; [reflexivity|]. split; [lia|exact Hc']. }
    destruct Hp as (p & -> & Hp).
    assert (Hc1 : instanceClass fuel (heap st1) r = Some c).
    { rewrite (instanceClass_extends fuel st st1 Hwf Hext) by exact Hv1.
      exact Hc. }
    destruct v2 as [| | | | | | | |r2]; try (simpl in H2; discriminate).
    apply wrap_ref_inv in H2 as (c2 & Hc2 & Hcases2).
    destruct Hcases2
      as [(Hd2 & _ & Hw)|(Ho2 & [(p' & Hp' & _ & Hw)|(Hp' & _ & Hw)])];
      injection Hw as Hw.
    - (* the second value is a date: it is its own wrapper *)
      subst r2. destruct Hp as [(-> & _ & _)|(Hheap & _ & Hobj)];
        [reflexivity|].
      exfalso.
      pose proof (instanceClass_of_proxy _ _ _ _ _
                    (lookupObj_Some _ _ _ Hheap) Hc2) as Hr.
      rewrite Hc1 in Hr. injection Hr as ->.
      destruct Hd2 as [-> | ->], Hobj as [? | ?]; discriminate.
    - (* the second value has a cached wrapper *)
      subst p'. pose proof (wf_cache st1 Hwf1 r2 p Hp') as Hheap2.
      destruct Hp as [(-> & -> & Hd)|(Hheap & _ & _)].
      + exfalso.
        pose proof (instanceClass_of_proxy _ _ _ _ _
                      (lookupObj_Some _ _ _ Hheap2) Hc) as Hr.
        rewrite Hc2 in Hr. injection Hr as ->.
        destruct Hd as [-> | ->], Ho2 as [? | ?]; discriminate.
      + rewrite Hheap in Hheap2. injection Hheap2 as ->. reflexivity.
    - (* the second value gets a new wrapper *)
      exfalso. destruct Hp as [(-> & -> & _)|(_ & Hlt & _)]; lia. }
  all: simpl in H1; injection H1 as <- <-;
    destruct v2 as [| | | | | | | |r2]; simpl in H2;
    try (injection H2; intros; congruence);
    apply wrap_ref_inv in H2 as (c2 & _ & Hcases2);
    destruct Hcases2 as [(_ & _ & Hw)|(_ & [(p' & _ & _ & Hw)|(_ & _ & Hw)])];
    discriminate.
Qed.

(** X3. Wrapping is faithful to identity.  On a well-formed state, when
    two values are wrapped one after the other, the results are the same
    value exactly when the two values are: different objects never share a
    wrapper, and one object never has two. *)
Theorem wrap_injective fuel st st1 st2 v1 v2 w1 w2 :
  wellFormed st → validValue st v1 →
  wrap fuel v1 st = Some (st1, w1) →
  wrap fuel v2 st1 = Some (st2, w2) →
  w1 = w2 ↔ v1 = v2.
Proof.
  intros Hwf Hv1 H1 H2. split.
  - intros <-. eapply wrap_same_result; eassumption.
  - intros <-.
    destruct (wrap_spec fuel st v1 st1 w1 Hwf Hv1 H1) as (_ & _ & _ & _ & Hst).
    rewrite (Hst st1 (extends_refl st1)) in H2. injection H2 as _ <-.
    reflexivity.
Qed.

End WrapperFacts.

(** On the example state: the objects [1] and [3] get the wrappers [5]
    and [6]. *)
Lemma wrap_injective_witness :
  ∃ st1 st2,
    wrap 8 (VRef 1) exampleState = Some (st1, VRef 5)
    ∧ wrap 8 (VRef 3) st1 = Some (st2, VRef 6)
    ∧ (VRef 5 = VRef 6 ↔ VRef 1 = VRef 3).
Proof.
  eexists. eexists.
  split; [vm_compute; reflexivity|]. split; [vm_compute; reflexivity|].
  eapply (wrap_injective 8 exampleState _ _ (VRef 1) (VRef 3) (VRef 5) (VRef 6)
            exampleState_wellFormed).
  - vm_compute. lia.
  - vm_compute. reflexivity.
  - vm_compute. reflexivity.
Defined.

(** ** Writes through wrappers *)

Section WriteFacts.

Variable parentElement : gmap Elem Elem.
Variable rootNode : Elem.

Lemma wellFormed_with_sched s st :
  wellFormed st → wellFormed (with_sched s st).
Proof. intros [H1 H2 H3 H4]. constructor; assumption. Qed.

Lemma scheduleRoot_inv fuel st st' :
  scheduleRoot parentElement rootNode fuel st = Some st' →
  ∃ s, st' = with_sched s st.
Proof.
  unfold scheduleRoot.
  destruct (schedule parentElement fuel rootNode (sched st)) as [s|];
    [|discriminate].
  intros [= <-]. eauto.
Qed.

(** Replacing the properties of an ordinary object by allocated values
    keeps the state well formed. *)
Lemma wellFormed_store st r c props props' :
  wellFormed st → r < nextRef st →
  lookupObj (heap st) r = Ordinary c props →
  (∀ k r', props' !! k = Some (VRef r') → r' < nextRef st) →
  wellFormed (with_heap (<[r := Ordinary c props']> (heap st)) st).
Proof.
  intros Hwf Hr Hobj Hprops. constructor; simpl.
  - intros r' Hr'. rewrite lookup_insert_ne by lia.
    apply (wf_fresh st Hwf). exact Hr'.
  - intros r0 c0 props0 k r' Hr0 Hk.
    destruct (decide (r = r0)) as [<-|Hne].
    + rewrite lookup_insert_eq in Hr0. injection Hr0 as <- <-.
      eapply Hprops. exact Hk.
    + rewrite lookup_insert_ne in Hr0 by exact Hne.
      eapply (wf_props st Hwf); eassumption.
  - intros p t Hp. destruct (decide (r = p)) as [<-|Hne].
    + rewrite lookup_insert_eq in Hp. discriminate.
    + rewrite lookup_insert_ne in Hp by exact Hne.
      apply (wf_target st Hwf). exact Hp.
  - intros t p Ht. pose proof (wf_cache st Hwf t p Ht) as Hp.
    rewrite lookup_insert_ne; [exact Hp|].
    intros <-. rewrite (lookupObj_Some _ _ _ Hp) in Hobj. discriminate.
Qed.

Lemma obj_set_wellFormed fuel :
  ∀ st r key v st',
    wellFormed st → r < nextRef st → validValue st v →
    obj_set parentElement rootNode fuel st r key v = Some st' →
    wellFormed st' ∧ nextRef st ≤ nextRef st'.
Proof.
  assert (Hord : ∀ fuel st r key v st' c props,
             wellFormed st → r < nextRef st → validValue st v →
             lookupObj (heap st) r = Ordinary c props →
             obj_set parentElement rootNode fuel st r key v = Some st' →
             wellFormed st' ∧ nextRef st ≤ nextRef st').
  { intros fuel' st r key v st' c props Hwf Hr Hv Hobj Hset.
    rewrite (obj_set_ordinary _ _ _ _ _ _ _ _ _ Hobj) in Hset.
    injection Hset as <-. split; [|simpl; lia].
    eapply wellFormed_store; try eassumption.
    intros k r' Hk. destruct (decide (key = k)) as [<-|Hne].
    - rewrite lookup_insert_eq in Hk. injection Hk as ->. exact Hv.
    - rewrite lookup_insert_ne in Hk by exact Hne.
      pose proof (ordinary_prop_valid st r c props k Hwf Hobj) as Hvalid.
      rewrite Hk in Hvalid. exact Hvalid. }
  induction fuel as [|fuel IH]; intros st r key v st' Hwf Hr Hv Hset;
    destruct (lookupObj (heap st) r) as [c props|t] eqn:Hobj;
    try (eapply Hord; eassumption);
    simpl in Hset; rewrite Hobj in Hset; [discriminate|].
  destruct (obj_get fuel st t key) as [[st1 old]|] eqn:Hget; [|discriminate].
  apply lookupObj_proxy in Hobj as Hheap.
  pose proof (wf_target st Hwf r t Hheap) as Ht.
  destruct (obj_get_spec fuel st t key st1 old Hwf ltac:(lia) Hget)
    as (Hwf1 & (Hn1 & _) & _).
  destruct (if strict_neq old v
            then scheduleRoot parentElement rootNode fuel st1
            else Some st1) as [st2|] eqn:Hsched; [|discriminate].
  assert (H2 : wellFormed st2 ∧ nextRef st2 = nextRef st1).
  { destruct (strict_neq old v).
    - apply scheduleRoot_inv in Hsched as [s ->].
      split; [apply wellFormed_with_sched; exact Hwf1|reflexivity].
    - injection Hsched as <-. auto. }
  destruct H2 as [Hwf2 Hn2].
  destruct (IH st2 t key v st' Hwf2 ltac:(lia)) as [Hwf' Hn']; [|exact Hset|].
  - destruct v; simpl in *; try exact I. lia.
  - split; [exact Hwf'|lia].
Qed.

Lemma obj_delete_wellFormed fuel :
  ∀ st r key st',
    wellFormed st → r < nextRef st →
    obj_delete parentElement rootNode fuel st r key = Some st' →
    wellFormed st' ∧ nextRef st' = nextRef st.
Proof.
  assert (Hord : ∀ fuel st r key st' c props,
             wellFormed st → r < nextRef st →
             lookupObj (heap st) r = Ordinary c props →
             obj_delete parentElement rootNode fuel st r key = Some st' →
             wellFormed st' ∧ nextRef st' = nextRef st).
  { intros fuel' st r key st' c props Hwf Hr Hobj Hdel.
    rewrite (obj_delete_ordinary _ _ _ _ _ _ _ _ Hobj) in Hdel.
    injection Hdel as <-. split; [|reflexivity].
    eapply wellFormed_store; try eassumption.
    intros k r' Hk. apply lookup_delete_Some in Hk as [_ Hk].
    pose proof (ordinary_prop_valid st r c props k Hwf Hobj) as Hvalid.
    rewrite Hk in Hvalid. exact Hvalid. }
  induction fuel as [|fuel IH]; intros st r key st' Hwf Hr Hdel;
    destruct (lookupObj (heap st) r) as [c props|t] eqn:Hobj;
    try (eapply Hord; eassumption);
    simpl in Hdel; rewrite Hobj in Hdel; [discriminate|].
  destruct (obj_has fuel st t key) as [hadKey|]; [|discriminate].
  apply lookupObj_proxy in Hobj as Hheap.
  pose proof (wf_target st Hwf r t Hheap) as Ht.
  destruct (if hadKey then scheduleRoot parentElement rootNode fuel st
            else Some st) as [st1|] eqn:Hsched; [|discriminate].
  assert (H1 : wellFormed st1 ∧ nextRef st1 = nextRef st).
  { destruct hadKey.
    - apply scheduleRoot_inv in Hsched as [s ->].
      split; [apply wellFormed_with_sched; exact Hwf|reflexivity].
    - injection Hsched as <-. auto. }
  destruct H1 as [Hwf1 Hn1].
  destruct (IH st1 t key st' Hwf1 ltac:(lia) Hdel) as [Hwf' Hn'].
  split; [exact Hwf'|lia].
Qed.

Lemma obj_has_total fuel :
  ∀ st r key, wellFormed st → r ≤ fuel → ∃ b, obj_has fuel st r key = Some b.
Proof.
  induction fuel as [|fuel IH]; intros st r key Hwf Hr; simpl;
    destruct (lookupObj (heap st) r) as [c props|t] eqn:Hobj; eauto;
    apply lookupObj_proxy in Hobj;
    pose proof (wf_target st Hwf r t Hobj); [lia|].
  apply IH; [exact Hwf|lia].
Qed.

(** With fuel beyond the references and the depth of the root, a write
    returns. *)
Lemma obj_set_total l :
  path_up parentElement (Some rootNode) l →
  ∀ fuel st r key v,
    wellFormed st → r < nextRef st →
    nextRef st + r * r + r + length l < fuel →
    ∃ st', obj_set parentElement rootNode fuel st r key v = Some st'.
Proof.
  intros Hpath.
  induction fuel as [|fuel IH]; intros st r key v Hwf Hr Hfuel; [lia|].
  simpl. destruct (lookupObj (heap st) r) as [c props|t] eqn:Hobj; [eauto|].
  apply lookupObj_proxy in Hobj as Hheap.
  pose proof (wf_target st Hwf r t Hheap) as Ht.
  destruct (obj_get_total fuel st t key Hwf ltac:(lia) ltac:(nia))
    as (st1 & old & Hget).
  rewrite Hget.
  destruct (obj_get_spec fuel st t key st1 old Hwf ltac:(lia) Hget)
    as (Hwf1 & (Hn1 & _) & _ & Hbound & _).
  destruct (schedule_total parentElement fuel rootNode (sched st1) l Hpath
              ltac:(nia)) as (s & Hs).
  assert (Hst2 : ∃ st2, (if strict_neq old v
                         then scheduleRoot parentElement rootNode fuel st1
                         else Some st1) = Some st2
                        ∧ wellFormed st2 ∧ nextRef st2 = nextRef st1).
  { destruct (strict_neq old v).
    - unfold scheduleRoot. rewrite Hs. eexists. split; [reflexivity|].
      split; [apply wellFormed_with_sched; exact Hwf1|reflexivity].
    - eauto. }
  destruct Hst2 as (st2 & -> & Hwf2 & Hn2).
  apply IH; [exact Hwf2|lia|nia].
Qed.

Lemma obj_delete_total l :
  path_up parentElement (Some rootNode) l →
  ∀ fuel st r key,
    wellFormed st → r < nextRef st → r + length l < fuel →
    ∃ st', obj_delete parentElement rootNode fuel st r key = Some st'.
Proof.
  intros Hpath.
  induction fuel as [|fuel IH]; intros st r key Hwf Hr Hfuel; [lia|].
  simpl. destruct (lookupObj (heap st) r) as [c props|t] eqn:Hobj; [eauto|].
  apply lookupObj_proxy in Hobj as Hheap.
  pose proof (wf_target st Hwf r t Hheap) as Ht.
  destruct (obj_has_total fuel st t key Hwf ltac:(lia)) as (hadKey & ->).
  destruct (schedule_total parentElement fuel rootNode (sched st) l Hpath
              ltac:(lia)) as (s & Hs).
  assert (Hst1 : ∃ st1, (if hadKey
                         then scheduleRoot parentElement rootNode fuel st
                         else Some st) = Some st1
                        ∧ wellFormed st1 ∧ nextRef st1 = nextRef st).
  { destruct hadKey.
    - unfold scheduleRoot. rewrite Hs. eexists. split; [reflexivity|].
      split; [apply wellFormed_with_sched; exact Hwf|reflexivity].
    - eauto. }
  destruct Hst1 as (st1 & -> & Hwf1 & Hn1).
  apply IH; [exact Hwf1|lia|lia].
Qed.

(** X4. Writes keep the reactive state well formed.  Storing a value
    that refers to an allocated object, or deleting a key, through any
    object or wrapper of a well-formed state returns, given fuel beyond
    the references in play and the depth of the root, and leaves a
    well-formed state: every wrapper is still younger than its target and
    the cache still maps each target to a wrapper of that target, so
    wrappers stay stable after any number of writes. *)
Theorem writes_keep_state_wellFormed fuel st r key v l :
  wellFormed st → r < nextRef st → validValue st v →
  path_up parentElement (Some rootNode) l →
  nextRef st + r * r + r + length l < fuel →
  (∃ st', obj_set parentElement rootNode fuel st r key v = Some st'
          ∧ wellFormed st' ∧ nextRef st ≤ nextRef st')
  ∧ (∃ st', obj_delete parentElement rootNode fuel st r key = Some st'
            ∧ wellFormed st' ∧ nextRef st' = nextRef st).
Proof.
  intros Hwf Hr Hv Hpath Hfuel. split.
  - destruct (obj_set_total l Hpath fuel st r key v Hwf Hr Hfuel) as (st' & H).
    exists st'. split; [exact H|]. eapply obj_set_wellFormed; eassumption.
  - destruct (obj_delete_total l Hpath fuel st r key Hwf Hr ltac:(nia))
      as (st' & H).
    exists st'. split; [exact H|]. eapply obj_delete_wellFormed; eassumption.
Qed.

End WriteFacts.

(** Writing the wrapper [4] of the state itself under a new key of the
    example state, through that wrapper. *)
Lemma writes_keep_state_wellFormed_witness :
  (∃ st', obj_set exampleTree 0 40 exampleState 4 "self" (VRef 4) = Some st'
          ∧ wellFormed st' ∧ nextRef exampleState ≤ nextRef st')
  ∧ (∃ st', obj_delete exampleTree 0 40 exampleState 4 "self" = Some st'
            ∧ wellFormed st' ∧ nextRef st' = nextRef exampleState).
Proof.
  apply (writes_keep_state_wellFormed exampleTree 0 40 exampleState 4 "self"
           (VRef 4) [0] exampleState_wellFormed).
  - vm_compute. lia.
  - vm_compute. lia.
  - apply path_step. apply path_null.
  - vm_compute. lia.
Defined.

Section ReadAfterWrite.

Variable parentElement : gmap Elem Elem.
Variable rootNode : Elem.

Lemma obj_get_of_proxy fuel st p t c props key :
  heap st !! p = Some (ProxyOf t) →
  heap st !! t = Some (Ordinary c props) →
  obj_get (Datatypes.S fuel) st p key
  = wrap fuel (default VUndefined (props !! key)) st.
Proof.
  intros Hp Ht. simpl. rewrite (lookupObj_Some _ _ _ Hp).
  rewrite (obj_get_ordinary fuel st t key c props (lookupObj_Some _ _ _ Ht)).
  reflexivity.
Qed.

Lemma obj_has_of_proxy fuel st p t c props key :
  heap st !! p = Some (ProxyOf t) →
  heap st !! t = Some (Ordinary c props) →
  obj_has (Datatypes.S fuel) st p key
  = Some (bool_decide (is_Some (props !! key))).
Proof.
  intros Hp Ht. simpl. rewrite (lookupObj_Some _ _ _ Hp).
  apply (obj_has_ordinary fuel st t key c props). apply lookupObj_Some, Ht.
Qed.

(** X5. Reading back what was written.  For a wrapper [p] of an object
    [t]: after [p[key] = v] the key is in [p] and reading it gives [v],
    wrapped, which is [v] itself unless [v] is an object; after
    [delete p[key]] the key is not in [p] and reading it gives
    [undefined]; the other keys are in [p] or not as before, and hold what
    they held. *)
Theorem read_after_write fuel st p t c props key v l :
  heap st !! p = Some (ProxyOf t) →
  heap st !! t = Some (Ordinary c props) →
  path_up parentElement (Some rootNode) l →
  length l < fuel →
  ∃ stSet stDel,
    obj_set parentElement rootNode fuel st p key v = Some stSet
    ∧ obj_delete parentElement rootNode fuel st p key = Some stDel
    ∧ obj_get fuel stSet p key = wrap (pred fuel) v stSet
    ∧ ((∀ r, v ≠ VRef r) → obj_get fuel stSet p key = Some (stSet, v))
    ∧ obj_has fuel stSet p key = Some true
    ∧ obj_get fuel stDel p key = Some (stDel, VUndefined)
    ∧ obj_has fuel stDel p key = Some false
    ∧ ∀ key', key' ≠ key →
        obj_has fuel stSet p key' = obj_has fuel st p key'
        ∧ obj_has fuel stDel p key' = obj_has fuel st p key'
        ∧ obj_get fuel stSet p key'
          = wrap (pred fuel) (default VUndefined (props !! key')) stSet
        ∧ obj_get fuel stDel p key'
          = wrap (pred fuel) (default VUndefined (props !! key')) stDel.
Proof.
  intros Hp Ht Hpath Hfuel.
  destruct fuel as [|fuel]; [lia|]. simpl pred.
  destruct (schedule_total parentElement fuel rootNode (sched st) l Hpath
              ltac:(lia)) as (s1 & Hs1).
  assert (Hobj : lookupObj (heap st) t = Ordinary c props)
    by (apply lookupObj_Some; exact Ht).
  assert (Hne : p ≠ t) by (intros ->; congruence).
  set (old := default VUndefined (props !! key)).
  assert (Hset : obj_set parentElement rootNode (Datatypes.S fuel) st p key v
                 = Some (mkReactive
                           (<[t := Ordinary c (<[key := v]> props)]> (heap st))
                           (proxies st) (nextRef st)
                           (if strict_neq old v then s1 else sched st))).
  { simpl. rewrite (lookupObj_Some _ _ _ Hp).
    rewrite (obj_get_ordinary fuel st t key c props Hobj). fold old.
    unfold scheduleRoot. rewrite Hs1.
    destruct (strict_neq old v);
      rewrite (obj_set_ordinary _ _ fuel _ t key v c props) by exact Hobj;
      reflexivity. }
  assert (Hdel : obj_delete parentElement rootNode (Datatypes.S fuel) st p key
                 = Some (mkReactive
                           (<[t := Ordinary c (delete key props)]> (heap st))
                           (proxies st) (nextRef st)
                           (if bool_decide (is_Some (props !! key))
                            then s1 else sched st))).
  { simpl. rewrite (lookupObj_Some _ _ _ Hp).
    rewrite (obj_has_ordinary fuel st t key c props Hobj).
    unfold scheduleRoot. rewrite Hs1.
    destruct (bool_decide (is_Some (props !! key)));
      rewrite (obj_delete_ordinary _ _ fuel _ t key c props) by exact Hobj;
      reflexivity. }
  eexists. eexists. split; [exact Hset|]. split; [exact Hdel|].
  set (stSet := mkReactive _ _ _ (if strict_neq old v then s1 else sched st)).
  set (stDel := mkReactive _ _ _ (if bool_decide _ then s1 else sched st)).
  assert (HpS : heap stSet !! p = Some (ProxyOf t))
    by (simpl; rewrite lookup_insert_ne by congruence; exact Hp).
  assert (HtS : heap stSet !! t = Some (Ordinary c (<[key := v]> props)))
    by (simpl; apply lookup_insert_eq).
  assert (HpD : heap stDel !! p = Some (ProxyOf t))
    by (simpl; rewrite lookup_insert_ne by congruence; exact Hp).
  assert (HtD : heap stDel !! t = Some (Ordinary c (delete key props)))
    by (simpl; apply lookup_insert_eq).
  assert (Hread : obj_get (Datatypes.S fuel) stSet p key = wrap fuel v stSet).
  { rewrite (obj_get_of_proxy fuel stSet p t c _ key HpS HtS).
    rewrite lookup_insert_eq. reflexivity. }
  split; [exact Hread|]. split.
  { intros Hv. rewrite Hread. destruct v; try reflexivity.
    exfalso. eapply Hv. reflexivity. }
  split.
  { rewrite (obj_has_of_proxy fuel stSet p t c _ key HpS HtS).
    rewrite lookup_insert_eq. reflexivity. }
  split.
  { rewrite (obj_get_of_proxy fuel stDel p t c _ key HpD HtD).
    rewrite lookup_delete_eq. reflexivity. }
  split.
  { rewrite (obj_has_of_proxy fuel stDel p t c _ key HpD HtD).
    rewrite lookup_delete_eq. reflexivity. }
  intros key' Hkey'.
  rewrite (obj_has_of_proxy fuel stSet p t c _ key' HpS HtS).
  rewrite (obj_has_of_proxy fuel stDel p t c _ key' HpD HtD).
  rewrite (obj_has_of_proxy fuel st p t c _ key' Hp Ht).
  rewrite (obj_get_of_proxy fuel stSet p t c _ key' HpS HtS).
  rewrite (obj_get_of_proxy fuel stDel p t c _ key' HpD HtD).
  rewrite lookup_insert_ne by congruence.
  rewrite lookup_delete_ne by congruence.
  auto.
Qed.

End ReadAfterWrite.

(** [state.n = 6] and [delete state.n] on the example state, read back. *)
Lemma read_after_write_witness :
  ∃ stSet stDel,
    obj_set exampleTree 0 8 exampleState 4 "n" (VNum 6) = Some stSet
    ∧ obj_delete exampleTree 0 8 exampleState 4 "n" = Some stDel
    ∧ obj_get 8 stSet 4 "n" = Some (stSet, VNum 6)
    ∧ obj_get 8 stDel 4 "n" = Some (stDel, VUndefined)
    ∧ obj_has 8 stDel 4 "n" = Some false.
Proof.
  destruct (read_after_write exampleTree 0 8 exampleState 4 0 CObject
              {[ "a" := VRef 1; "n" := VNum 5; "d" := VRef 2 ]} "n" (VNum 6)
              [0] eq_refl eq_refl
              (path_step exampleTree 0 [] (path_null exampleTree))
              ltac:(vm_compute; lia))
    as (stSet & stDel & Hset & Hdel & _ & Hget & _ & Hgone & Hhas & _).
  exists stSet, stDel. split; [exact Hset|]. split; [exact Hdel|].
  split; [apply Hget; discriminate|]. split; [exact Hgone|exact Hhas].
Defined.

(** ** Event listeners *)

Section EventFacts.

Context {St : Type}.

Lemma existsb_eqb_app ev (l1 l2 : list string) :
  existsb (String.eqb ev) (l1 ++ l2)
  = existsb (String.eqb ev) l1 || existsb (String.eqb ev) l2.
Proof. apply List.existsb_app. Qed.

Lemma handleEvent_bound el ev expr (w : Page St) :
  isBound el ev w = true → handleEvent el ev expr w = (w, Ok tt).
Proof.
  unfold isBound, handleEvent, bind, get_reg, ret. intros Hb.
  destruct (boundEvents (registry (reg w) el)) as [bound|] eqn:Hreg;
    [|simpl in Hb; discriminate].
  simpl in *. rewrite Hreg. simpl. rewrite Hb. reflexivity.
Qed.

Lemma handleEvent_unbound el ev expr (w : Page St) :
  isBound el ev w = false →
  ∃ w1, handleEvent el ev expr w = (w1, Ok tt)
        ∧ listeners w1 = listeners w ++ [(el, ev, expr)]
        ∧ (∀ el' ev', isBound el' ev' w1
                      = isBound el' ev' w
                        || (bool_decide (el' = el) && String.eqb ev' ev))
        ∧ ambient w1 = ambient w ∧ jsCache w1 = jsCache w
        ∧ console w1 = console w ∧ attributes w1 = attributes w
        ∧ nextElem w1 = nextElem w ∧ dispatched w1 = dispatched w.
Proof.
  unfold isBound. intros Hb.
  set (bound := default [] (boundEvents (registry (reg w) el))) in *.
  assert (Hrun : ∃ rg,
             (∀ el', el' ≠ el → registry rg el' = registry (reg w) el')
             ∧ handleEvent el ev expr w
               = (with_reg (reg_update (set_boundEvents (bound ++ [ev])) el rg)
                    (with_listeners (listeners w ++ [(el, ev, expr)]) w),
                  Ok tt)).
  { unfold handleEvent, bind, get_reg, ret, modify_reg, addEventListener.
    destruct (boundEvents (registry (reg w) el)) as [b|] eqn:Hreg; simpl.
    - rewrite Hreg. simpl. subst bound. simpl in Hb. rewrite Hb. simpl.
      eexists. split; [|reflexivity]. reflexivity.
    - rewrite registry_update_eq. simpl. eexists. split; [|reflexivity].
      intros el' Hne. apply registry_update_ne. congruence. }
  destruct Hrun as (rg & Hrg & Hrun). eexists. split; [exact Hrun|]. simpl.
  split; [reflexivity|]. split; [|auto 10].
  intros el' ev'. destruct (decide (el' = el)) as [->|Hne].
  - rewrite registry_update_eq. simpl.
    rewrite bool_decide_eq_true_2 by reflexivity.
    rewrite existsb_eqb_app. simpl. rewrite orb_false_r. reflexivity.
  - rewrite bool_decide_eq_false_2 by exact Hne. simpl. rewrite orb_false_r.
    rewrite registry_update_ne by congruence. rewrite Hrg by exact Hne.
    reflexivity.
Qed.

Lemma listenersFor_snoc el ev el' ev' expr (w w1 : Page St) :
  listeners w1 = listeners w ++ [(el, ev, expr)] →
  listenersFor el' ev' w1
  = listenersFor el' ev' w
    ++ (if bool_decide (el' = el) && String.eqb ev' ev
        then [(el, ev, expr)] else []).
Proof.
  intros Hl. unfold listenersFor. rewrite Hl, List.filter_app. simpl.
  f_equal.
  rewrite (bool_decide_ext (el = el') (el' = el)) by (split; congruence).
  rewrite (String.eqb_sym ev ev').
  destruct (bool_decide (el' = el) && String.eqb ev' ev); reflexivity.
Qed.

Lemma handleEvent_invariant el ev expr (w : Page St) :
  oneListenerPerEvent w →
  snd (handleEvent el ev expr w) = Ok tt
  ∧ oneListenerPerEvent (fst (handleEvent el ev expr w)).
Proof.
  intros Hinv. destruct (isBound el ev w) eqn:Hb.
  - rewrite (handleEvent_bound el ev expr w Hb). auto.
  - destruct (handleEvent_unbound el ev expr w Hb)
      as (w1 & -> & Hl & Hbound & _).
    split; [reflexivity|]. simpl. intros el' ev'.
    rewrite (listenersFor_snoc el ev el' ev' expr w w1 Hl), length_app.
    rewrite Hbound, Hinv.
    destruct (bool_decide (el' = el) && String.eqb ev' ev) eqn:Hsame.
    + apply andb_true_iff in Hsame as [Hel Hev].
      apply bool_decide_eq_true in Hel. apply String.eqb_eq in Hev. subst.
      rewrite Hb. reflexivity.
    + rewrite orb_false_r. simpl. lia.
Qed.

(** X6. One listener per element and event.  [handleEvent] never throws;
    once it has attached a listener for an event of an element, applying
    the directive again, with the same or another snippet, changes
    nothing: the snippet of the first render stays.  Over any sequence of
    [phoebe:on...] directives, as repeated renders apply them, every
    element keeps exactly one listener for each of its bound events and
    none for the others. *)
Theorem handleEvent_binds_once el ev expr expr' calls (w : Page St) :
  let w1 := fst (handleEvent el ev expr w) in
  handleEvent el ev expr w = (w1, Ok tt)
  ∧ isBound el ev w1 = true
  ∧ handleEvent el ev expr' w1 = (w1, Ok tt)
  ∧ (isBound el ev w = false →
     listeners w1 = listeners w ++ [(el, ev, expr)])
  ∧ (oneListenerPerEvent w →
     snd (handleEvents calls w) = Ok tt
     ∧ oneListenerPerEvent (fst (handleEvents calls w))).
Proof.
  intros w1.
  assert (H1 : handleEvent el ev expr w = (w1, Ok tt) ∧ isBound el ev w1 = true
               ∧ (isBound el ev w = false →
                  listeners w1 = listeners w ++ [(el, ev, expr)])).
  { unfold w1. destruct (isBound el ev w) eqn:Hb.
    - rewrite (handleEvent_bound el ev expr w Hb). simpl.
      split; [reflexivity|]. split; [exact Hb|discriminate].
    - destruct (handleEvent_unbound el ev expr w Hb)
        as (w' & -> & Hl & Hbound & _). simpl.
      split; [reflexivity|]. split; [|intros _; exact Hl].
      rewrite Hbound, bool_decide_eq_true_2, String.eqb_refl by reflexivity.
      apply orb_true_r. }
  destruct H1 as (Hrun & Hb1 & Hl).
  split; [exact Hrun|]. split; [exact Hb1|].
  split; [apply handleEvent_bound; exact Hb1|]. split; [exact Hl|].
  clear. revert w. unfold handleEvents.
  induction calls as [|[[el ev] expr] calls IH]; intros w Hinv; [auto|].
  simpl. unfold bind.
  destruct (handleEvent_invariant el ev expr w Hinv) as [Hok Hinv1].
  destruct (handleEvent el ev expr w) as [w1 r]. simpl in *. subst r.
  apply IH. exact Hinv1.
Qed.

End EventFacts.

(** [phoebe:onclick] applied three times to the element [1] of an empty
    page, with changing snippets: one listener, the first snippet. *)
Lemma handleEvent_binds_once_witness :
  let w := Host.emptyPage Host.emptyState in
  let calls := [(1, "click", "a()"); (1, "click", "b()"); (1, "click", "a()")] in
  snd (handleEvents calls w) = Ok tt
  ∧ oneListenerPerEvent (fst (handleEvents calls w))
  ∧ listeners (fst (handleEvents calls w)) = [(1, "click", "a()")].
Proof.
  intros w calls.
  destruct (handleEvent_binds_once 1 "click" "a()" "b()" calls w)
    as (_ & _ & _ & _ & Hseq).
  destruct Hseq as [Hok Hinv].
  - intros el ev. reflexivity.
  - split; [exact Hok|]. split; [exact Hinv|]. vm_compute. reflexivity.
Defined.

(** ** Attribute lists *)

Section AttributeFacts.

Context {St : Type}.

Lemma assoc_set_eq name v l : assoc name (assoc_set name v l) = Some v.
Proof.
  induction l as [|[k x] l IH]; simpl.
  - rewrite String.eqb_refl. reflexivity.
  - destruct (String.eqb k name) eqn:Hk; simpl; rewrite Hk; [reflexivity|exact IH].
Qed.

Lemma assoc_set_ne name other v l :
  other ≠ name → assoc other (assoc_set name v l) = assoc other l.
Proof.
  intros Hne. induction l as [|[k x] l IH]; simpl.
  - apply String.eqb_neq in Hne. rewrite String.eqb_sym, Hne. reflexivity.
  - destruct (String.eqb k name) eqn:Hk; simpl.
    + apply String.eqb_eq in Hk. subst k.
      apply String.eqb_neq in Hne. rewrite String.eqb_sym, Hne. reflexivity.
    + destruct (String.eqb k other); [reflexivity|exact IH].
Qed.

Lemma assoc_remove_eq name (l : list (string * string)) :
  assoc name (List.filter (fun kv => negb (String.eqb (fst kv) name)) l) = None.
Proof.
  induction l as [|[k x] l IH]; simpl; [reflexivity|].
  destruct (String.eqb k name) eqn:Hk; simpl; [exact IH|].
  rewrite Hk. exact IH.
Qed.

Lemma assoc_remove_ne name other (l : list (string * string)) :
  other ≠ name →
  assoc other (List.filter (fun kv => negb (String.eqb (fst kv) name)) l)
  = assoc other l.
Proof.
  intros Hne. induction l as [|[k x] l IH]; simpl; [reflexivity|].
  destruct (String.eqb k name) eqn:Hk; simpl.
  - apply String.eqb_eq in Hk. subst k.
    apply String.eqb_neq in Hne. rewrite String.eqb_sym, Hne. exact IH.
  - destruct (String.eqb k other); [reflexivity|exact IH].
Qed.

(** Reading an attribute after [setAttribute] and [removeAttribute]. *)
Lemma attributeOf_setAttribute el name v el' name' (w : Page St) :
  attributeOf el' name' (fst (setAttribute el name v w))
  = if bool_decide (el' = el) && String.eqb name' name then Some v
    else attributeOf el' name' w.
Proof.
  unfold attributeOf, setAttribute. simpl.
  destruct (decide (el' = el)) as [->|Hne].
  - rewrite bool_decide_eq_true_2 by reflexivity. rewrite lookup_insert_eq.
    simpl. destruct (String.eqb name' name) eqn:Hn.
    + apply String.eqb_eq in Hn. subst. apply assoc_set_eq.
    + apply assoc_set_ne. apply String.eqb_neq. exact Hn.
  - rewrite bool_decide_eq_false_2 by exact Hne.
    rewrite lookup_insert_ne by congruence. reflexivity.
Qed.

Lemma attributeOf_removeAttribute el name el' name' (w : Page St) :
  attributeOf el' name' (fst (removeAttribute el name w))
  = if bool_decide (el' = el) && String.eqb name' name then None
    else attributeOf el' name' w.
Proof.
  unfold attributeOf, removeAttribute. simpl.
  destruct (decide (el' = el)) as [->|Hne].
  - rewrite bool_decide_eq_true_2 by reflexivity. rewrite lookup_insert_eq.
    simpl. destruct (String.eqb name' name) eqn:Hn.
    + apply String.eqb_eq in Hn. subst. apply assoc_remove_eq.
    + apply assoc_remove_ne. apply String.eqb_neq. exact Hn.
  - rewrite bool_decide_eq_false_2 by exact Hne.
    rewrite lookup_insert_ne by congruence. reflexivity.
Qed.

Lemma setAttribute_run el name v (w : Page St) :
  setAttribute el name v w = (fst (setAttribute el name v w), Ok tt).
Proof. reflexivity. Qed.

Lemma removeAttribute_run el name (w : Page St) :
  removeAttribute el name w = (fst (removeAttribute el name w), Ok tt).
Proof. reflexivity. Qed.

Lemma setAttribute_reg el name v (w : Page St) :
  reg (fst (setAttribute el name v w)) = reg w.
Proof. reflexivity. Qed.

Lemma removeAttribute_reg el name (w : Page St) :
  reg (fst (removeAttribute el name w)) = reg w.
Proof. reflexivity. Qed.

End AttributeFacts.

Section HandleAttributeFacts.

Context {St : Type}.
Variable newFunction : list string → string → result (@compiled St).

(** [phoebe:style] once the snippet has given [v]: the style kept in the
    registry is the one recorded first, and the attribute is built from it
    and from [v] alone. *)
Lemma handleAttribute_style el expr sc (w w1 : Page St) v :
  js_get newFunction expr sc el w = (w1, Ok v) →
  let original :=
    default (trim (default "" (attributeOf el "style" w)))
            (originalStyle (registry (reg w) el)) in
  ∃ w',
    handleAttribute newFunction el "style" expr sc w = (w', Ok tt)
    ∧ originalStyle (registry (reg w') el) = Some original
    ∧ originalClass (registry (reg w') el) = originalClass (registry (reg w) el)
    ∧ attributeOf el "style" w'
      = composedStyle original (trim (toStringOrEmpty v))
    ∧ ∀ name, name ≠ "style" → attributeOf el name w' = attributeOf el name w.
Proof.
  intros Hget original. set (computed := trim (toStringOrEmpty v)).
  unfold composedStyle.
  pose proof (js_get_preserves newFunction expr sc el w) as Hp.
  rewrite Hget in Hp. simpl in Hp. destruct Hp as (Hreg & Hattr & _).
  unfold handleAttribute. rewrite (bind_ok _ _ _ _ _ Hget). simpl.
  unfold bind at 1. unfold get_reg at 1.
  assert (Hinit : ∃ w2,
            (match originalStyle (registry (reg w1) el) with
             | Some _ => ret tt
             | None =>
               let! a := getAttribute el "style" in
               modify_reg (set_originalStyle (trim (default "" a))) el
             end) w1 = (w2, Ok tt)
            ∧ originalStyle (registry (reg w2) el) = Some original
            ∧ originalClass (registry (reg w2) el)
              = originalClass (registry (reg w) el)
            ∧ attributes w2 = attributes w).
  { unfold original, attributeOf. rewrite <- Hreg, <- Hattr.
    destruct (originalStyle (registry (reg w1) el)) as [o|] eqn:Ho.
    - exists w1. rewrite Ho. auto.
    - eexists. split; [reflexivity|]. simpl.
      rewrite registry_update_eq. simpl. auto. }
  destruct Hinit as (w2 & Hinit & Ho2 & Hc2 & Ha2).
  unfold bind at 1. rewrite Hinit.
  unfold bind at 1. unfold get_reg at 1. rewrite Ho2. simpl.
  fold computed.
  destruct ((0 <? String.length computed) || (0 <? String.length original)).
  - rewrite setAttribute_run. eexists. split; [reflexivity|].
    rewrite setAttribute_reg.
    split; [exact Ho2|]. split; [exact Hc2|]. split.
    + rewrite attributeOf_setAttribute.
      rewrite bool_decide_eq_true_2 by reflexivity. reflexivity.
    + intros name Hname. rewrite attributeOf_setAttribute.
      apply String.eqb_neq in Hname. rewrite Hname, andb_false_r.
      unfold attributeOf. rewrite Ha2. reflexivity.
  - rewrite removeAttribute_run. eexists. split; [reflexivity|].
    rewrite removeAttribute_reg.
    split; [exact Ho2|]. split; [exact Hc2|]. split.
    + rewrite attributeOf_removeAttribute.
      rewrite bool_decide_eq_true_2 by reflexivity. reflexivity.
    + intros name Hname. rewrite attributeOf_removeAttribute.
      apply String.eqb_neq in Hname. rewrite Hname, andb_false_r.
      unfold attributeOf. rewrite Ha2. reflexivity.
Qed.

Lemma string_app_nil_r (s : string) : s +:+ "" = s.
Proof.
  induction s as [|a s IH]; [reflexivity|].
  change (String a (s +:+ "") = String a s). rewrite IH. reflexivity.
Qed.

Lemma composedStyle_empty original :
  composedStyle original ""
  = if String.eqb original "" then None else Some original.
Proof.
  unfold composedStyle. destruct original as [|a s]; [reflexivity|].
  simpl. rewrite string_app_nil_r. reflexivity.
Qed.

(** [phoebe:class] once the snippet has given [v]. *)
Lemma handleAttribute_class el expr sc (w w1 : Page St) v :
  js_get newFunction expr sc el w = (w1, Ok v) →
  let original :=
    default (trim (default "" (attributeOf el "class" w)))
            (originalClass (registry (reg w) el)) in
  ∃ w',
    handleAttribute newFunction el "class" expr sc w = (w', Ok tt)
    ∧ originalClass (registry (reg w') el) = Some original
    ∧ originalStyle (registry (reg w') el) = originalStyle (registry (reg w) el)
    ∧ attributeOf el "class" w' = Some (composedClass original v)
    ∧ ∀ name, name ≠ "class" → attributeOf el name w' = attributeOf el name w.
Proof.
  intros Hget original. unfold composedClass.
  pose proof (js_get_preserves newFunction expr sc el w) as Hp.
  rewrite Hget in Hp. simpl in Hp. destruct Hp as (Hreg & Hattr & _).
  unfold handleAttribute. rewrite (bind_ok _ _ _ _ _ Hget). simpl.
  unfold bind at 1. unfold get_reg at 1.
  assert (Hinit : ∃ w2,
            (match originalClass (registry (reg w1) el) with
             | Some _ => ret tt
             | None =>
               let! a := getAttribute el "class" in
               modify_reg (set_originalClass (trim (default "" a))) el
             end) w1 = (w2, Ok tt)
            ∧ originalClass (registry (reg w2) el) = Some original
            ∧ originalStyle (registry (reg w2) el)
              = originalStyle (registry (reg w) el)
            ∧ attributes w2 = attributes w).
  { unfold original, attributeOf. rewrite <- Hreg, <- Hattr.
    destruct (originalClass (registry (reg w1) el)) as [o|] eqn:Ho.
    - exists w1. rewrite Ho. auto.
    - eexists. split; [reflexivity|]. simpl.
      rewrite registry_update_eq. simpl. auto. }
  destruct Hinit as (w2 & Hinit & Ho2 & Hc2 & Ha2).
  unfold bind at 1. rewrite Hinit.
  unfold bind at 1. unfold get_reg at 1. rewrite Ho2. simpl.
  rewrite setAttribute_run. eexists. split; [reflexivity|].
  rewrite setAttribute_reg.
  split; [exact Ho2|]. split; [exact Hc2|]. split.
  - rewrite attributeOf_setAttribute.
    rewrite bool_decide_eq_true_2 by reflexivity. reflexivity.
  - intros name Hname. rewrite attributeOf_setAttribute.
    apply String.eqb_neq in Hname. rewrite Hname, andb_false_r.
    unfold attributeOf. rewrite Ha2. reflexivity.
Qed.

(** X7. Computed styles and classes do not pile up.  The first render of
    [phoebe:style] records the style the author wrote, trimmed; every
    render then sets the attribute to that style followed by the computed
    one, with a [;] between them when needed, and whatever the attribute
    held in between is dropped: a second render with another value gives
    the recorded style and the new value only, and a render whose snippet
    gives nothing gives the recorded style back, or removes the attribute
    when there was none.  [phoebe:class] does the same with the recorded
    classes, a space and the value. *)
Theorem computed_style_and_class_do_not_pile_up el expr sc (w w1 : Page St) v1 :
  js_get newFunction expr sc el w = (w1, Ok v1) →
  (let original :=
     default (trim (default "" (attributeOf el "style" w)))
             (originalStyle (registry (reg w) el)) in
   ∃ wa,
     handleAttribute newFunction el "style" expr sc w = (wa, Ok tt)
     ∧ attributeOf el "style" wa
       = composedStyle original (trim (toStringOrEmpty v1))
     ∧ ∀ w2 v2,
         js_get newFunction expr sc el wa = (w2, Ok v2) →
         ∃ wb,
           handleAttribute newFunction el "style" expr sc wa = (wb, Ok tt)
           ∧ originalStyle (registry (reg wb) el) = Some original
           ∧ attributeOf el "style" wb
             = composedStyle original (trim (toStringOrEmpty v2))
           ∧ (trim (toStringOrEmpty v2) = "" →
              attributeOf el "style" wb
              = if String.eqb original "" then None else Some original))
  ∧ (let original :=
       default (trim (default "" (attributeOf el "class" w)))
               (originalClass (registry (reg w) el)) in
     ∃ wa,
       handleAttribute newFunction el "class" expr sc w = (wa, Ok tt)
       ∧ attributeOf el "class" wa = Some (composedClass original v1)
       ∧ ∀ w2 v2,
           js_get newFunction expr sc el wa = (w2, Ok v2) →
           ∃ wb,
             handleAttribute newFunction el "class" expr sc wa = (wb, Ok tt)
             ∧ originalClass (registry (reg wb) el) = Some original
             ∧ attributeOf el "class" wb = Some (composedClass original v2)).
Proof.
  intros Hget. split.
  - intros original.
    destruct (handleAttribute_style el expr sc w w1 v1 Hget)
      as (wa & Hrun & Ho & _ & Hattr & _).
    exists wa. split; [exact Hrun|]. split; [exact Hattr|].
    intros w2 v2 Hget2.
    destruct (handleAttribute_style el expr sc wa w2 v2 Hget2)
      as (wb & Hrun2 & Ho2 & _ & Hattr2 & _).
    rewrite Ho in Ho2, Hattr2. simpl in Ho2, Hattr2.
    exists wb. split; [exact Hrun2|]. split; [exact Ho2|].
    split; [exact Hattr2|].
    intros Hempty. rewrite Hattr2, Hempty. apply composedStyle_empty.
  - intros original.
    destruct (handleAttribute_class el expr sc w w1 v1 Hget)
      as (wa & Hrun & Ho & _ & Hattr & _).
    exists wa. split; [exact Hrun|]. split; [exact Hattr|].
    intros w2 v2 Hget2.
    destruct (handleAttribute_class el expr sc wa w2 v2 Hget2)
      as (wb & Hrun2 & Ho2 & _ & Hattr2 & _).
    rewrite Ho in Ho2, Hattr2. simpl in Ho2, Hattr2.
    exists wb. split; [exact Hrun2|]. split; [exact Ho2|exact Hattr2].
Qed.

(** X8. Plain attributes.  For an attribute other than [style] and
    [class], once the snippet has given a value: [true] sets the attribute
    to its own name, [undefined], [null] and [false] remove it, and any
    other value, [0] and the empty string included, is written as a
    string; no other attribute of the page and nothing of the registry
    changes.  If the snippet throws, whatever the attribute, nothing is
    written and the error reaches the caller. *)
Theorem handleAttribute_plain el attrName expr sc (w w1 : Page St) :
  (∀ v, js_get newFunction expr sc el w = (w1, Ok v) →
        attrName ≠ "style" → attrName ≠ "class" →
        ∃ w',
          handleAttribute newFunction el attrName expr sc w = (w', Ok tt)
          ∧ attributeOf el attrName w'
            = match v with
              | VUndefined | VNull | VBool false => None
              | VBool true => Some attrName
              | _ => Some (toString v)
              end
          ∧ (∀ el' name', ¬ (el' = el ∧ name' = attrName) →
                          attributeOf el' name' w' = attributeOf el' name' w)
          ∧ reg w' = reg w)
  ∧ (∀ e, js_get newFunction expr sc el w = (w1, Throw e) →
          handleAttribute newFunction el attrName expr sc w = (w1, Throw e)
          ∧ attributes w1 = attributes w ∧ reg w1 = reg w).
Proof.
  pose proof (js_get_preserves newFunction expr sc el w) as Hp.
  split.
  - intros v Hget Hstyle Hclass.
    rewrite Hget in Hp. simpl in Hp. destruct Hp as (Hreg & Hattr & _).
    unfold handleAttribute. rewrite (bind_ok _ _ _ _ _ Hget).
    apply String.eqb_neq in Hstyle, Hclass. rewrite Hstyle, Hclass.
    assert (Hother : ∀ el' name', ¬ (el' = el ∧ name' = attrName) →
              bool_decide (el' = el) && String.eqb name' attrName = false).
    { intros el' name' Hne. apply andb_false_iff.
      destruct (decide (el' = el)) as [->|Hel];
        [|left; apply bool_decide_eq_false_2; exact Hel].
      right. apply String.eqb_neq. intros ->. apply Hne. auto. }
    assert (Hset : ∀ s,
              ∃ w', setAttribute el attrName s w1 = (w', Ok tt)
                    ∧ attributeOf el attrName w' = Some s
                    ∧ (∀ el' name', ¬ (el' = el ∧ name' = attrName) →
                         attributeOf el' name' w' = attributeOf el' name' w)
                    ∧ reg w' = reg w).
    { intros s. rewrite setAttribute_run. eexists. split; [reflexivity|].
      split; [|split].
      - rewrite attributeOf_setAttribute, bool_decide_eq_true_2,
          String.eqb_refl by reflexivity. reflexivity.
      - intros el' name' Hne. rewrite attributeOf_setAttribute, Hother by exact Hne.
        unfold attributeOf. rewrite Hattr. reflexivity.
      - rewrite setAttribute_reg. exact Hreg. }
    assert (Hrem :
              ∃ w', removeAttribute el attrName w1 = (w', Ok tt)
                    ∧ attributeOf el attrName w' = None
                    ∧ (∀ el' name', ¬ (el' = el ∧ name' = attrName) →
                         attributeOf el' name' w' = attributeOf el' name' w)
                    ∧ reg w' = reg w).
    { rewrite removeAttribute_run. eexists. split; [reflexivity|].
      split; [|split].
      - rewrite attributeOf_removeAttribute, bool_decide_eq_true_2,
          String.eqb_refl by reflexivity. reflexivity.
      - intros el' name' Hne.
        rewrite attributeOf_removeAttribute, Hother by exact Hne.
        unfold attributeOf. rewrite Hattr. reflexivity.
      - rewrite removeAttribute_reg. exact Hreg. }
    destruct v as [| |[|]| | | | | |]; first [exact Hrem|apply Hset].
  - intros e Hget. rewrite Hget in Hp. simpl in Hp.
    destruct Hp as (Hreg & Hattr & _).
    split; [|auto]. unfold handleAttribute, bind. rewrite Hget. reflexivity.
Qed.

End HandleAttributeFacts.


(** [<span style="color:red" phoebe:style="t">] with [t] set to ["hi"],
    rendered twice. *)
Lemma computed_style_and_class_do_not_pile_up_witness :
  let w := directivePage [("style", "color:red"); ("phoebe:style", "t")] in
  ∃ wa wb,
    handleAttribute Host.newFunction 1 "style" "t" ∅ w = (wa, Ok tt)
    ∧ handleAttribute Host.newFunction 1 "style" "t" ∅ wa = (wb, Ok tt)
    ∧ attributeOf 1 "style" wa = Some "color:red;hi"
    ∧ attributeOf 1 "style" wb = Some "color:red;hi".
Proof.
  intros w.
  assert (Hget : js_get Host.newFunction "t" ∅ 1 w
                 = (fst (js_get Host.newFunction "t" ∅ 1 w), Ok (VStr "hi")))
    by (vm_compute; reflexivity).
  destruct (computed_style_and_class_do_not_pile_up Host.newFunction 1 "t" ∅ w
              _ _ Hget)
    as [(wa & Hrun & Hattr & Hnext) _].
  assert (Hwa : wa = fst (handleAttribute Host.newFunction 1 "style" "t" ∅ w))
    by (rewrite Hrun; reflexivity).
  destruct (Hnext (fst (js_get Host.newFunction "t" ∅ 1 wa)) (VStr "hi"))
    as (wb & Hrun2 & _ & Hattr2 & _).
  { rewrite Hwa. vm_compute. reflexivity. }
  exists wa, wb. split; [exact Hrun|]. split; [exact Hrun2|].
  split; [rewrite Hattr|rewrite Hattr2]; vm_compute; reflexivity.
Defined.

(** [<input phoebe:disabled="off">] with [off] set to [true]. *)
Lemma handleAttribute_plain_witness :
  let w := with_attributes {[ 1 := [("phoebe:disabled", "off")] ]}
             (Host.emptyPage (Host.mkState {[ "off" := VBool true ]} ∅ ∅)) in
  ∃ w', handleAttribute Host.newFunction 1 "disabled" "off" ∅ w = (w', Ok tt)
        ∧ attributeOf 1 "disabled" w' = Some "disabled"
        ∧ attributeOf 1 "phoebe:disabled" w' = Some "off".
Proof.
  intros w.
  assert (Hget : js_get Host.newFunction "off" ∅ 1 w
                 = (fst (js_get Host.newFunction "off" ∅ 1 w), Ok (VBool true)))
    by (vm_compute; reflexivity).
  destruct (handleAttribute_plain Host.newFunction 1 "disabled" "off" ∅ w
              (fst (js_get Host.newFunction "off" ∅ 1 w))) as [Hok _].
  destruct (Hok (VBool true) Hget ltac:(discriminate) ltac:(discriminate))
    as (w' & Hrun & Hattr & Hother & _).
  exists w'. split; [exact Hrun|]. split; [exact Hattr|].
  rewrite Hother; [reflexivity|]. intros [_ H]. discriminate.
Defined.

(** ** The first render of a loop *)

Section LoopInit.

Context {St : Type}.
Variable newFunction : list string → string → result (@compiled St).
Variable iterate : St → value → option (list value).

Lemma hasExactlyOneChild_from_count nodes :
  ∀ foundOne,
    PhoebeFor.hasExactlyOneChild_from foundOne nodes
    = bool_decide ((if foundOne then 1 else 0)
                   + length (List.filter significant nodes) = 1).
Proof.
  induction nodes as [|n nodes IH]; intros foundOne.
  - simpl. destruct foundOne; reflexivity.
  - simpl. fold (significant n). destruct (significant n); simpl.
    + destruct foundOne.
      * symmetry. apply bool_decide_eq_false_2. lia.
      * rewrite IH. apply bool_decide_ext. lia.
    + apply IH.
Qed.

(** X9. What [hasExactlyOneChild] counts, and what [render] finds to
    clone.  The getter is true exactly when one child node is an element
    or a text node that is not blank.  The first render then leaves the
    template as the only child, holding the children as they were when
    the getter was true and one new [<div>] otherwise, with a line on the
    console.  The template holds an element to clone unless the one child
    that counted was a text node; in that case the first item of a loop
    without keys makes [render] throw a [TypeError]. *)
Theorem loop_template_element this sc (c : Children) kEls (w : Page St) :
  PhoebeFor.isInitDone c = false →
  (PhoebeFor.hasExactlyOneChild c = true
   ↔ length (List.filter significant (childNodes c)) = 1)
  ∧ ∃ w' c' t content,
      PhoebeFor.init this c w = (w', Ok c')
      ∧ childNodes c' = [Element t]
      ∧ firstChildTemplate c' = Some (t, content)
      ∧ PhoebeFor.isInitDone c' = true
      ∧ (PhoebeFor.hasExactlyOneChild c = true →
         content = childNodes c ∧ console w' = console w)
      ∧ (PhoebeFor.hasExactlyOneChild c = false →
         (∃ div, content = [Element div])
         ∧ console w'
           = console w
             ++ [(LDebug,
                  "Phoebe.js: <phoebe-for> should have exactly one child element.")])
      ∧ (firstElementChild content = None
         ↔ PhoebeFor.hasExactlyOneChild c = true
           ∧ firstElementChild (childNodes c) = None)
      ∧ (firstElementChild content = None →
         attributeOf this "key" w = None →
         ∀ w1 iterObj w2 item rest,
           js_get newFunction (attr_str (attributeOf this "in" w)) sc this w'
           = (w1, Ok iterObj) →
           PhoebeFor.ensureIterable iterate iterObj w1
           = (w2, Ok (item :: rest)) →
           PhoebeFor.render newFunction iterate this sc
             (PhoebeFor.mkForEl c kEls) w
           = (w2, Throw (TypeError "parameter 1 is not of type 'Node'"))).
Proof.
  intros Hinit. split.
  { unfold PhoebeFor.hasExactlyOneChild.
    rewrite hasExactlyOneChild_from_count. simpl.
    rewrite bool_decide_eq_true. reflexivity. }
  assert (Hrun : ∃ w' t content,
             PhoebeFor.init this c w
             = (w', Ok (mkChildren [Element t]
                          (<[t := ("for", content)]> (templates c))))
             ∧ attributes w' = attributes w
             ∧ (PhoebeFor.hasExactlyOneChild c = true →
                content = childNodes c ∧ console w' = console w)
             ∧ (PhoebeFor.hasExactlyOneChild c = false →
                (∃ div, content = [Element div])
                ∧ console w'
                  = console w
                    ++ [(LDebug,
                         "Phoebe.js: <phoebe-for> should have exactly one child element.")])).
  { unfold PhoebeFor.init. rewrite Hinit.
    unfold bind, fresh_elem, console_log, ret.
    destruct (PhoebeFor.hasExactlyOneChild c); simpl.
    - eexists. eexists. eexists. split; [reflexivity|].
      split; [reflexivity|]. split; [auto|discriminate].
    - eexists. eexists. eexists. split; [reflexivity|].
      split; [reflexivity|]. split; [discriminate|]. intros _.
      split; [eexists; reflexivity|reflexivity]. }
  destruct Hrun as (w' & t & content & Hrun & Hattr & Htrue & Hfalse).
  assert (Htmpl : firstChildTemplate
                    (mkChildren [Element t]
                       (<[t := ("for", content)]> (templates c)))
                  = Some (t, content)).
  { unfold firstChildTemplate. simpl. rewrite lookup_insert_eq. reflexivity. }
  assert (Hnone : firstElementChild content = None
                  ↔ PhoebeFor.hasExactlyOneChild c = true
                    ∧ firstElementChild (childNodes c) = None).
  { destruct (PhoebeFor.hasExactlyOneChild c).
    - destruct (Htrue eq_refl) as [-> _]. tauto.
    - destruct (Hfalse eq_refl) as [[div ->] _]. simpl.
      split; [discriminate|]. intros [? _]. discriminate. }
  exists w'. eexists. exists t, content. split; [exact Hrun|]. split; [reflexivity|].
  split; [exact Htmpl|]. split.
  { unfold PhoebeFor.isInitDone, firstChildRole. simpl.
    rewrite lookup_insert_eq. reflexivity. }
  split; [exact Htrue|]. split; [exact Hfalse|]. split; [exact Hnone|].
  intros Hcontent Hkey w1 iterObj w2 item rest Hget Hiter.
  unfold attributeOf in *.
  unfold PhoebeFor.render. cbn [PhoebeFor.children].
  rewrite (bind_ok _ _ _ _ _ Hrun), Htmpl.
  rewrite !bind_getAttribute, bind_hasAttribute, Hattr, Hkey.
  rewrite (bind_ok _ _ _ _ _ Hget), (bind_ok _ _ _ _ _ Hiter).
  cbn [bool_decide decide_rel is_Some_dec option_eq_None_dec].
  cbn [childNodes nextElementSibling].
  rewrite bool_decide_eq_true_2 by reflexivity.
  cbn [firstElementChild PhoebeFor.plainItems PhoebeFor.p_currentEl].
  unfold PhoebeFor.cloneFirstElement. rewrite Hcontent.
  reflexivity.
Qed.

End LoopInit.

(** [<phoebe-for var="x" in="xs" index="i">hello</phoebe-for>] with one
    item: the template holds no element, and the render throws. *)
Lemma loop_template_element_witness :
  snd (PhoebeFor.render Host.newFunction Host.iterate 1 ∅
         (PhoebeFor.mkForEl (mkChildren [Text "hello"] ∅) None)
         (loopPage [VNum 1]))
  = Throw (TypeError "parameter 1 is not of type 'Node'").
Proof.
  set (c := mkChildren [Text "hello"] ∅).
  set (w := loopPage [VNum 1]).
  destruct (loop_template_element Host.newFunction Host.iterate 1 ∅ c None w
              eq_refl)
    as [_ (w' & c' & t & content & Hrun & _ & _ & _ & Hsame & _ & Hnone & Hthrow)].
  assert (Hw' : w' = fst (PhoebeFor.init 1 c w)) by (rewrite Hrun; reflexivity).
  destruct (Hsame eq_refl) as [Hcontent _].
  assert (Hel : firstElementChild content = None)
    by (rewrite Hcontent; reflexivity).
  rewrite (Hthrow Hel eq_refl
             (fst (js_get Host.newFunction "xs" ∅ 1 w')) (VRef 0)
             (fst (js_get Host.newFunction "xs" ∅ 1 w')) (VNum 1) []).
  - reflexivity.
  - rewrite Hw'. vm_compute. reflexivity.
  - rewrite Hw'. vm_compute. reflexivity.
Defined.

(** ** Where the variables of a scope come from *)

Section ScopeOrigin.

Context {St : Type}.
Variable parentElement : gmap Elem Elem.
Variable rootNode : Elem.

Lemma foldl_mergeContext_origin (rg : gmap Elem regEntry) l x v :
  ∀ sc : scope,
    foldl (mergeContext rg) sc l !! x = Some v →
    sc !! x = Some v ∨ ∃ anc, anc ∈ l ∧ ownContext rg anc !! x = Some v.
Proof.
  induction l as [|a l IH]; intros sc H; simpl in H; [auto|].
  apply IH in H as [H|(anc & Hin & H)].
  - rewrite mergeContext_lookup in H.
    destruct (ownContext rg a !! x) as [v'|] eqn:Ha.
    + injection H as ->. right. exists a. split; [left|exact Ha].
    + auto.
  - right. exists anc. split; [right; exact Hin|exact H].
Qed.

(** X10. A scope holds nothing but what the chain of ancestors provides.
    The first [buildScope(el)] returns, given fuel for the walk to the
    root; every variable of the scope it returns is bound, to that value,
    by the loop or with context of [el] itself or of one of its ancestors
    below the root, so the variables of other branches of the document do
    not leak into it.  The call records the providers found for [el] in
    the registry and changes nothing else: no context value, no other
    entry, no other part of the page. *)
Theorem buildScope_only_from_ancestors fuel el (w : Page St) l :
  contextAncestors (registry (reg w) el) = CAUndefined →
  walk_up parentElement rootNode (Some el) l →
  length l ≤ fuel →
  ∃ w' sc,
    buildScope parentElement rootNode fuel el w = (w', Ok sc)
    ∧ (∀ x v, sc !! x = Some v →
              ∃ anc, anc ∈ l ∧ anc ≠ rootNode
                     ∧ ownContext (reg w) anc !! x = Some v)
    ∧ (∀ e, loopContextValue (registry (reg w') e)
            = loopContextValue (registry (reg w) e)
            ∧ withContextValue (registry (reg w') e)
              = withContextValue (registry (reg w) e)
            ∧ boundEvents (registry (reg w') e)
              = boundEvents (registry (reg w) e)
            ∧ originalStyle (registry (reg w') e)
              = originalStyle (registry (reg w) e)
            ∧ originalClass (registry (reg w') e)
              = originalClass (registry (reg w) e)
            ∧ boundModel (registry (reg w') e) = boundModel (registry (reg w) e)
            ∧ (e ≠ el → registry (reg w') e = registry (reg w) e))
    ∧ w' = with_reg (reg w') w.
Proof.
  intros Hundef Hwalk Hfuel.
  rewrite (buildScope_first parentElement rootNode fuel el w l Hundef Hwalk Hfuel).
  eexists. eexists. split; [reflexivity|]. split; [|split].
  - intros x v Hx.
    apply foldl_mergeContext_origin in Hx as [Hx|(anc & Hin & Hx)].
    + rewrite lookup_empty in Hx. discriminate.
    + exists anc. apply list_elem_of_In, List.filter_In in Hin as [Hin _].
      apply list_elem_of_In in Hin. split; [exact Hin|]. split; [|exact Hx].
      clear - Hwalk Hin. revert Hin.
      induction Hwalk as [| |p l' Hne Hw IH]; intros Hin.
      * apply elem_of_nil in Hin. destruct Hin.
      * apply elem_of_nil in Hin. destruct Hin.
      * apply elem_of_cons in Hin as [->|Hin]; [exact Hne|auto].
  - intros e. simpl. destruct (decide (el = e)) as [->|Hne].
    + rewrite registry_update_eq. simpl. repeat split; try reflexivity.
      intros H. contradiction.
    + rewrite registry_update_ne by exact Hne. repeat split; reflexivity.
  - reflexivity.
Qed.

End ScopeOrigin.

(** On the page of the nested example: the scope of the [<span>] [4]
    holds [item], bound by the loop item [2] and by the scoped variable
    [3] above it. *)
Lemma buildScope_only_from_ancestors_witness :
  ∃ w' sc,
    buildScope nestedTree 0 8 4 shadowingPage = (w', Ok sc)
    ∧ (∀ x v, sc !! x = Some v →
              ∃ anc, anc ∈ [4; 3; 2; 1] ∧ anc ≠ 0
                     ∧ ownContext (reg shadowingPage) anc !! x = Some v).
Proof.
  destruct (buildScope_only_from_ancestors nestedTree 0 8 4 shadowingPage
              [4; 3; 2; 1] eq_refl)
    as (w' & sc & Hrun & Horigin & _).
  - repeat (apply walk_step; [discriminate|]). apply walk_root.
  - vm_compute. lia.
  - exists w', sc. split; [exact Hrun|exact Horigin].
Defined.

(** ** Walking the tree *)

Section TraverseFacts.

Context {D : Type}.
Variable elementChildren : D → Elem → list Elem.
Variable isConnected : D → Elem → bool.
Variable callback : Elem → D → D * result unit.

Lemma pushChildren_app d el stack :
  pushChildren elementChildren d el stack = elementChildren d el ++ stack.
Proof.
  unfold pushChildren. generalize (elementChildren d el). intros l.
  revert stack. induction l as [|x l IH] using rev_ind; intros stack.
  - reflexivity.
  - rewrite rev_app_distr. simpl. rewrite IH, <- app_assoc. reflexivity.
Qed.

Lemma visitAll_app l1 l2 d :
  visitAll callback (l1 ++ l2) d
  = match visitAll callback l1 d with
    | (d1, Ok _) => visitAll callback l2 d1
    | r => r
    end.
Proof.
  revert d. induction l1 as [|e l1 IH]; intros d; simpl; [reflexivity|].
  destruct (callback e d) as [d1 [[]|err|]]; [apply IH|reflexivity..].
Qed.

Lemma describes_all children kids :
  fold_right (fun k rest => describes children k ∧ rest) True kids
  ↔ Forall (describes children) kids.
Proof.
  induction kids as [|k kids IH]; simpl.
  - split; [constructor|auto].
  - rewrite IH. split.
    + intros [Hk Hall]. constructor; assumption.
    + intros H. apply Forall_cons in H. exact H.
Qed.

(** The loop over a stack of trees that stay as they are. *)
Lemma traverseLoop_static :
  (∀ el d, elementChildren (fst (callback el d)) = elementChildren d) →
  ∀ fuel ts d,
    Forall (describes (elementChildren d)) ts →
    list_sum (map elementCount ts) ≤ fuel →
    traverseLoop elementChildren callback fuel (map rootOf ts) d
    = visitAll callback (flat_map preorder ts) d.
Proof.
  intros Hstatic.
  induction fuel as [|fuel IH]; intros ts d Hts Hfuel.
  - destruct ts as [|[el kids] ts]; [reflexivity|simpl in Hfuel; lia].
  - destruct ts as [|[el kids] ts]; [reflexivity|].
    apply Forall_cons in Hts as [[Hkids Hall] Hts].
    apply describes_all in Hall.
    simpl. specialize (Hstatic el d).
    destruct (callback el d) as [d1 [[]|err|]]; try reflexivity.
    simpl in Hstatic.
    rewrite pushChildren_app, Hstatic, Hkids, <- map_app, <- flat_map_app.
    apply IH.
    + rewrite Hstatic. apply Forall_app. split; assumption.
    + simpl in Hfuel. rewrite map_app, list_sum_app. lia.
Qed.

(** X11. The render pass visits the document in document order.  While
    the callback leaves the element children of every element as they
    are, [traverseDom], given fuel for the elements of the tree, calls it
    on every element of the tree below the root, the root included, once
    and in document order; a callback that throws ends the pass there,
    and the elements after it are not visited.  Whatever the callback
    does, the elements visited right after an element are its element
    children as the callback left them; and [renderTree] does nothing
    for an element that is not connected. *)
Theorem traverseDom_document_order fuel t d :
  ((∀ el d', elementChildren (fst (callback el d')) = elementChildren d') →
   describes (elementChildren d) t →
   elementCount t ≤ fuel →
   traverseDom elementChildren callback fuel (Some (rootOf t)) d
   = visitAll callback (preorder t) d
   ∧ (isConnected d (rootOf t) = true →
      renderTree elementChildren isConnected callback fuel (rootOf t) d
      = visitAll callback (preorder t) d))
  ∧ (∀ el stack d1,
       callback el d = (d1, Ok tt) →
       traverseLoop elementChildren callback (Datatypes.S fuel) (el :: stack) d
       = traverseLoop elementChildren callback fuel
           (elementChildren d1 el ++ stack) d1)
  ∧ (∀ el, isConnected d el = false →
           renderTree elementChildren isConnected callback fuel el d
           = (d, Ok tt)).
Proof.
  split; [|split].
  - intros Hstatic Ht Hfuel.
    assert (H : traverseDom elementChildren callback fuel (Some (rootOf t)) d
                = visitAll callback (preorder t) d).
    { pose proof (traverseLoop_static Hstatic fuel [t] d) as H.
      simpl in H. rewrite app_nil_r, Nat.add_0_r in H.
      apply H; [|exact Hfuel]. constructor; [exact Ht|constructor]. }
    split; [exact H|]. intros Hc. unfold renderTree. rewrite Hc. exact H.
  - intros el stack d1 Hcb. simpl. rewrite Hcb, pushChildren_app. reflexivity.
  - intros el Hc. unfold renderTree. rewrite Hc. reflexivity.
Qed.

End TraverseFacts.

(** The pass over the example document visits [0], [1], [3], [4], [2];
    with a callback that throws on [3] it ends after [0] and [1]. *)
Lemma traverseDom_document_order_witness :
  traverseDom (fun d el => default [] (kidsOf d !! el)) (recordVisit None) 5
    (Some 0) exampleDocument
  = (mkVisits (kidsOf exampleDocument) [0; 1; 3; 4; 2], Ok tt)
  ∧ traverseDom (fun d el => default [] (kidsOf d !! el)) (recordVisit (Some 3))
      5 (Some 0) exampleDocument
    = (mkVisits (kidsOf exampleDocument) [0; 1], Throw (Thrown (VElem 3))).
Proof.
  split.
  - destruct (traverseDom_document_order
                (fun d el => default [] (kidsOf d !! el)) (fun _ _ => true)
                (recordVisit None) 5 exampleDom exampleDocument) as [H _].
    destruct H as [H _].
    + intros el d. unfold recordVisit. simpl. reflexivity.
    + vm_compute. auto 10.
    + vm_compute. lia.
    + exact H.
  - destruct (traverseDom_document_order
                (fun d el => default [] (kidsOf d !! el)) (fun _ _ => true)
                (recordVisit (Some 3)) 5 exampleDom exampleDocument) as [H _].
    destruct H as [H _].
    + intros el d. unfold recordVisit. destruct (bool_decide _); reflexivity.
    + vm_compute. auto 10.
    + vm_compute. lia.
    + exact H.
Defined.

(** ** Text templates *)

Section TextFacts.

Context {St : Type}.
Variable newFunction : list string → string → result (@compiled St).

Lemma removeBackticks_clean s :
  PhoebeText.includesBacktick (PhoebeText.removeBackticks s) = false.
Proof.
  induction s as [|c s IH]; [reflexivity|]. simpl.
  destruct (Ascii.eqb c "`") eqn:Hc; [exact IH|].
  simpl. rewrite Hc. exact IH.
Qed.

Lemma removeBackticks_id s :
  PhoebeText.includesBacktick s = false → PhoebeText.removeBackticks s = s.
Proof.
  induction s as [|c s IH]; [reflexivity|]. simpl.
  destruct (Ascii.eqb c "`"); [discriminate|].
  simpl. intros H. rewrite IH by exact H. reflexivity.
Qed.

(** What the first part of [render] leaves. *)
Lemma text_init this (el : PhoebeText.TextEl) (w : Page St) :
  let text := PhoebeText.removeBackticks (trim (PhoebeText.textContent el)) in
  ∃ w0,
    PhoebeText.init this el w = (w0, Ok (PhoebeText.mkTextEl "" 0))
    ∧ attributeOf this "data-text-template" w0 = Some ("`" +:+ text +:+ "`")
    ∧ ambient w0 = ambient w ∧ jsCache w0 = jsCache w ∧ reg w0 = reg w
    ∧ console w0
      = console w
        ++ (if 0 <? PhoebeText.childElementCount el
            then [(LWarn,
                   "Phoebe.js: <phoebe-text> should only contain text, not other elements")]
            else [])
        ++ (if PhoebeText.includesBacktick (trim (PhoebeText.textContent el))
            then [(LWarn, "Phoebe.js: <phoebe-text> may not include backticks:")]
            else []).
Proof.
  intros text. unfold PhoebeText.init, bind, console_log, ret.
  destruct (0 <? PhoebeText.childElementCount el);
    destruct (PhoebeText.includesBacktick (trim (PhoebeText.textContent el)))
      eqn:Hb; cbn -[setAttribute]; rewrite setAttribute_run;
    (eexists; split; [reflexivity|]);
    rewrite attributeOf_setAttribute, bool_decide_eq_true_2 by reflexivity;
    simpl; unfold text;
    rewrite ?(removeBackticks_id _ Hb), ?app_nil_r, <- ?app_assoc;
    auto 10.
Qed.

(** X12. The template of a [<phoebe-text>] is one sealed template
    literal.  On the first render the text of the element, trimmed and
    with every backtick taken out, is stored between two backticks as the
    template, the element is emptied, and what [render] evaluates is that
    template: no backtick of the text can end the literal.  A warning is
    logged when backticks were removed, and one when the element had
    element children.  A text without backticks is stored as it is. *)
Theorem text_template_is_sealed this sc (el : PhoebeText.TextEl) (w : Page St) :
  attributeOf this "data-text-template" w = None →
  let text := PhoebeText.removeBackticks (trim (PhoebeText.textContent el)) in
  ∃ w0,
    PhoebeText.includesBacktick text = false
    ∧ (PhoebeText.includesBacktick (trim (PhoebeText.textContent el)) = false →
       text = trim (PhoebeText.textContent el))
    ∧ attributeOf this "data-text-template" w0 = Some ("`" +:+ text +:+ "`")
    ∧ console w0
      = console w
        ++ (if 0 <? PhoebeText.childElementCount el
            then [(LWarn,
                   "Phoebe.js: <phoebe-text> should only contain text, not other elements")]
            else [])
        ++ (if PhoebeText.includesBacktick (trim (PhoebeText.textContent el))
            then [(LWarn, "Phoebe.js: <phoebe-text> may not include backticks:")]
            else [])
    ∧ PhoebeText.render newFunction this sc el w
      = (let! v := js_get newFunction ("`" +:+ text +:+ "`") sc this in
         ret (PhoebeText.mkTextEl (toStringOrEmpty v) 0)) w0
    ∧ attributeOf this "data-text-template"
        (fst (PhoebeText.render newFunction this sc el w))
      = Some ("`" +:+ text +:+ "`").
Proof.
  intros Hnone text.
  destruct (text_init this el w) as (w0 & Hinit & Hattr & _ & _ & _ & Hcons).
  fold text in Hattr.
  assert (Hrender : PhoebeText.render newFunction this sc el w
                    = (let! v := js_get newFunction ("`" +:+ text +:+ "`") sc
                                   this in
                       ret (PhoebeText.mkTextEl (toStringOrEmpty v) 0)) w0).
  { unfold PhoebeText.render. rewrite bind_getAttribute.
    unfold attributeOf in Hnone, Hattr. rewrite Hnone.
    rewrite (bind_ok _ _ _ _ _ Hinit), bind_getAttribute, Hattr. reflexivity. }
  exists w0. split; [apply removeBackticks_clean|].
  split; [intros H; apply removeBackticks_id; exact H|].
  split; [exact Hattr|]. split; [exact Hcons|]. split; [exact Hrender|].
  rewrite Hrender.
  pose proof (js_get_preserves newFunction ("`" +:+ text +:+ "`") sc this w0)
    as (_ & Ha & _).
  unfold bind, ret.
  destruct (js_get newFunction ("`" +:+ text +:+ "`") sc this w0)
    as [w1 [v|e|]]; simpl in *; unfold attributeOf in *; rewrite Ha; exact Hattr.
Qed.

(** X13. Later renders evaluate the stored template, not the text shown.
    Once the template is stored, [render] evaluates it whatever the
    element holds, writes the value as the text of the element, [null]
    and [undefined] as the empty text, logs nothing of its own and keeps
    the template: a render after a first render evaluates the same
    template again, under the scope it is given.  A template that throws
    leaves the error to the caller. *)
Theorem text_render_uses_stored_template this sc (el : PhoebeText.TextEl)
    (w : Page St) template :
  attributeOf this "data-text-template" w = Some template →
  PhoebeText.render newFunction this sc el w
  = (let! v := js_get newFunction template sc this in
     ret (PhoebeText.mkTextEl (toStringOrEmpty v) 0)) w
  ∧ (∀ w1 v, js_get newFunction template sc this w = (w1, Ok v) →
             PhoebeText.render newFunction this sc el w
             = (w1, Ok (PhoebeText.mkTextEl (toStringOrEmpty v) 0))
             ∧ attributeOf this "data-text-template" w1 = Some template
             ∧ ∀ sc' el',
                 PhoebeText.render newFunction this sc' el' w1
                 = (let! v := js_get newFunction template sc' this in
                    ret (PhoebeText.mkTextEl (toStringOrEmpty v) 0)) w1)
  ∧ (∀ w1 e, js_get newFunction template sc this w = (w1, Throw e) →
             PhoebeText.render newFunction this sc el w = (w1, Throw e)).
Proof.
  intros Htpl.
  assert (Hrun : ∀ sc' el' (w' : Page St),
             attributeOf this "data-text-template" w' = Some template →
             PhoebeText.render newFunction this sc' el' w'
             = (let! v := js_get newFunction template sc' this in
                ret (PhoebeText.mkTextEl (toStringOrEmpty v) 0)) w').
  { intros sc' el' w' H. unfold PhoebeText.render, attributeOf in *.
    rewrite bind_getAttribute, H. unfold bind at 1. unfold ret at 1.
    rewrite bind_getAttribute, H. reflexivity. }
  split; [apply Hrun; exact Htpl|]. split.
  - intros w1 v Hget. rewrite (Hrun _ _ _ Htpl), (bind_ok _ _ _ _ _ Hget).
    split; [reflexivity|].
    pose proof (js_get_preserves newFunction template sc this w) as (_ & Ha & _).
    rewrite Hget in Ha. simpl in Ha.
    assert (H1 : attributeOf this "data-text-template" w1 = Some template)
      by (unfold attributeOf in *; rewrite Ha; exact Htpl).
    split; [exact H1|]. intros sc' el'. apply Hrun. exact H1.
  - intros w1 e Hget. rewrite (Hrun _ _ _ Htpl). unfold bind. rewrite Hget.
    reflexivity.
Qed.

End TextFacts.

(** [<phoebe-text> a`b </phoebe-text>]: the template stored is [`ab`]. *)
Lemma text_template_is_sealed_witness :
  let el := PhoebeText.mkTextEl " a`b " 0 in
  let w := Host.emptyPage Host.emptyState in
  attributeOf 1 "data-text-template"
    (fst (PhoebeText.render Host.newFunction 1 ∅ el w))
  = Some "`ab`".
Proof.
  intros el w.
  destruct (text_template_is_sealed Host.newFunction 1 ∅ el w eq_refl)
    as (w0 & _ & _ & _ & _ & _ & H).
  exact H.
Defined.

(** An element whose stored template is the variable [t], set to ["hi"]:
    the text shown before is replaced by the value. *)
Lemma text_render_uses_stored_template_witness :
  let w := directivePage [("data-text-template", "t")] in
  snd (PhoebeText.render Host.newFunction 1 ∅ (PhoebeText.mkTextEl "old" 0) w)
  = Ok (PhoebeText.mkTextEl "hi" 0).
Proof.
  intros w.
  assert (Hget : js_get Host.newFunction "t" ∅ 1 w
                 = (fst (js_get Host.newFunction "t" ∅ 1 w), Ok (VStr "hi")))
    by (vm_compute; reflexivity).
  destruct (text_render_uses_stored_template Host.newFunction 1 ∅
              (PhoebeText.mkTextEl "old" 0) w "t" eq_refl) as (_ & Hok & _).
  destruct (Hok _ _ Hget) as [Hrun _]. rewrite Hrun. reflexivity.
Defined.

(** ** The interval of a timer *)

Section TimerFacts.

Variable num : Type.
Variable zero : num.
Variable parseFloat : string → num.
Variable isNaN : num → bool.
Variable times1000 : num → num.
Context {St : Type}.
Variable parentElement : gmap Elem Elem.

Local Abbreviation State := (PhoebeTimer.State num).
Local Abbreviation Window := (PhoebeTimer.Window num).
Local Abbreviation run :=
  (PhoebeTimer.run num parseFloat isNaN times1000 (St := St) parentElement).
Local Abbreviation step :=
  (PhoebeTimer.step num parseFloat isNaN times1000 (St := St) parentElement).

Lemma timer_step_invariant fuel this e (win0 : Window) (s s' : State)
    (w w' : Page St) :
  (∀ r, r ∈ PhoebeTimer.running num win0 → fst r < PhoebeTimer.nextId num win0) →
  PhoebeTimer.ownsAtMostOne num win0 s →
  step fuel this e s w = (w', Ok s') →
  PhoebeTimer.ownsAtMostOne num win0 s'.
Proof.
  intros Hwin0 [Hnext Hown] Hstep. destruct e as [| |sc]; simpl in Hstep.
  - unfold PhoebeTimer.connectedCallback in Hstep.
    rewrite !bind_getAttribute in Hstep.
    destruct (attr_truthy _ && negb (isNaN _) && _).
    + destruct (schedule parentElement fuel this (PhoebeTimer.queue num s));
        [|discriminate].
      injection Hstep as <- <-. split; assumption.
    + injection Hstep as <- <-. split; assumption.
  - injection Hstep as <- <-. unfold PhoebeTimer.disconnectedCallback.
    split; [destruct (PhoebeTimer.handle num (PhoebeTimer.timer num s));
            simpl; exact Hnext|].
    simpl. destruct (PhoebeTimer.handle num (PhoebeTimer.timer num s))
      as [id|]; [|exact Hown].
    destruct Hown as [[Hlo Hhi] [delay Hrun]]. simpl.
    rewrite Hrun, List.filter_app. simpl.
    rewrite bool_decide_eq_true_2 by reflexivity. simpl.
    rewrite app_nil_r. apply forallb_filter_id, forallb_forall.
    intros r Hr. apply list_elem_of_In in Hr.
    apply negb_true_iff, bool_decide_eq_false_2.
    specialize (Hwin0 r Hr). lia.
  - injection Hstep as <- <-. unfold PhoebeTimer.render. simpl.
    destruct (PhoebeTimer.shouldRun num (PhoebeTimer.timer num s)); simpl;
      [|split; assumption].
    destruct (PhoebeTimer.handle num (PhoebeTimer.timer num s)) as [id|] eqn:Hh;
      simpl.
    + split; assumption.
    + unfold PhoebeTimer.ownsAtMostOne. simpl.
      split; [lia|]. split; [lia|]. rewrite Hown. eexists. reflexivity.
Qed.

Lemma timer_run_invariant fuel this (win0 : Window) events :
  (∀ r, r ∈ PhoebeTimer.running num win0 → fst r < PhoebeTimer.nextId num win0) →
  ∀ (s s' : State) (w w' : Page St),
    PhoebeTimer.ownsAtMostOne num win0 s →
    run fuel this events s w = (w', Ok s') →
    PhoebeTimer.ownsAtMostOne num win0 s'.
Proof.
  intros Hwin0. induction events as [|e events IH]; intros s s' w w' Hinv Hrun.
  - injection Hrun as <- <-. exact Hinv.
  - simpl in Hrun. apply bind_inv in Hrun as (w1 & s1 & Hstep & Hrun).
    eapply IH; [|exact Hrun].
    eapply timer_step_invariant; eassumption.
Qed.

Lemma timer_run_total fuel this l events :
  path_up parentElement (Some this) l → length l ≤ fuel →
  ∀ (s : State) (w : Page St), ∃ w' s', run fuel this events s w = (w', Ok s').
Proof.
  intros Hpath Hfuel. induction events as [|e events IH]; intros s w.
  - eexists. eexists. reflexivity.
  - assert (Hstep : ∃ w1 s1, step fuel this e s w = (w1, Ok s1)).
    { destruct e as [| |sc]; simpl; try (eexists; eexists; reflexivity).
      unfold PhoebeTimer.connectedCallback. rewrite !bind_getAttribute.
      destruct (attr_truthy _ && negb (isNaN _) && _).
      - destruct (schedule_total parentElement fuel this
                    (PhoebeTimer.queue num s) l Hpath Hfuel) as (q & ->).
        eexists. eexists. reflexivity.
      - eexists. eexists. reflexivity. }
    destruct Hstep as (w1 & s1 & Hstep).
    destruct (IH s1 w1) as (w' & s' & Hrun).
    exists w', s'. simpl. rewrite (bind_ok _ _ _ _ _ Hstep). exact Hrun.
Qed.

Lemma timer_run_app fuel this events1 events2 (s : State) (w : Page St) :
  run fuel this (events1 ++ events2) s w
  = bind (run fuel this events1 s) (run fuel this events2) w.
Proof.
  revert s w. induction events1 as [|e events1 IH]; intros s w; simpl.
  - reflexivity.
  - unfold bind.
    destruct (step fuel this e s w) as [w1 [s1|err|]]; try reflexivity.
    rewrite IH. reflexivity.
Qed.

(** X14. A timer never runs more than one interval.  Whatever sequence
    of connects, disconnects and renders reaches a [<phoebe-timer>]
    created in a window, the calls return, given fuel for the walk to the
    top of the document, and afterwards the intervals of the window run
    as before and at most one more does: the one whose id the element
    holds.  After a disconnect and any renders behind it the element
    holds no id and none of its intervals is left. *)
Theorem timer_runs_at_most_one_interval fuel this l (win0 : Window) q events
    renders (w : Page St) :
  path_up parentElement (Some this) l → length l ≤ fuel →
  (∀ r, r ∈ PhoebeTimer.running num win0 → fst r < PhoebeTimer.nextId num win0) →
  let s0 := PhoebeTimer.mkState num (PhoebeTimer.newTimer num zero) win0 q in
  (∃ w' s,
      run fuel this events s0 w = (w', Ok s)
      ∧ PhoebeTimer.ownsAtMostOne num win0 s)
  ∧ (∃ w' s,
        run fuel this
          (events ++ PhoebeTimer.Disconnect :: map PhoebeTimer.Render renders)
          s0 w = (w', Ok s)
        ∧ PhoebeTimer.handle num (PhoebeTimer.timer num s) = None
        ∧ PhoebeTimer.running num (PhoebeTimer.window num s)
          = PhoebeTimer.running num win0).
Proof.
  intros Hpath Hfuel Hwin0 s0.
  assert (Hinv0 : PhoebeTimer.ownsAtMostOne num win0 s0)
    by (split; [simpl; lia|reflexivity]).
  split.
  - destruct (timer_run_total fuel this l events Hpath Hfuel s0 w)
      as (w' & s & Hrun).
    exists w', s. split; [exact Hrun|].
    eapply timer_run_invariant; eassumption.
  - destruct (timer_run_total fuel this l events Hpath Hfuel s0 w)
      as (w1 & s1 & Hrun1).
    pose proof (timer_run_invariant fuel this win0 events Hwin0 _ _ _ _
                  Hinv0 Hrun1) as Hinv1.
    rewrite timer_run_app, (bind_ok _ _ _ _ _ Hrun1). simpl.
    unfold bind at 1. unfold ret at 1.
    assert (Hd : PhoebeTimer.ownsAtMostOne num win0
                   (PhoebeTimer.disconnectedCallback num s1)).
    { apply (timer_step_invariant fuel this PhoebeTimer.Disconnect win0 s1
               (PhoebeTimer.disconnectedCallback num s1) w1 w1 Hwin0 Hinv1).
      reflexivity. }
    assert (Hidle : PhoebeTimer.handle num
                      (PhoebeTimer.timer num
                         (PhoebeTimer.disconnectedCallback num s1)) = None
                    ∧ PhoebeTimer.shouldRun num
                        (PhoebeTimer.timer num
                           (PhoebeTimer.disconnectedCallback num s1)) = false)
      by (split; reflexivity).
    revert Hd Hidle.
    generalize (PhoebeTimer.disconnectedCallback num s1). clear Hrun1 Hinv1 s1.
    revert w1. induction renders as [|sc renders IH]; intros w1 s [Hn Hown] [Hh Hs].
    + exists w1, s. split; [reflexivity|]. split; [exact Hh|].
      rewrite Hh in Hown. exact Hown.
    + simpl. unfold bind at 1. unfold ret at 1.
      apply IH.
      * unfold PhoebeTimer.render. simpl. rewrite Hs. simpl.
        split; [exact Hn|exact Hown].
      * unfold PhoebeTimer.render. simpl. rewrite Hs. simpl. auto.
Qed.

End TimerFacts.

(** The example timer connected, rendered twice, disconnected, connected
    again and rendered: one interval runs, with a delay of 2000 ms. *)
Lemma timer_runs_at_most_one_interval_witness :
  let win0 := PhoebeTimer.mkWindow (option Z) 1 [] in
  let s0 := PhoebeTimer.mkState (option Z)
              (PhoebeTimer.newTimer (option Z) (Some 0%Z)) win0 idle in
  let events := [PhoebeTimer.Connect; PhoebeTimer.Render ∅;
                 PhoebeTimer.Render ∅; PhoebeTimer.Disconnect;
                 PhoebeTimer.Connect; PhoebeTimer.Render ∅] in
  (∃ w' s,
      PhoebeTimer.run (option Z) exampleParseFloat
        (fun n => bool_decide (n = None)) (fmap (Z.mul 1000)) exampleTree
        4 1 events s0 timerPage = (w', Ok s)
      ∧ PhoebeTimer.ownsAtMostOne (option Z) win0 s)
  ∧ PhoebeTimer.running (option Z)
      (PhoebeTimer.window (option Z)
         (default s0
            (match snd (PhoebeTimer.run (option Z) exampleParseFloat
                          (fun n => bool_decide (n = None))
                          (fmap (Z.mul 1000)) exampleTree 4 1 events s0
                          timerPage) with
             | Ok s => Some s
             | _ => None
             end)))
    = [(2, Some 2000%Z)].
Proof.
  intros win0 s0 events. split; [|vm_compute; reflexivity].
  destruct (timer_runs_at_most_one_interval (option Z) (Some 0%Z)
              exampleParseFloat (fun n => bool_decide (n = None))
              (fmap (Z.mul 1000)) exampleTree 4 1 [1; 0] win0 idle events []
              timerPage) as [H _].
  - apply path_step, path_step, path_null.
  - vm_compute. lia.
  - intros r Hr. apply elem_of_nil in Hr. destruct Hr.
  - exact H.
Defined.

(** ** Loops that leave the document *)

Section CleanupFacts.

Import PhoebeForCleanup.

Lemma clearTimeout_fresh id (t : Timeouts) :
  (∀ i, i ∈ waiting t → i < id) →
  List.filter (fun i => negb (i =? id)) (waiting t ++ [id]) = waiting t.
Proof.
  intros Hlt. rewrite List.filter_app. simpl. rewrite Nat.eqb_refl. simpl.
  rewrite app_nil_r. apply forallb_filter_id, forallb_forall.
  intros i Hi. apply list_elem_of_In, Hlt in Hi.
  apply negb_true_iff, Nat.eqb_neq. lia.
Qed.

(** X15. A loop that is moved keeps its items, a loop that is removed
    drops them.  When a [<phoebe-for>] leaves the document and enters it
    again before the timeout it set has fired, as when an ancestor
    [<phoebe-if>] moves it, the timeout is cancelled and nothing of the
    loop changes.  When the timeout fires while the loop is still out of
    the document, a rendered loop keeps its template as the only child
    and forgets its key index, so that it is still initialized; a loop
    that was never rendered stays as it is.  Whatever timeout fires, a
    loop that is in the document keeps its children and its key index. *)
Theorem loop_cleanup (s : Life) :
  0 < nextTimeout (timeouts s) →
  (∀ i, i ∈ waiting (timeouts s) → i < nextTimeout (timeouts s)) →
  (forEl (connect (disconnect s)) = forEl s
   ∧ waiting (timeouts (connect (disconnect s))) = waiting (timeouts s)
   ∧ cleanupTimeoutHandle (connect (disconnect s)) = None)
  ∧ (let s' := fireTimeout (nextTimeout (timeouts s)) (disconnect s) in
     waiting (timeouts s') = waiting (timeouts s)
     ∧ (PhoebeFor.isInitDone (PhoebeFor.children (forEl s)) = true →
        ∃ template,
          childNodes (PhoebeFor.children (forEl s')) = [Element template]
          ∧ head (childNodes (PhoebeFor.children (forEl s)))
            = Some (Element template)
          ∧ templates (PhoebeFor.children (forEl s'))
            = templates (PhoebeFor.children (forEl s))
          ∧ PhoebeFor.keyElements (forEl s') = None
          ∧ PhoebeFor.isInitDone (PhoebeFor.children (forEl s')) = true)
     ∧ (PhoebeFor.isInitDone (PhoebeFor.children (forEl s)) = false →
        forEl s' = forEl s))
  ∧ (∀ id, isConnected s = true → forEl (fireTimeout id s) = forEl s).
Proof.
  intros Hpos Hfresh. split; [|split].
  - unfold connect, disconnect, disconnectedCallback, connectedCallback. simpl.
    assert (Hnz : negb (nextTimeout (timeouts s) =? 0) = true)
      by (apply negb_true_iff, Nat.eqb_neq; lia).
    rewrite Hnz. simpl. rewrite clearTimeout_fresh by exact Hfresh. auto.
  - unfold fireTimeout, disconnect, disconnectedCallback. simpl.
    rewrite bool_decide_eq_true_2
      by (apply elem_of_app; right; apply list_elem_of_singleton; reflexivity).
    unfold cleanup. simpl.
    destruct (PhoebeFor.isInitDone (PhoebeFor.children (forEl s))) eqn:Hinit;
      simpl; rewrite clearTimeout_fresh by exact Hfresh.
    + split; [reflexivity|]. split; [|discriminate]. intros _.
      unfold PhoebeFor.isInitDone, firstChildRole in *.
      destruct (childNodes (PhoebeFor.children (forEl s))) as [|[t| |] rest]
        eqn:Hkids; try (apply bool_decide_eq_true in Hinit; discriminate).
      exists t. simpl. rewrite ?Hkids. simpl. auto 10.
    + split; [reflexivity|]. split; [discriminate|]. reflexivity.
  - intros id Hc. unfold fireTimeout, cleanup. simpl. rewrite Hc. simpl.
    destruct (bool_decide _); reflexivity.
Qed.

End CleanupFacts.

(** The rendered example loop, moved and removed. *)
Lemma loop_cleanup_witness :
  PhoebeForCleanup.forEl
    (PhoebeForCleanup.connect (PhoebeForCleanup.disconnect renderedLoop))
  = PhoebeForCleanup.forEl renderedLoop
  ∧ childNodes
      (PhoebeFor.children
         (PhoebeForCleanup.forEl
            (PhoebeForCleanup.fireTimeout 1
               (PhoebeForCleanup.disconnect renderedLoop))))
    = [Element 100].
Proof.
  destruct (loop_cleanup renderedLoop) as ((Hmoved & _) & (_ & Hgone & _) & _).
  - vm_compute. lia.
  - intros i Hi. apply elem_of_nil in Hi. destruct Hi.
  - split; [exact Hmoved|].
    destruct (Hgone eq_refl) as (t & Hkids & Hhead & _).
    simpl in Hhead. injection Hhead as <-. exact Hkids.
Defined.

(** ** The keyed loop: where the item elements end up *)

Section KeyedPlacement.

Implicit Types (t c K e : Elem) (X Y L P : list Elem).

Lemma removeChild_map K L :
  removeChild K (map Element L) = map Element (filter (λ e, e ≠ K) L).
Proof.
  unfold removeChild. induction L as [|e L IH]; [reflexivity|]. simpl.
  destruct (decide (e = K)) as [->|Hne].
  - rewrite bool_decide_eq_true_2 by reflexivity. simpl.
    rewrite filter_cons_False by auto. exact IH.
  - rewrite bool_decide_eq_false_2 by congruence. simpl.
    rewrite filter_cons_True by exact Hne. simpl. f_equal. exact IH.
Qed.

Lemma removeChild_template t K L :
  K ≠ t →
  removeChild K (Element t :: map Element L)
  = Element t :: map Element (filter (λ e, e ≠ K) L).
Proof.
  intros Hne. change (Element t :: map Element L)
    with ([Element t] ++ map Element L).
  rewrite removeChild_app, removeChild_map.
  rewrite (removeChild_absent K [Element t]); [reflexivity|].
  intros H. apply list_elem_of_singleton in H. congruence.
Qed.

Lemma filter_ne_notin K L : K ∉ L → filter (λ e, e ≠ K) L = L.
Proof.
  intros Hnin. induction L as [|e L IH]; [reflexivity|].
  apply not_elem_of_cons in Hnin as [Hne Hnin].
  rewrite filter_cons_True by congruence. f_equal. auto.
Qed.

Lemma sublist_filter_ne K P L :
  P `sublist_of` L → K ∉ P → P `sublist_of` filter (λ e, e ≠ K) L.
Proof.
  induction 1 as [|x l1 l2 Hs IH|x l1 l2 Hs IH]; intros Hnin.
  - constructor.
  - apply not_elem_of_cons in Hnin as [Hne Hnin].
    rewrite filter_cons_True by congruence. constructor. auto.
  - destruct (decide (x = K)) as [->|Hne].
    + rewrite filter_cons_False by auto. auto.
    + rewrite filter_cons_True by exact Hne. constructor. auto.
Qed.

Lemma nextElementSibling_in t X c Y :
  NoDup (t :: X ++ c :: Y) →
  nextElementSibling c (Element t :: map Element (X ++ c :: Y)) = head Y.
Proof.
  intros Hnd.
  replace (Element t :: map Element (X ++ c :: Y))
    with ((Element t :: map Element X) ++ Element c :: map Element Y)
    by (rewrite map_app; reflexivity).
  rewrite nextElementSibling_found; [apply firstElementChild_elements|].
  apply NoDup_cons in Hnd as [Ht Hnd].
  apply NoDup_app in Hnd as (_ & Hdis & _).
  intros Hin. apply elem_of_cons in Hin as [Hin|Hin].
  - injection Hin as ->. apply Ht. apply elem_of_app. right. left.
  - apply elem_of_map_Element in Hin. apply (Hdis c Hin). left.
Qed.

Lemma nextElementSibling_template t L :
  nextElementSibling t (Element t :: map Element L) = head L.
Proof.
  simpl. rewrite bool_decide_eq_true_2 by reflexivity.
  apply firstElementChild_elements.
Qed.

Lemma insertAt_in K t X y Y :
  y ≠ t → y ∉ X →
  insertAt K y (Element t :: map Element (X ++ y :: Y))
  = Element t :: map Element (X ++ K :: y :: Y).
Proof.
  intros Hyt Hy. simpl. rewrite bool_decide_eq_false_2 by congruence. f_equal.
  induction X as [|x X IH]; simpl.
  - rewrite bool_decide_eq_true_2 by reflexivity. reflexivity.
  - apply not_elem_of_cons in Hy as [Hne Hy].
    rewrite bool_decide_eq_false_2 by congruence. f_equal. auto.
Qed.

(** [insertBefore(K, null)]: the element [K] goes to the end. *)
Lemma insertBefore_end t L K :
  K ≠ t →
  insertBefore K None (Element t :: map Element L)
  = Ok (Element t :: map Element (filter (λ e, e ≠ K) L ++ [K])).
Proof.
  intros Hne. unfold insertBefore.
  rewrite removeChild_template by exact Hne. rewrite map_app. reflexivity.
Qed.

(** [insertBefore(K, c.nextElementSibling)]: the element [K] goes right
    behind [c]. *)
Lemma insertBefore_behind t X c Y K :
  NoDup (t :: X ++ c :: Y) → K ≠ t → K ≠ c →
  insertBefore K (head Y) (Element t :: map Element (X ++ c :: Y))
  = Ok (Element t
          :: map Element (filter (λ e, e ≠ K) X
                            ++ c :: K :: filter (λ e, e ≠ K) Y)).
Proof.
  intros Hnd Hkt Hkc.
  destruct Y as [|y Y].
  - change (head []) with (@None Elem). rewrite insertBefore_end by exact Hkt.
    rewrite filter_app, filter_cons_True by congruence.
    rewrite filter_nil, <- app_assoc. reflexivity.
  - change (head (y :: Y)) with (Some y). unfold insertBefore.
    rewrite bool_decide_eq_true_2.
    2: { right. apply elem_of_map_Element. apply elem_of_app. right.
         right. left. }
    simpl negb. cbv iota.
    apply NoDup_cons in Hnd as [Ht Hnd].
    assert (Hnd' := Hnd).
    apply NoDup_app in Hnd' as (HndX & Hdis & HndR).
    apply NoDup_cons in HndR as [Hc HndY].
    apply NoDup_cons in HndY as [Hy HndY].
    destruct (decide (y = K)) as [->|Hyk].
    + rewrite bool_decide_eq_true_2 by reflexivity.
      rewrite filter_cons_False by auto.
      rewrite (filter_ne_notin K Y) by exact Hy.
      rewrite (filter_ne_notin K X);
        [reflexivity|].
      intros Hin. apply (Hdis K Hin). right. left.
    + rewrite bool_decide_eq_false_2 by exact Hyk.
      rewrite removeChild_template by exact Hkt.
      rewrite filter_app, filter_cons_True by congruence.
      rewrite (filter_cons_True _ y) by exact Hyk.
      replace (filter (λ e, e ≠ K) X ++ c :: y :: filter (λ e, e ≠ K) Y)
        with ((filter (λ e, e ≠ K) X ++ [c]) ++ y :: filter (λ e, e ≠ K) Y)
        by (rewrite <- app_assoc; reflexivity).
      rewrite insertAt_in.
      * rewrite <- app_assoc. reflexivity.
      * intros ->. apply Ht. apply elem_of_app. right. right. left.
      * intros Hin. apply elem_of_app in Hin as [Hin|Hin].
        -- apply list_elem_of_filter in Hin as [_ Hin].
           apply (Hdis y Hin). right. left.
        -- apply list_elem_of_singleton in Hin. subst y. apply Hc. left.
Qed.

Lemma NoDup_placed K (l : list Elem) :
  NoDup l → NoDup (K :: filter (λ e, e ≠ K) l).
Proof.
  intros Hnd. apply NoDup_cons. split; [|apply NoDup_filter; exact Hnd].
  intros Hin. apply list_elem_of_filter in Hin as [Hne _]. congruence.
Qed.

(** The item element is the current element: it stays where it is. *)
Lemma position_keep t P X c Y nodes :
  keyedPosition t P X (c :: Y) nodes (Some c) →
  keyedPosition t (P ++ [c]) (X ++ [c]) Y nodes (nextElementSibling c nodes).
Proof.
  intros (-> & _ & Hnd & Hsub). split; [|split; [|split]].
  - rewrite <- app_assoc. reflexivity.
  - apply nextElementSibling_in. exact Hnd.
  - rewrite <- app_assoc. exact Hnd.
  - apply sublist_app; [exact Hsub|reflexivity].
Qed.

(** The item element is not the current element: it goes right behind
    it, or to the end when there is no current element. *)
Lemma position_move t P X R nodes cur K :
  keyedPosition t P X R nodes cur →
  K ≠ t → K ∉ P → cur ≠ Some K →
  ∃ nodes' X' R',
    insertBefore K (match cur with
                    | Some c => nextElementSibling c nodes
                    | None => None
                    end) nodes = Ok nodes'
    ∧ keyedPosition t (P ++ [K]) X' R' nodes' (nextElementSibling K nodes')
    ∧ ∀ e, e ∈ X' ++ R' ↔ e ∈ X ++ R ∨ e = K.
Proof.
  intros (-> & -> & Hnd & Hsub) Hkt HkP Hcur.
  destruct R as [|c Y].
  - exists (Element t :: map Element (filter (λ e, e ≠ K) X ++ [K])),
      (filter (λ e, e ≠ K) X ++ [K]), [].
    assert (Hnd' : NoDup (t :: filter (λ e, e ≠ K) X ++ [K])).
    { rewrite app_nil_r in Hnd.
      apply (NoDup_Permutation_proper _ (K :: filter (λ e, e ≠ K) (t :: X))).
      - rewrite filter_cons_True by (simpl; congruence).
        rewrite (Permutation_app_comm _ [K]). simpl. apply perm_swap.
      - apply NoDup_placed. exact Hnd. }
    split; [|split; [split; [|split; [|split]]|]].
    + simpl. rewrite app_nil_r. apply insertBefore_end. exact Hkt.
    + rewrite app_nil_r. reflexivity.
    + replace (filter (λ e, e ≠ K) X ++ [K])
        with (filter (λ e, e ≠ K) X ++ K :: []) by reflexivity.
      apply nextElementSibling_in. exact Hnd'.
    + rewrite app_nil_r. exact Hnd'.
    + apply sublist_app; [|reflexivity]. apply sublist_filter_ne; assumption.
    + intros e. rewrite !app_nil_r, elem_of_app, list_elem_of_filter,
        list_elem_of_singleton.
      destruct (decide (e = K)); tauto.
  - assert (Hkc : K ≠ c) by (intros ->; apply Hcur; reflexivity).
    exists (Element t
              :: map Element (filter (λ e, e ≠ K) X
                                ++ c :: K :: filter (λ e, e ≠ K) Y)),
      (filter (λ e, e ≠ K) X ++ [c; K]), (filter (λ e, e ≠ K) Y).
    assert (Heq : (filter (λ e, e ≠ K) X ++ [c; K]) ++ filter (λ e, e ≠ K) Y
                  = filter (λ e, e ≠ K) X ++ c :: K :: filter (λ e, e ≠ K) Y)
      by (rewrite <- app_assoc; reflexivity).
    assert (Hnd' : NoDup (t :: filter (λ e, e ≠ K) X
                            ++ c :: K :: filter (λ e, e ≠ K) Y)).
    { apply (NoDup_Permutation_proper _
               (K :: filter (λ e, e ≠ K) (t :: X ++ c :: Y))).
      - rewrite filter_cons_True, filter_app, filter_cons_True
          by (simpl; congruence).
        pose proof (Permutation_middle (t :: filter (λ e, e ≠ K) X ++ [c])
                      (filter (λ e, e ≠ K) Y) K) as Hperm.
        simpl in Hperm. rewrite <- !app_assoc in Hperm. symmetry. exact Hperm.
      - apply NoDup_placed. exact Hnd. }
    split; [|split; [split; [|split; [|split]]|]].
    + change (head (c :: Y)) with (Some c). cbv beta iota.
      rewrite nextElementSibling_in by exact Hnd.
      apply insertBefore_behind; assumption.
    + rewrite Heq. reflexivity.
    + replace (filter (λ e, e ≠ K) X ++ c :: K :: filter (λ e, e ≠ K) Y)
        with ((filter (λ e, e ≠ K) X ++ [c]) ++ K :: filter (λ e, e ≠ K) Y)
        by (rewrite <- app_assoc; reflexivity).
      apply nextElementSibling_in. rewrite <- app_assoc. exact Hnd'.
    + rewrite Heq. exact Hnd'.
    + apply sublist_app.
      * apply sublist_filter_ne; assumption.
      * apply sublist_cons. reflexivity.
    + intros e. rewrite Heq. rewrite !elem_of_app, !elem_of_cons,
        !list_elem_of_filter.
      destruct (decide (e = K)); tauto.
Qed.

End KeyedPlacement.

(** ** The keyed loop: the key index *)

Section KeyIndex.

Implicit Types (m : list (value * option Elem)) (L : list Elem).

Lemma map_get_None key m : PhoebeFor.map_get key m = None ↔ key ∉ map fst m.
Proof.
  induction m as [|[k v] m IH]; simpl.
  - split; [intros _ H; apply elem_of_nil in H; destruct H|reflexivity].
  - destruct (decide (k = key)) as [->|Hne].
    + rewrite bool_decide_eq_true_2 by reflexivity.
      split; [discriminate|]. intros H. exfalso. apply H. left.
    + rewrite bool_decide_eq_false_2 by exact Hne. rewrite IH.
      rewrite not_elem_of_cons. split; [intros H; split; congruence|tauto].
Qed.

Lemma map_get_of_elem key v m :
  NoDup (map fst m) → (key, v) ∈ m → PhoebeFor.map_get key m = Some v.
Proof.
  induction m as [|[k x] m IH]; intros Hnd Hin.
  - apply elem_of_nil in Hin. destruct Hin.
  - simpl in Hnd. apply NoDup_cons in Hnd as [Hk Hnd]. simpl.
    apply elem_of_cons in Hin as [Hin|Hin].
    + injection Hin as <- <-. rewrite bool_decide_eq_true_2 by reflexivity.
      reflexivity.
    + rewrite bool_decide_eq_false_2; [auto|].
      intros ->. apply Hk. apply list_elem_of_fmap. exists (key, v). auto.
Qed.

Lemma map_set_new key el m :
  PhoebeFor.map_get key m = None → PhoebeFor.map_set key el m = m ++ [(key, el)].
Proof.
  induction m as [|[k x] m IH]; simpl; [reflexivity|].
  destruct (decide (k = key)) as [->|Hne].
  - rewrite bool_decide_eq_true_2 by reflexivity. discriminate.
  - rewrite bool_decide_eq_false_2 by exact Hne. intros H. f_equal. auto.
Qed.

Lemma snd_injective (m : list (value * option Elem)) k1 k2 v :
  NoDup (map snd m) → (k1, v) ∈ m → (k2, v) ∈ m → k1 = k2.
Proof.
  induction m as [|[k x] m IH]; intros Hnd H1 H2.
  - apply elem_of_nil in H1. destruct H1.
  - simpl in Hnd. apply NoDup_cons in Hnd as [Hx Hnd].
    assert (Hv : ∀ k', (k', x) ∈ m → False).
    { intros k' Hin. apply Hx. apply list_elem_of_fmap. exists (k', x). auto. }
    apply elem_of_cons in H1 as [H1|H1]; apply elem_of_cons in H2 as [H2|H2].
    + congruence.
    + injection H1 as -> ->. exfalso. eapply Hv. exact H2.
    + injection H2 as -> ->. exfalso. eapply Hv. exact H1.
    + auto.
Qed.

Lemma indexes_value key v m L :
  indexes m L → PhoebeFor.map_get key m = Some v → ∃ e, v = Some e ∧ e ∈ L.
Proof.
  intros [_ Hperm] Hget. apply map_get_elem_of in Hget.
  assert (Hin : v ∈ map snd m)
    by (apply list_elem_of_fmap; exists (key, v); auto).
  rewrite Hperm in Hin. apply list_elem_of_fmap in Hin as (e & -> & He). eauto.
Qed.

Lemma indexes_injective k1 k2 v m L :
  indexes m L → NoDup L →
  PhoebeFor.map_get k1 m = Some v → PhoebeFor.map_get k2 m = Some v → k1 = k2.
Proof.
  intros [_ Hperm] Hnd H1 H2.
  apply (snd_injective m k1 k2 v); [|apply map_get_elem_of; assumption..].
  rewrite Hperm. apply (NoDup_fmap_2 Some). exact Hnd.
Qed.

Lemma indexes_perm m L L' : indexes m L → L' ≡ₚ L → indexes m L'.
Proof. intros [Hnd Hperm] HL. split; [exact Hnd|]. rewrite Hperm, HL. reflexivity. Qed.

Lemma indexes_new key K m L L' :
  indexes m L → PhoebeFor.map_get key m = None → L' ≡ₚ K :: L →
  indexes (PhoebeFor.map_set key (Some K) m) L'.
Proof.
  intros [Hnd Hperm] Hnone HL. rewrite (map_set_new _ _ _ Hnone). split.
  - rewrite map_app. simpl. apply NoDup_app. split; [exact Hnd|].
    split; [|apply NoDup_singleton].
    intros k Hk Hk'. apply list_elem_of_singleton in Hk'. subst k.
    apply map_get_None in Hnone. contradiction.
  - rewrite map_app, Hperm, HL. simpl.
    rewrite (Permutation_app_comm _ [Some K]). reflexivity.
Qed.

End KeyIndex.

(** ** The keyed loop: one item after the other *)

Section KeyedOrder.

Context {St : Type}.
Variable newFunction : list string → string → result (@compiled St).
Variable f : @compiled St.
Variable a : St.
Variable this : Elem.
Variable var idx keyExpr : option string.
Variable sc : scope.
Variable content : list node.
Variable proto : Elem.
Variable keyOf : nat → value.
Variable t : Elem.
Variable items : list value.
Variable keyEls0 : list (value * option Elem).
Variable next0 : Elem.

Hypothesis Hnf :
  newFunction ["state"; "scope"]
    ("with(state){ with(scope){ return (" +:+ attr_str keyExpr +:+ ") } }")
  = Ok f.
Hypothesis Hpure :
  ∀ i item, items !! i = Some item →
    f a (spread sc (PhoebeFor.loopContext var idx item i)) VUndefined this
    = (a, Ok (keyOf i)).
Hypothesis Hproto : firstElementChild content = Some proto.

Local Abbreviation Inv := (keyedInvariant f a keyExpr keyOf t var idx items
                             keyEls0 next0).

(** The key snippet evaluates to the key of the item and leaves the page
    as it is, but for the cache. *)
Lemma js_get_key i item (w : Page St) :
  items !! i = Some item →
  ambient w = a →
  (jsCache w !! ("get:" +:+ attr_str keyExpr) = None
   ∨ jsCache w !! ("get:" +:+ attr_str keyExpr) = Some f) →
  ∃ w1,
    js_get newFunction (attr_str keyExpr)
      (spread sc (PhoebeFor.loopContext var idx item i)) this w
    = (w1, Ok (keyOf i))
    ∧ ambient w1 = a
    ∧ jsCache w1 !! ("get:" +:+ attr_str keyExpr) = Some f
    ∧ reg w1 = reg w ∧ nextElem w1 = nextElem w
    ∧ attributes w1 = attributes w.
Proof.
  intros Hitem Ha Hcache. rewrite js_get_unfold.
  destruct Hcache as [Hnone|Hsome].
  - rewrite (get_body_miss _ _ _ _ _ Hnone), Hnf. unfold call. simpl.
    rewrite Ha, (Hpure i item Hitem). eexists. split; [reflexivity|]. simpl.
    rewrite lookup_insert_eq. auto.
  - rewrite (get_body_hit _ _ _ _ _ _ Hsome). unfold call.
    rewrite Ha, (Hpure i item Hitem). eexists. split; [reflexivity|]. simpl.
    auto.
Qed.

Lemma checkKey_run key visited (w : Page St) :
  ∃ w1, PhoebeFor.checkKey key visited w = (w1, Ok tt)
        ∧ ambient w1 = ambient w ∧ jsCache w1 = jsCache w ∧ reg w1 = reg w
        ∧ nextElem w1 = nextElem w ∧ attributes w1 = attributes w.
Proof.
  unfold PhoebeFor.checkKey, console_log, ret.
  destruct key; simpl; try destruct (PhoebeFor.set_has _ _);
    eexists; (split; [reflexivity|]); simpl; auto.
Qed.

(** The invariant after one more item, whose element is [K]. *)
Lemma keyedInvariant_next i P s (w w' : Page St) item K nodes' cur' keyEls'
    visited' X' R' :
  Inv i P s w → items !! i = Some item →
  keyedPosition t (P ++ [K]) X' R' nodes' cur' →
  indexes keyEls' (X' ++ R') →
  (∀ e, e ∈ t :: X' ++ R' → e < nextElem w') →
  PhoebeFor.map_get (keyOf i) keyEls' = Some (Some K) →
  (∀ key v, PhoebeFor.map_get key (PhoebeFor.k_keyElements s) = Some v →
            PhoebeFor.map_get key keyEls' = Some v) →
  (∀ key e, PhoebeFor.map_get key keyEls' = Some (Some e) →
            PhoebeFor.map_get key (PhoebeFor.k_keyElements s) = Some (Some e)
            ∨ next0 ≤ e) →
  reg w' = reg_update (set_loopContextValue
                         (PhoebeFor.loopContext var idx item i)) K (reg w) →
  K ∉ P →
  ambient w' = a →
  jsCache w' !! ("get:" +:+ attr_str keyExpr) = Some f →
  nextElem w ≤ nextElem w' →
  (∀ key, key ∈ visited' ↔ key ∈ PhoebeFor.k_visitedKeys s ∨ key = keyOf i) →
  Inv (Datatypes.S i) (P ++ [K])
      (PhoebeFor.mkKeyed nodes' keyEls' visited' cur') w'.
Proof.
  intros [_ Hlen Hvis Hindex Hctx _ Hold Hnew Hnext] Hitem Hpos Hidx Hbound
    HK Hgrow Hfresh Hreg HKP Ha Hc Hn Hvis'.
  constructor; simpl.
  - exists X', R'. auto.
  - rewrite length_app. simpl. lia.
  - intros key. rewrite Hvis', Hvis. split.
    + intros [(j & Hj & ->)| ->]; [exists j; split; [lia|reflexivity]|].
      exists i. split; [lia|reflexivity].
    + intros (j & Hj & ->). destruct (decide (j = i)) as [->|Hne]; [auto|].
      left. exists j. split; [lia|reflexivity].
  - intros j e Hj. apply lookup_app_Some in Hj as [Hj|[Hge Hj]].
    + apply Hgrow, Hindex. exact Hj.
    + rewrite Hlen in Hj, Hge.
      destruct (j - i) as [|n] eqn:Hji; simpl in Hj; [|discriminate].
      injection Hj as <-. replace j with i by lia. exact HK.
  - intros j e item' Hj Hitem'. rewrite Hreg.
    apply lookup_app_Some in Hj as [Hj|[Hge Hj]].
    + rewrite registry_update_ne; [eapply Hctx; eassumption|].
      intros ->. apply HKP. eapply list_elem_of_lookup_2. exact Hj.
    + rewrite Hlen in Hj, Hge.
      destruct (j - i) as [|n] eqn:Hji; simpl in Hj; [|discriminate].
      injection Hj as <-. replace j with i in * by lia.
      rewrite registry_update_eq. simpl. congruence.
  - auto.
  - intros key v Hkey. apply Hgrow, Hold. exact Hkey.
  - intros key e Hkey Hnone. destruct (Hfresh key e Hkey) as [H|H]; [|exact H].
    eapply Hnew; eassumption.
  - lia.
Qed.

Lemma same_elements_perm (L L' : list Elem) :
  NoDup L → NoDup L' → (∀ e, e ∈ L' ↔ e ∈ L) → L' ≡ₚ L.
Proof. intros. apply NoDup_Permutation; assumption. Qed.

(** One turn of the keyed loop. *)
Lemma keyedStep_invariant i P s (w : Page St) item :
  Inv i P s w → items !! i = Some item →
  (∀ j, j < i → keyOf j ≠ keyOf i) →
  ∃ w' s' K,
    PhoebeFor.keyedStep newFunction this var idx keyExpr sc content item i s w
    = (w', Ok s')
    ∧ Inv (Datatypes.S i) (P ++ [K]) s' w'
    ∧ attributes w' = attributes w.
Proof.
  intros HInv Hitem Hdistinct.
  assert (HInv' := HInv).
  destruct HInv' as [(X & R & Hpos & Hidx & Hbound) Hlen Hvis Hindex Hctx
                       [Ha Hcache] Hold Hnew Hnext].
  destruct (js_get_key i item w Hitem Ha Hcache)
    as (w1 & Hget & Ha1 & Hc1 & Hr1 & Hn1 & Hat1).
  destruct (checkKey_run (keyOf i) (PhoebeFor.k_visitedKeys s) w1)
    as (w2 & Hcheck & Ha2 & Hc2 & Hr2 & Hn2 & Hat2).
  unfold PhoebeFor.keyedStep.
  rewrite (bind_ok _ _ _ _ _ Hget), (bind_ok _ _ _ _ _ Hcheck).
  assert (Hpos' := Hpos). destruct Hpos' as (Hnodes & Hcur & Hnd & Hsub).
  assert (HndL : NoDup (X ++ R)) by (apply NoDup_cons in Hnd as [_ H]; exact H).
  assert (HPL : ∀ e, e ∈ P → e ∈ X ++ R).
  { intros e He. apply elem_of_app. left. eapply elem_of_sublist; eassumption. }
  assert (Hvis' : ∀ key,
            key ∈ PhoebeFor.set_add_value (keyOf i) (PhoebeFor.k_visitedKeys s)
            ↔ key ∈ PhoebeFor.k_visitedKeys s ∨ key = keyOf i)
    by (intros key; apply set_add_value_elem).
  destruct (PhoebeFor.map_get (keyOf i) (PhoebeFor.k_keyElements s))
    as [keyEl|] eqn:Hkey.
  - (* the key is known *)
    destruct (indexes_value _ _ _ _ Hidx Hkey) as (K & -> & HK).
    assert (HKt : K ≠ t).
    { intros ->. apply NoDup_cons in Hnd as [Ht _]. contradiction. }
    assert (HKP : K ∉ P).
    { intros Hin. apply list_elem_of_lookup in Hin as (j & Hj).
      pose proof (lookup_lt_Some _ _ _ Hj) as Hlt. rewrite Hlen in Hlt.
      apply (Hdistinct j Hlt).
      eapply indexes_injective; [exact Hidx|exact HndL| |exact Hkey].
      apply Hindex. exact Hj. }
    destruct (decide (PhoebeFor.k_currentEl s = Some K)) as [Hc|Hc].
    + (* it is the current element *)
      rewrite Hc. rewrite bool_decide_eq_true_2 by (eexists; reflexivity).
      rewrite bool_decide_eq_true_2 by reflexivity. simpl orb. cbv iota.
      destruct R as [|c Y]; [rewrite Hc in Hcur; discriminate|].
      assert (c = K) by (rewrite Hc in Hcur; injection Hcur as ->; reflexivity).
      subst c. rewrite Hc in Hpos.
      pose proof (position_keep t P X K Y _ Hpos) as Hkeep.
      unfold bind, ret, modify_reg. eexists. eexists. exists K.
      split; [reflexivity|]. split; [|simpl; congruence].
      apply (keyedInvariant_next i P s w _ item K _ _ _ _ (X ++ [K]) Y HInv
               Hitem Hkeep).
      * rewrite <- app_assoc. exact Hidx.
      * intros e He. rewrite <- app_assoc in He. simpl. rewrite Hn2, Hn1. auto.
      * exact Hkey.
      * auto.
      * auto.
      * simpl. rewrite Hr2, Hr1. reflexivity.
      * exact HKP.
      * simpl. congruence.
      * simpl. congruence.
      * simpl. lia.
      * exact Hvis'.
    + (* it is moved *)
      destruct (position_move t P X R _ _ K Hpos HKt HKP Hc)
        as (nodes' & X' & R' & Hins & Hmoved & Hel).
      assert (Hcond : negb (bool_decide (is_Some (PhoebeFor.k_currentEl s)))
                      || negb (bool_decide (Some K = PhoebeFor.k_currentEl s))
                      = true).
      { apply orb_true_iff. right. apply negb_true_iff.
        apply bool_decide_eq_false_2. congruence. }
      rewrite Hcond. unfold PhoebeFor.insertBeforeOrNull, PhoebeFor.lift.
      unfold bind at 1. rewrite Hins.
      unfold bind, ret, modify_reg. eexists. eexists. exists K.
      split; [reflexivity|]. split; [|simpl; congruence].
      assert (Hperm : X' ++ R' ≡ₚ X ++ R).
      { destruct Hmoved as (_ & _ & Hnd' & _).
        apply NoDup_cons in Hnd' as [_ Hnd'].
        apply same_elements_perm; [assumption..|].
        intros e. rewrite Hel. split; [|auto]. intros [H| ->]; assumption. }
      apply (keyedInvariant_next i P s w _ item K _ _ _ _ X' R' HInv
               Hitem Hmoved).
      * eapply indexes_perm; eassumption.
      * intros e He. simpl. rewrite Hn2, Hn1. apply Hbound.
        apply elem_of_cons in He as [->|He]; [left|right].
        rewrite <- Hperm. exact He.
      * exact Hkey.
      * auto.
      * auto.
      * simpl. rewrite Hr2, Hr1. reflexivity.
      * exact HKP.
      * simpl. congruence.
      * simpl. congruence.
      * simpl. lia.
      * exact Hvis'.
  - (* the key is new *)
    unfold PhoebeFor.cloneFirstElement. rewrite Hproto.
    unfold bind at 1. unfold bind at 1. unfold fresh_elem at 1. unfold ret at 1.
    set (K := nextElem w2).
    assert (HKL : K ∉ t :: X ++ R).
    { intros Hin. apply Hbound in Hin. unfold K in Hin. lia. }
    assert (HKt : K ≠ t) by (intros ->; apply HKL; left).
    assert (HKP : K ∉ P) by (intros Hin; apply HKL; right; auto).
    assert (Hc : PhoebeFor.k_currentEl s ≠ Some K).
    { rewrite Hcur. intros Hh. apply HKL. right.
      destruct R as [|c Y]; [discriminate|]. injection Hh as ->.
      apply elem_of_app. right. left. }
    destruct (position_move t P X R _ _ K Hpos HKt HKP Hc)
      as (nodes' & X' & R' & Hins & Hmoved & Hel).
    unfold PhoebeFor.insertBeforeOrNull, PhoebeFor.lift.
    unfold bind at 1. rewrite Hins.
    unfold bind, ret, modify_reg. eexists. eexists. exists K.
    split; [reflexivity|]. split; [|simpl; congruence].
    assert (Hperm : X' ++ R' ≡ₚ K :: X ++ R).
    { destruct Hmoved as (_ & _ & Hnd' & _).
      apply NoDup_cons in Hnd' as [_ Hnd'].
      apply same_elements_perm; [|assumption|].
      - apply NoDup_cons. split; [|exact HndL].
        intros Hin. apply HKL. right. exact Hin.
      - intros e. rewrite Hel, elem_of_cons. tauto. }
    apply (keyedInvariant_next i P s w _ item K _ _ _ _ X' R' HInv
             Hitem Hmoved).
    + eapply indexes_new; eassumption.
    + intros e He. simpl. apply elem_of_cons in He as [->|He].
      * assert (t < nextElem w) by (apply Hbound; left). lia.
      * rewrite Hperm in He. apply elem_of_cons in He as [->|He];
          [unfold K; lia|].
        assert (e < nextElem w) by (apply Hbound; right; exact He). lia.
    + apply map_get_set_eq.
    + intros key v Hk. rewrite map_get_set_ne; [exact Hk|].
      intros Heq. rewrite Heq in Hkey. congruence.
    + intros key e Hk. destruct (decide (keyOf i = key)) as [<-|Hne].
      * rewrite map_get_set_eq in Hk. injection Hk as <-. right.
        unfold K. lia.
      * rewrite map_get_set_ne in Hk by exact Hne. auto.
    + simpl. rewrite Hr2, Hr1. reflexivity.
    + exact HKP.
    + simpl. congruence.
    + simpl. congruence.
    + simpl. lia.
    + exact Hvis'.
Qed.

End KeyedOrder.

(** ** The keyed loop: pruning *)

Section KeyedPrune.

Context {St : Type}.

Lemma filter_ext_elem {A} (P1 P2 : A → Prop) `{∀ x, Decision (P1 x)}
    `{∀ x, Decision (P2 x)} (l : list A) :
  (∀ x, x ∈ l → (P1 x ↔ P2 x)) → filter P1 l = filter P2 l.
Proof.
  induction l as [|x l IH]; intros Hext; [reflexivity|].
  assert (Hx : P1 x ↔ P2 x) by (apply Hext; left).
  assert (Hl : filter P1 l = filter P2 l)
    by (apply IH; intros y Hy; apply Hext; right; exact Hy).
  destruct (decide (P1 x)) as [H1|H1].
  - rewrite !filter_cons_True by tauto. f_equal. exact Hl.
  - rewrite !filter_cons_False by tauto. exact Hl.
Qed.

Lemma sublist_filter_id (P L : list Elem) :
  P `sublist_of` L → NoDup L → filter (λ e, e ∈ P) L = P.
Proof.
  induction 1 as [|x l1 l2 Hs IH|x l1 l2 Hs IH]; intros Hnd.
  - reflexivity.
  - apply NoDup_cons in Hnd as [Hx Hnd].
    rewrite filter_cons_True by left. f_equal.
    etransitivity; [|exact (IH Hnd)]. apply filter_ext_elem.
    intros y Hy. rewrite elem_of_cons. split; [|auto].
    intros [->|H]; [|exact H].
    exfalso. apply Hx. exact Hy.
  - apply NoDup_cons in Hnd as [Hx Hnd].
    rewrite filter_cons_False; [auto|].
    intros Hin. apply Hx. eapply elem_of_sublist; eassumption.
Qed.

Lemma map_delete_filter key (m : list (value * option Elem)) :
  PhoebeFor.map_delete key m = filter (λ kv, kv.1 ≠ key) m.
Proof.
  unfold PhoebeFor.map_delete. induction m as [|[k v] m IH]; [reflexivity|].
  simpl. destruct (decide (k = key)) as [->|Hne].
  - rewrite bool_decide_eq_true_2 by reflexivity. simpl.
    rewrite filter_cons_False by (simpl; auto). exact IH.
  - rewrite bool_decide_eq_false_2 by exact Hne. simpl.
    rewrite filter_cons_True by (simpl; exact Hne). f_equal. exact IH.
Qed.

Lemma map_get_filter (Q : value → Prop) `{∀ k, Decision (Q k)} key
    (m : list (value * option Elem)) :
  Q key → PhoebeFor.map_get key (filter (λ kv, Q kv.1) m) = PhoebeFor.map_get key m.
Proof.
  intros HQ. induction m as [|[k v] m IH]; [reflexivity|].
  destruct (decide (Q k)) as [Hk|Hk].
  - rewrite filter_cons_True by exact Hk. simpl. rewrite IH. reflexivity.
  - rewrite filter_cons_False by exact Hk. simpl.
    rewrite bool_decide_eq_false_2 by congruence. exact IH.
Qed.

(** The pruning loop, exactly: the elements of the entries whose key was
    not visited leave the children, and these entries leave the index. *)
Lemma pruneKeyed_exact visited t :
  ∀ entries L keyEls (w : Page St),
    (∀ k v, (k, v) ∈ entries → k ∉ visited → ∃ e, v = Some e ∧ e ≠ t) →
    PhoebeFor.pruneKeyed entries visited (Element t :: map Element L) keyEls w
    = (w, Ok (Element t
                :: map Element
                     (filter (λ e, Forall (λ kv, kv.2 = Some e → kv.1 ∈ visited)
                                          entries) L),
              filter (λ kv, Forall (λ kv', kv'.1 = kv.1 → kv.1 ∈ visited)
                                   entries) keyEls)).
Proof.
  induction entries as [|[k v] rest IH]; intros L keyEls w Hent.
  - simpl. unfold ret. repeat f_equal.
    + symmetry. induction L as [|x L IHL]; [reflexivity|].
      rewrite filter_cons_True by constructor. f_equal. exact IHL.
    + symmetry. induction keyEls as [|x m IHm]; [reflexivity|].
      rewrite filter_cons_True by constructor. f_equal. exact IHm.
  - assert (Hrest : ∀ k' v', (k', v') ∈ rest → k' ∉ visited →
                            ∃ e, v' = Some e ∧ e ≠ t)
      by (intros k' v' Hin; apply Hent; right; exact Hin).
    cbn [PhoebeFor.pruneKeyed]. unfold PhoebeFor.set_has.
    destruct (decide (k ∈ visited)) as [Hk|Hk].
    + rewrite bool_decide_eq_true_2 by exact Hk. cbn [negb].
      rewrite (IH L keyEls w Hrest). repeat f_equal.
      * apply list_filter_iff. intros e. rewrite Forall_cons. simpl. tauto.
      * apply list_filter_iff. intros kv. rewrite Forall_cons. simpl.
        split; [|tauto]. intros H. split; [|exact H]. intros <-. exact Hk.
    + rewrite bool_decide_eq_false_2 by exact Hk. cbn [negb].
      destruct (Hent k v ltac:(left) Hk) as (e0 & -> & Hne).
      rewrite (removeChild_template _ _ _ Hne), map_delete_filter.
      rewrite (IH _ _ w Hrest). rewrite !list_filter_filter. repeat f_equal.
      * apply list_filter_iff. intros e. rewrite Forall_cons. simpl.
        split.
        -- intros [H1 H2]. split; [|exact H1]. intros [= ->]. contradiction.
        -- intros [H1 H2]. split; [exact H2|]. intros ->. apply Hk, H1.
           reflexivity.
      * apply list_filter_iff. intros kv. rewrite Forall_cons. simpl.
        split.
        -- intros [H1 H2]. split; [|exact H1]. intros Heq. congruence.
        -- intros [H1 H2]. split; [exact H2|]. intros Heq. apply Hk.
           rewrite <- Heq. apply H1. congruence.
Qed.

End KeyedPrune.

(** ** The keyed loop: a whole pass *)

Section KeyedRender.

Context {St : Type}.
Variable newFunction : list string → string → result (@compiled St).
Variable iterate : St → value → option (list value).

(** The keyed loop over the items that are left. *)
Lemma keyedItems_invariant f a this var idx keyExpr sc content proto keyOf t
    items keyEls0 next0 :
  newFunction ["state"; "scope"]
    ("with(state){ with(scope){ return (" +:+ attr_str keyExpr +:+ ") } }")
  = Ok f →
  (∀ i item, items !! i = Some item →
     f a (spread sc (PhoebeFor.loopContext var idx item i)) VUndefined this
     = (a, Ok (keyOf i))) →
  firstElementChild content = Some proto →
  (∀ j k, j < k → k < length items → keyOf j ≠ keyOf k) →
  ∀ rest i P s (w : Page St),
    keyedInvariant f a keyExpr keyOf t var idx items keyEls0 next0 i P s w →
    drop i items = rest → i ≤ length items →
    ∃ w' s' P',
      PhoebeFor.keyedItems newFunction this var idx keyExpr sc content rest i
        s w
      = (w', Ok s')
      ∧ keyedInvariant f a keyExpr keyOf t var idx items keyEls0 next0
          (length items) P' s' w'
      ∧ attributes w' = attributes w.
Proof.
  intros Hnf Hpure Hproto Hdistinct.
  induction rest as [|item rest IH]; intros i P s w HInv Hdrop Hle.
  - assert (Hi : i = length items).
    { apply (f_equal length) in Hdrop. rewrite length_drop in Hdrop.
      simpl in Hdrop. lia. }
    subst i. exists w, s, P. auto.
  - assert (Hitem : items !! i = Some item).
    { rewrite <- (Nat.add_0_r i), <- lookup_drop, Hdrop. reflexivity. }
    assert (Hlt : i < length items) by (eapply lookup_lt_Some; exact Hitem).
    rewrite (drop_S _ _ _ Hitem) in Hdrop. injection Hdrop as Hrest.
    destruct (keyedStep_invariant newFunction f a this var idx keyExpr sc
                content proto keyOf t items keyEls0 next0 Hnf Hpure Hproto
                i P s w item HInv Hitem)
      as (w1 & s1 & K & Hstep & HInv1 & Hattr1).
    { intros j Hj. apply Hdistinct; assumption. }
    destruct (IH (Datatypes.S i) (P ++ [K]) s1 w1 HInv1 Hrest ltac:(lia))
      as (w' & s' & P' & Hloop & HInv' & Hattr').
    exists w', s', P'. split; [|split; [exact HInv'|congruence]].
    cbn [PhoebeFor.keyedItems]. rewrite (bind_ok _ _ _ _ _ Hstep). exact Hloop.
Qed.

(** X16. A pass of the keyed loop over items with pairwise distinct keys,
    whose key expression has no effect: the children become the template
    and one element for each item, in the order of the items, whatever the
    order of the elements was; an item whose key is in the index keeps the
    element the index holds for it, an item with a new key gets a new
    element; every element carries the context of its item; the elements
    of the keys that are gone leave the children; and the index holds the
    keys of the items with their elements, and nothing else. *)
Theorem keyed_render_follows_items this sc (c : Children) kEls t content proto
    L (w w1 w2 : Page St) iterObj items f keyOf :
  childNodes c = Element t :: map Element L →
  templates c !! t = Some ("for", content) →
  firstElementChild content = Some proto →
  NoDup (t :: L) →
  (∀ e, e ∈ t :: L → e < nextElem w) →
  indexes (default [] kEls) L →
  is_Some (assoc "key" (default [] (attributes w !! this))) →
  js_get newFunction
    (attr_str (assoc "in" (default [] (attributes w !! this)))) sc this w
  = (w1, Ok iterObj) →
  PhoebeFor.ensureIterable iterate iterObj w1 = (w2, Ok items) →
  let var := assoc "var" (default [] (attributes w !! this)) in
  let idx := assoc "index" (default [] (attributes w !! this)) in
  let keyExpr := assoc "key" (default [] (attributes w !! this)) in
  newFunction ["state"; "scope"]
    ("with(state){ with(scope){ return (" +:+ attr_str keyExpr +:+ ") } }")
  = Ok f →
  (jsCache w2 !! ("get:" +:+ attr_str keyExpr) = None
   ∨ jsCache w2 !! ("get:" +:+ attr_str keyExpr) = Some f) →
  (∀ i item, items !! i = Some item →
     f (ambient w2) (spread sc (PhoebeFor.loopContext var idx item i))
       VUndefined this
     = (ambient w2, Ok (keyOf i))) →
  (∀ j k, j < k → k < length items → keyOf j ≠ keyOf k) →
  ∃ w' P keyEls',
    PhoebeFor.render newFunction iterate this sc (PhoebeFor.mkForEl c kEls) w
    = (w', Ok (PhoebeFor.mkForEl
                 (mkChildren (Element t :: map Element P) (templates c))
                 (Some keyEls')))
    ∧ length P = length items
    ∧ NoDup P
    ∧ indexes keyEls' P
    ∧ ∀ i item e,
        items !! i = Some item → P !! i = Some e →
        PhoebeFor.map_get (keyOf i) keyEls' = Some (Some e)
        ∧ loopContextValue (registry (reg w') e)
          = Some (PhoebeFor.loopContext var idx item i)
        ∧ (∀ v, PhoebeFor.map_get (keyOf i) (default [] kEls) = Some v →
                v = Some e)
        ∧ (PhoebeFor.map_get (keyOf i) (default [] kEls) = None →
           nextElem w ≤ e).
Proof.
  intros Hkids Htmpl Hproto Hnd Hbound Hidx0 Hkey Hget Hiter var idx keyExpr
    Hnf Hcache Hpure Hdistinct.
  pose proof (js_get_preserves newFunction
                (attr_str (assoc "in" (default [] (attributes w !! this))))
                sc this w) as Hp1.
  rewrite Hget in Hp1. simpl in Hp1.
  destruct Hp1 as (Hreg1 & Hattr1 & _ & Hnext1 & _).
  pose proof (ensureIterable_preserves iterate iterObj w1) as Hp2.
  rewrite Hiter in Hp2. simpl in Hp2. destruct Hp2 as (Hreg2 & Hattr2 & Hnext2).
  set (s0 := PhoebeFor.mkKeyed (Element t :: map Element L) (default [] kEls)
               [] (head L)).
  assert (HInv0 : keyedInvariant f (ambient w2) keyExpr keyOf t var idx items
                    (default [] kEls) (nextElem w) 0 [] s0 w2).
  { constructor; simpl.
    - exists [], L. split; [|split].
      + split; [reflexivity|]. split; [reflexivity|]. split; [exact Hnd|].
        constructor.
      + exact Hidx0.
      + intros e He. rewrite Hnext2, Hnext1. apply Hbound. exact He.
    - reflexivity.
    - intros key. split.
      + intros H. apply elem_of_nil in H. destruct H.
      + intros (j & Hj & _). lia.
    - intros j e H. rewrite lookup_nil in H. discriminate.
    - intros j e item H. rewrite lookup_nil in H. discriminate.
    - split; [reflexivity|exact Hcache].
    - auto.
    - intros key e H1 H2. congruence.
    - rewrite Hnext2, Hnext1. lia. }
  destruct (keyedItems_invariant f (ambient w2) this var idx keyExpr sc content
              proto keyOf t items (default [] kEls) (nextElem w)
              Hnf Hpure Hproto Hdistinct items 0 [] s0 w2 HInv0 eq_refl
              ltac:(lia))
    as (w3 & s & P & Hloop & HInv & Hattr3).
  destruct HInv as [(X & R & Hpos & Hidx & Hbound3) Hlen Hvis Hindex Hctx
                      _ Hold Hnew _].
  destruct Hpos as (Hnodes & _ & HndXR & Hsub).
  assert (HndL : NoDup (X ++ R)) by (apply NoDup_cons in HndXR as [_ H]; exact H).
  assert (HsubL : P `sublist_of` X ++ R) by (apply sublist_inserts_r; exact Hsub).
  assert (HndP : NoDup P) by (eapply sublist_NoDup; eassumption).
  destruct Hidx as [Hkeys Hperm].
  assert (Hidx : indexes (PhoebeFor.k_keyElements s) (X ++ R))
    by (split; assumption).
  assert (Hvisited : ∀ j e, P !! j = Some e →
                            keyOf j ∈ PhoebeFor.k_visitedKeys s).
  { intros j e Hj. apply Hvis. exists j. split; [|reflexivity].
    rewrite <- Hlen. eapply lookup_lt_Some. exact Hj. }
  assert (Hback : ∀ k v, (k, v) ∈ PhoebeFor.k_keyElements s →
                         k ∈ PhoebeFor.k_visitedKeys s →
                         ∃ e, v = Some e ∧ e ∈ P).
  { intros k v Hin Hk. apply Hvis in Hk as (j & Hj & ->).
    rewrite <- Hlen in Hj. apply lookup_lt_is_Some_2 in Hj as [e He].
    pose proof (Hindex j e He) as Hg.
    rewrite (map_get_of_elem _ _ _ Hkeys Hin) in Hg. injection Hg as ->.
    exists e. split; [reflexivity|]. eapply list_elem_of_lookup_2. exact He. }
  assert (Hprune :
    PhoebeFor.pruneKeyed (PhoebeFor.k_keyElements s) (PhoebeFor.k_visitedKeys s)
      (PhoebeFor.k_nodes s) (PhoebeFor.k_keyElements s) w3
    = (w3, Ok (Element t :: map Element P,
               filter (λ kv, kv.1 ∈ PhoebeFor.k_visitedKeys s)
                      (PhoebeFor.k_keyElements s)))).
  { assert (Hels : filter (λ e, Forall (λ kv, kv.2 = Some e →
                                               kv.1 ∈ PhoebeFor.k_visitedKeys s)
                                        (PhoebeFor.k_keyElements s)) (X ++ R)
                   = P).
    { etransitivity; [|exact (sublist_filter_id P (X ++ R) HsubL HndL)].
      apply filter_ext_elem. intros e He. rewrite Forall_forall. split.
      * intros Hall.
        assert (Hin : Some e ∈ map snd (PhoebeFor.k_keyElements s)).
        { rewrite Hperm. apply list_elem_of_fmap. exists e. auto. }
        apply list_elem_of_fmap in Hin as ([k v] & Hv & Hin).
        simpl in Hv. subst v.
        destruct (Hback k (Some e) Hin (Hall _ Hin eq_refl))
          as (e' & [= <-] & HP).
        exact HP.
      * intros HP [k v] Hin Hv. simpl in Hv. subst v. simpl.
        apply list_elem_of_lookup_1 in HP as [j Hj].
        rewrite (indexes_injective k (keyOf j) (Some e) _ _ Hidx HndL
                   (map_get_of_elem _ _ _ Hkeys Hin) (Hindex j e Hj)).
        eapply Hvisited. exact Hj. }
    assert (Hents : filter (λ kv, Forall (λ kv' : value * option Elem,
                                            kv'.1 = kv.1 →
                                            kv.1 ∈ PhoebeFor.k_visitedKeys s)
                                         (PhoebeFor.k_keyElements s))
                           (PhoebeFor.k_keyElements s)
                    = filter (λ kv, kv.1 ∈ PhoebeFor.k_visitedKeys s)
                             (PhoebeFor.k_keyElements s)).
    { apply filter_ext_elem. intros kv Hin. rewrite Forall_forall. split.
      * intros Hall. apply (Hall kv Hin). reflexivity.
      * intros Hk kv' _ _. exact Hk. }
    rewrite Hnodes, pruneKeyed_exact; [rewrite Hels, Hents; reflexivity|].
    intros k v Hin _.
    assert (Hv : v ∈ map snd (PhoebeFor.k_keyElements s))
      by (apply list_elem_of_fmap; exists (k, v); auto).
    rewrite Hperm in Hv. apply list_elem_of_fmap in Hv as (e & -> & He).
    exists e. split; [reflexivity|]. intros ->.
    apply NoDup_cons in HndXR as [Ht _]. contradiction. }
  set (final := filter (λ kv, kv.1 ∈ PhoebeFor.k_visitedKeys s)
                       (PhoebeFor.k_keyElements s)) in *.
  assert (Hfinal : ∀ j e, P !! j = Some e →
                          PhoebeFor.map_get (keyOf j) final = Some (Some e)).
  { intros j e Hj. unfold final.
    etransitivity; [|apply Hindex; exact Hj].
    exact (map_get_filter (λ k, k ∈ PhoebeFor.k_visitedKeys s) (keyOf j)
             (PhoebeFor.k_keyElements s) (Hvisited j e Hj)). }
  exists w3, P, final. split; [|split; [|split; [|split]]].
  - unfold PhoebeFor.render.
    rewrite (bind_ok _ _ _ _ _ (init_done this c w _ _ _ Hkids Htmpl)).
    unfold firstChildTemplate. rewrite Hkids, Htmpl.
    rewrite !bind_getAttribute, bind_hasAttribute.
    rewrite (bool_decide_eq_true_2 _ Hkey).
    rewrite (bind_ok _ _ _ _ _ Hget), (bind_ok _ _ _ _ _ Hiter).
    rewrite bind_getAttribute, Hattr2, Hattr1.
    fold var. fold idx. fold keyExpr.
    rewrite nextElementSibling_template. fold s0.
    rewrite (bind_ok _ _ _ _ _ Hloop), (bind_ok _ _ _ _ _ Hprune).
    reflexivity.
  - congruence.
  - exact HndP.
  - split.
    + eapply sublist_NoDup; [exact Hkeys|].
      apply (fmap_sublist fst). apply sublist_filter.
    + apply NoDup_Permutation.
      * eapply sublist_NoDup;
          [|apply (fmap_sublist snd); apply sublist_filter].
        rewrite Hperm. apply (NoDup_fmap_2 Some). exact HndL.
      * apply (NoDup_fmap_2 Some). exact HndP.
      * intros v. split.
        -- intros Hv. apply list_elem_of_fmap in Hv as ([k v'] & -> & Hin).
           apply list_elem_of_filter in Hin as [Hk Hin]. simpl in Hk.
           destruct (Hback k v' Hin Hk) as (e & -> & HP).
           apply list_elem_of_fmap. exists e. auto.
        -- intros Hv. apply list_elem_of_fmap in Hv as (e & -> & HP).
           apply list_elem_of_lookup_1 in HP as [j Hj].
           apply list_elem_of_fmap. exists (keyOf j, Some e).
           split; [reflexivity|]. apply map_get_elem_of, Hfinal. exact Hj.
  - intros i item e Hitem He. split; [|split; [|split]].
    + apply Hfinal. exact He.
    + eapply Hctx; eassumption.
    + intros v Hv. apply Hold in Hv. rewrite (Hindex i e He) in Hv. congruence.
    + intros Hnone. eapply Hnew; [apply Hindex; exact He|exact Hnone].
Qed.

End KeyedRender.

(** The loop keyed by [item.id], rendered with the items of keys [1] and
    [2] and then with items of keys [2] and [1]: the element [102] of key
    [2] comes before the element [101] of key [1], and no element is
    made. *)
Lemma keyed_render_follows_items_witness :
  let r := renderTwice (keyedPage [VRef 1; VRef 2])
                       (keyedState [VRef 3; VRef 1]) loopEl in
  ∃ (w' : Page Host.state) keyEls',
    snd r
    = (w', Ok (PhoebeFor.mkForEl
                 (mkChildren [Element 100; Element 102; Element 101]
                    {[ 100 := ("for", [Text " "; Element 50; Text " "]) ]})
                 (Some keyEls')))
    ∧ indexes keyEls' [102; 101]
    ∧ loopContextValue (registry (reg w') 102) = Some {[ "item" := VRef 3 ]}
    ∧ loopContextValue (registry (reg w') 101) = Some {[ "item" := VRef 1 ]}.
Proof.
  intros r.
  set (c := mkChildren [Element 100; Element 101; Element 102]
              {[ 100 := ("for", [Text " "; Element 50; Text " "]) ]}).
  set (kEls := Some [(VNum 1, Some 101); (VNum 2, Some 102)]).
  set (w := with_ambient (keyedState [VRef 3; VRef 1]) (fst (fst r))).
  set (w1 := fst (js_get Host.newFunction "items" ∅ 1 w)).
  assert (Hr : snd r = PhoebeFor.render Host.newFunction Host.iterate 1 ∅
                         (PhoebeFor.mkForEl c kEls) w)
    by (vm_compute; reflexivity).
  destruct (keyed_render_follows_items Host.newFunction Host.iterate 1 ∅ c kEls
              100 [Text " "; Element 50; Text " "] 50 [101; 102] w w1 w1
              (VRef 0) [VRef 3; VRef 1]
              (fun s sc _ _ => (s, Host.eval_path s sc "item.id"))
              (fun i => match i with 0 => VNum 2 | _ => VNum 1 end))
    as (w' & P & keyEls' & Hrender & Hlen & _ & Hidx & Hitems).
  - reflexivity.
  - reflexivity.
  - reflexivity.
  - apply (@bool_decide_unpack (NoDup [100; 101; 102]) _).
    vm_compute. reflexivity.
  - apply Forall_forall. vm_compute. repeat constructor.
  - split; [|reflexivity].
    apply (@bool_decide_unpack (NoDup [VNum 1; VNum 2]) _).
    vm_compute. reflexivity.
  - vm_compute. eexists. reflexivity.
  - vm_compute. reflexivity.
  - vm_compute. reflexivity.
  - vm_compute. reflexivity.
  - right. vm_compute. reflexivity.
  - intros [|[|i]] item Hitem; simpl in Hitem; [| |discriminate];
      injection Hitem as <-; vm_compute; reflexivity.
  - intros j k Hjk Hk. simpl in Hk.
    destruct j as [|j]; [|lia]. destruct k as [|[|k]]; [lia| |lia].
    discriminate.
  - destruct P as [|e0 [|e1 [|e2 P]]]; simpl in Hlen;
      try discriminate Hlen.
    destruct (Hitems 0 (VRef 3) e0 eq_refl eq_refl) as (_ & Hc0 & Ho0 & _).
    destruct (Hitems 1 (VRef 1) e1 eq_refl eq_refl) as (_ & Hc1 & Ho1 & _).
    specialize (Ho0 (Some 102) eq_refl). injection Ho0 as <-.
    specialize (Ho1 (Some 101) eq_refl). injection Ho1 as <-.
    exists w', keyEls'. split; [rewrite Hr; exact Hrender|].
    split; [exact Hidx|]. split; [exact Hc0|exact Hc1].
Defined.

(** ** The ancestors a scope is built from *)

Section ScopeMemo.

Context {St : Type}.

(** A later [buildScope(el)] of an element that had no provider above it
    at the first call. *)
Lemma buildScope_memo_false parentElement rootNode fuel el (w : Page St) :
  contextAncestors (registry (reg w) el) = CAFalse →
  buildScope parentElement rootNode fuel el w = (w, Ok ∅).
Proof.
  intros Hmemo. unfold buildScope, bind, get_reg, ret.
  rewrite Hmemo. simpl. rewrite Hmemo. reflexivity.
Qed.

(** X17. [buildScope] walks up the document once for each element.  The
    first [buildScope(el)] records the elements on the way up that provide
    a context at that moment.  Every later call, on whatever the document
    and the registry have become as long as the record of [el] stands,
    walks nowhere, needs no parent of [el], changes nothing and merges the
    contexts that the recorded elements hold by then: an ancestor that
    was no provider at the first call gives nothing to the scope of [el],
    even when it provides a context later. *)
Theorem buildScope_walks_once parentElement rootNode fuel el (w : Page St) l :
  contextAncestors (registry (reg w) el) = CAUndefined →
  walk_up parentElement rootNode (Some el) l →
  length l ≤ fuel →
  ∃ w1 sc1,
    buildScope parentElement rootNode fuel el w = (w1, Ok sc1)
    ∧ ∀ parentElement' rootNode' fuel' (w2 : Page St),
        contextAncestors (registry (reg w2) el)
        = contextAncestors (registry (reg w1) el) →
        ∃ sc2,
          buildScope parentElement' rootNode' fuel' el w2 = (w2, Ok sc2)
          ∧ sc2 = foldl (mergeContext (reg w2)) ∅
                        (List.filter (providesContext (reg w)) l)
          ∧ ∀ x v, sc2 !! x = Some v →
                   ∃ anc, anc ∈ l ∧ providesContext (reg w) anc = true
                          ∧ ownContext (reg w2) anc !! x = Some v.
Proof.
  intros Hundef Hwalk Hfuel.
  rewrite (buildScope_first parentElement rootNode fuel el w l Hundef Hwalk
             Hfuel).
  eexists. eexists. split; [reflexivity|].
  intros parentElement' rootNode' fuel' w2 Hsame.
  simpl in Hsame. rewrite registry_update_eq in Hsame. simpl in Hsame.
  exists (foldl (mergeContext (reg w2)) ∅
                (List.filter (providesContext (reg w)) l)).
  split; [|split; [reflexivity|]].
  - destruct (List.filter (providesContext (reg w)) l) as [|b rest] eqn:Hl.
    + simpl in Hsame. apply buildScope_memo_false. exact Hsame.
    + simpl in Hsame. apply buildScope_memo. exact Hsame.
  - intros x v Hx.
    apply foldl_mergeContext_origin in Hx as [Hx|(anc & Hin & Hx)].
    + rewrite lookup_empty in Hx. discriminate.
    + apply list_elem_of_In, List.filter_In in Hin as [Hin Hp].
      exists anc. split; [apply list_elem_of_In; exact Hin|]. auto.
Qed.

End ScopeMemo.

(** The [<span>] [4] of the nested example asks for its scope before any
    element above it provides a context, and again after the element [3]
    above it has got the context of a [<phoebe-with>]: the second scope
    is empty as the first. *)
Lemma buildScope_walks_once_witness :
  ∃ w1 : Page Host.state,
    buildScope nestedTree 0 8 4 (Host.emptyPage Host.emptyState) = (w1, Ok ∅)
    ∧ let w2 := with_reg (reg_update (set_withContextValue
                                        {[ "item" := VStr "with" ]}) 3 (reg w1))
                         w1 in
      ownContext (reg w2) 3 !! "item" = Some (VStr "with")
      ∧ buildScope nestedTree 0 8 4 w2 = (w2, Ok ∅).
Proof.
  destruct (buildScope_walks_once nestedTree 0 8 4
              (Host.emptyPage Host.emptyState) [4; 3; 2; 1] eq_refl)
    as (w1 & sc1 & Hrun & Hlater).
  - repeat (apply walk_step; [discriminate|]). apply walk_root.
  - vm_compute. lia.
  - assert (Hsc : sc1 = ∅).
    { assert (H : snd (buildScope nestedTree 0 8 4
                         (Host.emptyPage Host.emptyState)) = Ok ∅)
        by (vm_compute; reflexivity).
      rewrite Hrun in H. simpl in H. congruence. }
    subst sc1. exists w1. split; [exact Hrun|]. intros w2. split.
    + unfold w2. unfold ownContext, mergeContext. simpl.
      rewrite registry_update_eq. simpl.
      destruct (loopContextValue (registry (reg w1) 3));
        rewrite spread_lookup, lookup_singleton_eq; reflexivity.
    + destruct (Hlater nestedTree 0 8 w2) as (sc2 & Hrun2 & Hsc2 & _).
      * unfold w2. simpl. rewrite registry_update_ne by discriminate.
        reflexivity.
      * rewrite Hrun2, Hsc2. reflexivity.
Defined.
